(** * mysqlxx::Pool — a bounded pool of MySQL connections

    A shallow embedding of [libs/libmysqlxx/include/mysqlxx/Pool.h]:
    the pool ([Pool]), its slots ([Pool::Connection]) and the
    reference-counted handles ([Pool::Entry]) it gives out.

    The MySQL driver ([mysqlxx::Connection], [mysqlxx::Query]), the Poco
    configuration and the daemon's cancellation flag are external: they are
    taken as an interface ([Driver]) over an abstract world.  Code runs in a
    state-and-exception monad whose state is the pool, the world and the
    trace of observable actions (driver calls, log lines, sleeps, mutex
    operations).  Loops that the source leaves unbounded take fuel. *)

From stdpp Require Import base numbers list strings.

(** ** Constants *)

Definition MYSQLXX_POOL_DEFAULT_START_CONNECTIONS : Z := 1.
Definition MYSQLXX_POOL_DEFAULT_MAX_CONNECTIONS : Z := 16.
Definition MYSQLXX_POOL_SLEEP_ON_CONNECT_FAIL : Z := 10.

(** Error numbers of [mysql/mysqld_error.h]. *)
Definition ER_DBACCESS_DENIED_ERROR : Z := 1044.
Definition ER_ACCESS_DENIED_ERROR : Z := 1045.
Definition ER_BAD_DB_ERROR : Z := 1049.

(** [unsigned] parameters: a value is taken modulo 2^32. *)
Definition to_unsigned (n : Z) : Z := (n mod 2 ^ 32)%Z.

(** [int]: 32 bits, two's complement.  [++] at [INT_MAX] and [--] at
    [INT_MIN] wrap around, as they do in the compiled code. *)
Definition INT_MIN : Z := (- 2 ^ 31)%Z.
Definition INT_MAX : Z := (2 ^ 31 - 1)%Z.
Definition to_int (n : Z) : Z := ((n + 2 ^ 31) mod 2 ^ 32 - 2 ^ 31)%Z.
Definition is_int (n : Z) : Prop := (INT_MIN ≤ n ≤ INT_MAX)%Z.

(** ** Exceptions and observable events *)

(** A [mysqlxx::Connection] object is named by a number; every [new
    Connection()] of the pool yields the next one. *)
Definition Session := nat.

Inductive exn : Type :=
| ConnectionFailed (errnum : Z) (what : string) (* mysqlxx::ConnectionFailed *)
| DriverException (what : string)               (* any other mysqlxx exception *)
| NotFoundException                             (* Poco: missing configuration key *)
| PocoException (msg : string)
| PocoRuntimeException (msg : string).

Inductive event : Type :=
| EvLock
| EvUnlock
| EvYield
| EvSleep (seconds : Z)
| EvLogInformation (msg : string)
| EvLogError (msg : string)
| EvLogTrace (msg : string)
| EvConnect (c : Session) (config : string) (r : option exn)
| EvPing (c : Session) (alive : bool)
| EvExecute (c : Session) (query : string) (r : option exn)
| EvDelete (c : Session).

(** ** The driver interface *)

Class Driver (W : Type) : Type := {
  (** [mysqlxx::Connection::connect(config_name)]: [Some e] when it throws. *)
  conn_connect : string → Session → W → option exn * W;
  (** [mysqlxx::Connection::ping()]. *)
  conn_ping : Session → W → bool * W;
  (** [mysqlxx::Query::execute()] of a query text on a connection. *)
  query_execute : string → Session → W → option exn * W;
  (** [Daemon::instance().isCancelled()]. *)
  isCancelled : W → bool;
  (** [app.config().getString(key)]: [None] when the key is missing. *)
  cfg_getString : W → string → option string
}.

(** ** Data *)

(** [struct Pool::Connection]; [ref_count] is an [int], every write to it
    goes through [to_int]. *)
Record Connection : Type := mkConnection {
  conn : Session;
  ref_count : Z
}.

(** [class Pool].  [Connections] is a [std::list<Connection *>] that only
    grows by [push_back]; a [Connection *] is modelled by the position of the
    slot in the list.  The mutex shows in the trace only. *)
Record Pool : Type := mkPool {
  DefaultConnections : Z;
  MaxConnections : Z;
  InitConnect : string;
  Initialized : bool;
  Connections : list Connection;
  config_name : string;
  description : string;
  was_successful : bool
}.

(** The [Pool *] of an [Entry]: [NULL] or the pool. *)
Inductive PoolPtr : Type := NULL_pool | this_pool.

(** [class Pool::Entry]: [data] is [None] for [NULL]. *)
Record Entry : Type := mkEntry {
  data : option nat;
  pool : PoolPtr
}.

Definition set_Connections (cs : list Connection) (p : Pool) : Pool :=
  mkPool (DefaultConnections p) (MaxConnections p) (InitConnect p)
         (Initialized p) cs (config_name p) (description p) (was_successful p).
Definition set_Initialized (b : bool) (p : Pool) : Pool :=
  mkPool (DefaultConnections p) (MaxConnections p) (InitConnect p)
         b (Connections p) (config_name p) (description p) (was_successful p).
Definition set_description (d : string) (p : Pool) : Pool :=
  mkPool (DefaultConnections p) (MaxConnections p) (InitConnect p)
         (Initialized p) (Connections p) (config_name p) d (was_successful p).
Definition set_was_successful (b : bool) (p : Pool) : Pool :=
  mkPool (DefaultConnections p) (MaxConnections p) (InitConnect p)
         (Initialized p) (Connections p) (config_name p) (description p) b.

(** The constructor [Pool(config_name_, DefConn, MaxConn, InitConnect_)]. *)
Definition Pool_new (config_name_ : string) (DefConn MaxConn : Z)
    (InitConnect_ : string) : Pool :=
  mkPool (to_unsigned DefConn) (to_unsigned MaxConn) InitConnect_
         false [] config_name_ "" false.

(** ** Reference counting of [Entry] *)

Definition add_ref (d : Z) (i : nat) (cs : list Connection) : list Connection :=
  alter (λ c, mkConnection (conn c) (to_int (ref_count c + d))) i cs.

(** [if (data) ++data->ref_count] and [if (data) --data->ref_count]. *)
Definition incr_if (d : option nat) (cs : list Connection) : list Connection :=
  match d with Some i => add_ref 1 i cs | None => cs end.
Definition decr_if (d : option nat) (cs : list Connection) : list Connection :=
  match d with Some i => add_ref (-1) i cs | None => cs end.

(** [Entry()]. *)
Definition Entry_null : Entry := mkEntry None NULL_pool.

(** [Entry(Pool::Connection * conn, Pool * p)]. *)
Definition Entry_ctor (c : option nat) (p : PoolPtr) (cs : list Connection)
    : Entry * list Connection :=
  (mkEntry c p, incr_if c cs).

(** [Entry(const Entry & src)]. *)
Definition Entry_copy (src : Entry) (cs : list Connection)
    : Entry * list Connection :=
  (mkEntry (data src) (pool src), incr_if (data src) cs).

(** [~Entry()]. *)
Definition Entry_dtor (e : Entry) (cs : list Connection) : list Connection :=
  decr_if (data e) cs.

(** [bool isNull() const]. *)
Definition isNull (e : Entry) : bool :=
  match data e with None => true | Some _ => false end.

(** *** Handle objects in memory

    For the copy and assignment laws the handles are objects with an
    identity: [handles !! h] is [Some (Some e)] for a live handle, [Some
    None] for a destroyed one.  [Entry_assign] reads [src] through the store
    after each write, as [operator=] does through its reference, so that
    [h = h] is covered. *)

Record Heap : Type := mkHeap {
  slots : list Connection;
  handles : list (option Entry)
}.

Definition live (hp : Heap) (h : nat) : option Entry :=
  match handles hp !! h with Some (Some e) => Some e | _ => None end.

Inductive handle_op : Type :=
| OpDefault                                  (* Entry() *)
| OpCtor (c : option nat) (p : PoolPtr)      (* Entry(conn, p) *)
| OpCopy (src : nat)                         (* Entry(const Entry & src) *)
| OpAssign (dst src : nat)                   (* dst = src *)
| OpDtor (h : nat).                          (* ~Entry() *)

Definition Entry_assign (dst src : nat) (hp : Heap) : option Heap :=
  match live hp dst, live hp src with
  | Some d0, Some s0 =>
      (* pool = src.pool; *)
      let hs1 := <[dst := Some (mkEntry (data d0) (pool s0))]> (handles hp) in
      (* if (data) --data->ref_count; *)
      let cs1 := decr_if (data d0) (slots hp) in
      (* data = src.data; *)
      let hp1 := mkHeap cs1 hs1 in
      match live hp1 dst, live hp1 src with
      | Some d1, Some s1 =>
          let hs2 := <[dst := Some (mkEntry (data s1) (pool d1))]> hs1 in
          (* if (data) ++data->ref_count; *)
          Some (mkHeap (incr_if (data s1) cs1) hs2)
      | _, _ => None
      end
  | _, _ => None
  end.

(** One handle operation; [None] when it names a handle that is not alive. *)
Definition handle_step (op : handle_op) (hp : Heap) : option Heap :=
  match op with
  | OpDefault => Some (mkHeap (slots hp) (handles hp ++ [Some Entry_null]))
  | OpCtor c p =>
      let '(e, cs) := Entry_ctor c p (slots hp) in
      Some (mkHeap cs (handles hp ++ [Some e]))
  | OpCopy src =>
      match live hp src with
      | Some s =>
          let '(e, cs) := Entry_copy s (slots hp) in
          Some (mkHeap cs (handles hp ++ [Some e]))
      | None => None
      end
  | OpAssign dst src => Entry_assign dst src hp
  | OpDtor h =>
      match live hp h with
      | Some e => Some (mkHeap (Entry_dtor e (slots hp)) (<[h := None]> (handles hp)))
      | None => None
      end
  end.

Fixpoint handle_run (ops : list handle_op) (hp : Heap) : option Heap :=
  match ops with
  | [] => Some hp
  | op :: ops' =>
      match handle_step op hp with
      | Some hp' => handle_run ops' hp'
      | None => None
      end
  end.

(** The number of live handles whose [data] is slot [p]. *)
Definition refers_to (p : nat) (h : option Entry) : bool :=
  match h with
  | Some e => bool_decide (data e = Some p)
  | None => false
  end.

Fixpoint live_handles (p : nat) (hs : list (option Entry)) : Z :=
  match hs with
  | [] => 0
  | h :: hs' => (if refers_to p h then 1 else 0) + live_handles p hs'
  end.

Definition weight (p : nat) (h : option Entry) : Z :=
  if refers_to p h then 1 else 0.

(** The invariant: every slot counts its live handles, as an [int]. *)
Definition conserved (hp : Heap) : Prop :=
  ∀ p c, slots hp !! p = Some c →
         ref_count c = to_int (live_handles p (handles hp)).

(** ** The monad of pool code *)

Record State (W : Type) : Type := mkState {
  this : Pool;
  world : W;
  trace : list event;      (* oldest event first *)
  next_conn : Session      (* the next [new Connection()] *)
}.
Arguments mkState {W} _ _ _ _.
Arguments this {W} _.
Arguments world {W} _.
Arguments trace {W} _.
Arguments next_conn {W} _.

(** The outcome of a call: a value, a C++ exception, a loop that outran its
    fuel, or undefined behaviour (a dangling or null [data] dereferenced). *)
Inductive Res (W A : Type) : Type :=
| Ret (a : A) (s : State W)
| Throw (e : exn) (s : State W)
| OutOfFuel
| Undefined.
Arguments Ret {W A} _ _.
Arguments Throw {W A} _ _.
Arguments OutOfFuel {W A}.
Arguments Undefined {W A}.

Definition M (W A : Type) : Type := State W → Res W A.

Definition ret {W A} (a : A) : M W A := λ s, Ret a s.

Definition bind {W A B} (m : M W A) (k : A → M W B) : M W B :=
  λ s, match m s with
       | Ret a s' => k a s'
       | Throw e s' => Throw e s'
       | OutOfFuel => OutOfFuel
       | Undefined => Undefined
       end.

Notation "x <- m ;; k" := (bind m (λ x, k))
  (at level 100, m at next level, right associativity).
Notation "m ;; k" := (bind m (λ _, k))
  (at level 100, right associativity).

Definition throw {W A} (e : exn) : M W A := λ s, Throw e s.
Definition out_of_fuel {W A} : M W A := λ _, OutOfFuel.
Definition undefined {W A} : M W A := λ _, Undefined.

Definition emit {W} (ev : event) : M W unit :=
  λ s, Ret tt (mkState (this s) (world s) (trace s ++ [ev]) (next_conn s)).

Definition get_pool {W} : M W Pool := λ s, Ret (this s) s.

Definition modify_pool {W} (f : Pool → Pool) : M W unit :=
  λ s, Ret tt (mkState (f (this s)) (world s) (trace s) (next_conn s)).

(** [try { m } catch (mysqlxx::ConnectionFailed & e) { h }]: any other
    exception passes through. *)
Definition catch_ConnectionFailed {W A} (m : M W A) (h : Z → string → M W A)
    : M W A :=
  λ s, match m s with
       | Throw (ConnectionFailed errnum what) s' => h errnum what s'
       | r => r
       end.

(** [Poco::ScopedLock<Poco::FastMutex>]: unlocks on return and on throw. *)
Definition ScopedLock {W A} (m : M W A) : M W A :=
  emit EvLock ;;
  λ s, match m s with
       | Ret a s' => (emit EvUnlock ;; ret a) s'
       | Throw e s' => (emit EvUnlock ;; throw e) s'
       | r => r
       end.

(** [for (unsigned i = 0; i < n; i++) body;] *)
Fixpoint for_loop {W A} (n : nat) (body : M W A) : M W unit :=
  match n with
  | O => ret tt
  | S n' => body ;; for_loop n' body
  end.

(** The first slot of the list with [ref_count == 0]. *)
Fixpoint find_idle (cs : list Connection) : option nat :=
  match cs with
  | [] => None
  | c :: cs' => if (ref_count c =? 0)%Z then Some O else S <$> find_idle cs'
  end.

Section PoolCode.
Context {W : Type} {D : Driver W}.

(** *** Calls into the driver, the configuration and the daemon *)

Definition new_Connection : M W Session :=
  λ s, Ret (next_conn s)
           (mkState (this s) (world s) (trace s) (S (next_conn s))).

Definition delete_Connection (c : Session) : M W unit := emit (EvDelete c).

Definition Connection_connect (c : Session) (config : string) : M W unit :=
  λ s, let '(r, w) := conn_connect config c (world s) in
       let s' := mkState (this s) w (trace s ++ [EvConnect c config r])
                         (next_conn s) in
       match r with
       | None => Ret tt s'
       | Some e => Throw e s'
       end.

Definition Connection_ping (c : Session) : M W bool :=
  λ s, let '(alive, w) := conn_ping c (world s) in
       Ret alive (mkState (this s) w (trace s ++ [EvPing c alive])
                          (next_conn s)).

Definition Query_execute (c : Session) (query : string) : M W unit :=
  λ s, let '(r, w) := query_execute query c (world s) in
       let s' := mkState (this s) w (trace s ++ [EvExecute c query r])
                         (next_conn s) in
       match r with
       | None => Ret tt s'
       | Some e => Throw e s'
       end.

Definition Daemon_isCancelled : M W bool :=
  λ s, Ret (isCancelled (world s)) s.

(** [cfg.getString(key)] throws when the key is missing. *)
Definition getString (key : string) : M W string :=
  λ s, match cfg_getString (world s) key with
       | Some v => Ret v s
       | None => Throw NotFoundException s
       end.

(** [cfg.getString(key, deflt)]. *)
Definition getString_default (key deflt : string) : M W string :=
  λ s, Ret (default deflt (cfg_getString (world s) key)) s.

(** *** [Entry] objects made and dropped by pool code *)

Definition on_Connections {A}
    (f : list Connection → A * list Connection) : M W A :=
  p <- get_pool ;;
  let '(a, cs) := f (Connections p) in
  modify_pool (set_Connections cs) ;;
  ret a.

Definition new_Entry (c : option nat) (p : PoolPtr) : M W Entry :=
  on_Connections (Entry_ctor c p).
Definition copy_Entry (src : Entry) : M W Entry :=
  on_Connections (Entry_copy src).
Definition drop_Entry (e : Entry) : M W unit :=
  on_Connections (λ cs, (tt, Entry_dtor e cs)).

(** [data->conn]. *)
Definition data_conn (e : Entry) : M W Session :=
  match data e with
  | None => undefined
  | Some i =>
      p <- get_pool ;;
      match Connections p !! i with
      | Some c => ret (conn c)
      | None => undefined
      end
  end.

(** *** [Pool::afterConnect] *)

Definition afterConnect (Conn : Session) : M W unit :=
  p <- get_pool ;;
  if negb (String.eqb (InitConnect p) "") then
    let Q := InitConnect p in
    emit (EvLogTrace Q) ;;
    Query_execute Conn Q
  else ret tt.

(** *** [Pool::AllocConnection]

    The [try] block yields [true]; the handler either throws or yields
    [false], for its [return NULL]. *)

Definition is_fatal (errnum : Z) : bool :=
  (errnum =? ER_ACCESS_DENIED_ERROR)%Z
  || (errnum =? ER_DBACCESS_DENIED_ERROR)%Z
  || (errnum =? ER_BAD_DB_ERROR)%Z.

Definition cancelled_msg : string :=
  "Daemon is cancelled while trying to connect to MySQL server.".

Definition AllocConnection (dont_throw_if_failed_first_time : bool)
    : M W (option nat) :=
  Conn <- new_Connection ;;
  connected <-
    catch_ConnectionFailed
      (p <- get_pool ;;
       emit (EvLogInformation ("MYSQL: Connecting to " +:+ description p)) ;;
       Connection_connect Conn (config_name p) ;;
       ret true)
      (λ errnum what,
         p <- get_pool ;;
         if (negb (was_successful p) && negb dont_throw_if_failed_first_time)
            || is_fatal errnum
         then
           emit (EvLogError what) ;;
           throw (ConnectionFailed errnum what)
         else
           emit (EvLogError what) ;;
           delete_Connection Conn ;;
           cancelled <- Daemon_isCancelled ;;
           if cancelled then throw (PocoException cancelled_msg)
           else ret false) ;;
  if connected : bool then
    modify_pool (set_was_successful true) ;;
    afterConnect Conn ;;
    p <- get_pool ;;
    modify_pool (set_Connections (Connections p ++ [mkConnection Conn 0])) ;;
    ret (Some (length (Connections p)))
  else ret None.

(** *** [Pool::Initialize] *)

Definition Initialize : M W unit :=
  p <- get_pool ;;
  if negb (Initialized p) then
    db <- getString_default (config_name p +:+ ".db") "" ;;
    host <- getString (config_name p +:+ ".host") ;;
    port <- getString (config_name p +:+ ".port") ;;
    user <- getString (config_name p +:+ ".user") ;;
    modify_pool (set_description
      (db +:+ "@" +:+ host +:+ ":" +:+ port +:+ " as user " +:+ user)) ;;
    for_loop (Z.to_nat (DefaultConnections p)) (AllocConnection false) ;;
    modify_pool (set_Initialized true)
  else ret tt.

(** *** [Pool::Get] *)

Definition Get_backoff : M W unit :=
  emit EvUnlock ;;
  emit EvYield ;;
  emit (EvSleep MYSQLXX_POOL_SLEEP_ON_CONNECT_FAIL) ;;
  emit EvLock.

(** The [for (;;)] of [Get]: one unit of fuel per round. *)
Fixpoint Get_loop (fuel : nat) : M W Entry :=
  match fuel with
  | O => out_of_fuel
  | S fuel' =>
      p <- get_pool ;;
      match find_idle (Connections p) with
      | Some it => new_Entry (Some it) this_pool
      | None =>
          if (Z.of_nat (length (Connections p)) <? MaxConnections p)%Z then
            conn <- AllocConnection false ;;
            match conn with
            | Some c => new_Entry (Some c) this_pool
            | None => Get_backoff ;; Get_loop fuel'
            end
          else Get_backoff ;; Get_loop fuel'
      end
  end.

Definition Get (fuel : nat) : M W Entry :=
  ScopedLock (Initialize ;; Get_loop fuel).

(** *** [Entry::tryForceConnected] and [Pool::tryGet] *)

Definition tryForceConnected (e : Entry) : M W bool :=
  c <- data_conn e ;;
  Connection_ping c.

Definition pool_full_msg : string := "mysqlxx::Pool is full".

(** The body of [tryGet] after [Initialize()]. *)
Definition tryGet_scan : M W Entry :=
  p <- get_pool ;;
  match find_idle (Connections p) with
  | Some it =>
      res <- new_Entry (Some it) this_pool ;;
      alive <- tryForceConnected res ;;
      (* return alive ? res : Entry();  then ~res *)
      result <- (if alive : bool then copy_Entry res else ret Entry_null) ;;
      drop_Entry res ;;
      ret result
  | None =>
      if (Z.of_nat (length (Connections p)) >=? MaxConnections p)%Z then
        throw (PocoException pool_full_msg)
      else
        conn <- AllocConnection true ;;
        match conn with
        | Some c => new_Entry (Some c) this_pool
        | None => ret Entry_null
        end
  end.

Definition tryGet : M W Entry :=
  ScopedLock (Initialize ;; tryGet_scan).

(** *** [Entry::ForceConnected] and the access operators *)

(** The [do ... while (!data->conn.ping())] of [ForceConnected].  An [Entry]
    with [data] gets it from [Get] or [tryGet], with [pool] the pool: what
    the source reads through [pool->] is read from the pool of the state. *)
Fixpoint reconnect_loop (fuel : nat) (first : bool) (c : Session) : M W unit :=
  match fuel with
  | O => out_of_fuel
  | S fuel' =>
      (if first then ret tt else emit (EvSleep 5)) ;;
      p <- get_pool ;;
      emit (EvLogInformation ("MYSQL: Reconnecting to " +:+ description p)) ;;
      Connection_connect c (config_name p) ;;
      alive <- Connection_ping c ;;
      if alive : bool then ret tt else reconnect_loop fuel' false c
  end.

Definition ForceConnected (fuel : nat) (e : Entry) : M W unit :=
  c <- data_conn e ;;
  alive <- Connection_ping c ;;
  if alive : bool then ret tt
  else
    reconnect_loop fuel true c ;;
    afterConnect c.

Definition null_access_msg : string :=
  "Tried to access NULL database connection.".

(** [operator->] and [operator mysqlxx::Connection &], const or not: the
    four bodies are the same. *)
Definition Entry_access (fuel : nat) (e : Entry) : M W Session :=
  match data e with
  | None => throw (PocoRuntimeException null_access_msg)
  | Some _ =>
      ForceConnected fuel e ;;
      data_conn e
  end.

(** *** [Pool::getDescription] and [Pool::~Pool] *)

Definition getDescription : M W string :=
  p <- get_pool ;;
  ret (description p).

(** The loop of the destructor: [delete] on every element of
    [Connections], first to last. *)
Fixpoint delete_each (cs : list Connection) : M W unit :=
  match cs with
  | [] => ret tt
  | c :: cs' => delete_Connection (conn c) ;; delete_each cs'
  end.

Definition Pool_dtor : M W unit :=
  ScopedLock (p <- get_pool ;; delete_each (Connections p)).

End PoolCode.

(** ** A scripted driver, for running the code on concrete inputs

    The world lists what the next calls of [connect], [ping] and [execute]
    will answer (a call beyond the script succeeds), whether the daemon is
    cancelled, and the configuration. *)

Module Scripted.

Record World : Type := mkWorld {
  connects : list (option exn);
  pings : list bool;
  executes : list (option exn);
  cancelled : bool;
  config : list (string * string)
}.

Fixpoint lookup_key (key : string) (kvs : list (string * string))
    : option string :=
  match kvs with
  | [] => None
  | (k, v) :: kvs' => if String.eqb k key then Some v else lookup_key key kvs'
  end.

Global Instance driver : Driver World := {
  conn_connect _ _ w :=
    (default None (head (connects w)),
     mkWorld (tail (connects w)) (pings w) (executes w) (cancelled w) (config w));
  conn_ping _ w :=
    (default true (head (pings w)),
     mkWorld (connects w) (tail (pings w)) (executes w) (cancelled w) (config w));
  query_execute _ _ w :=
    (default None (head (executes w)),
     mkWorld (connects w) (pings w) (tail (executes w)) (cancelled w) (config w));
  isCancelled w := cancelled w;
  cfg_getString w key := lookup_key key (config w)
}.

(** The configuration section [mysql_params]. *)
Definition params : list (string * string) :=
  [("mysql_params.db", "stat"); ("mysql_params.host", "localhost");
   ("mysql_params.port", "3306"); ("mysql_params.user", "metrika")].

Definition world_of (cs : list (option exn)) (ps : list bool)
    (es : list (option exn)) (c : bool) : World :=
  mkWorld cs ps es c params.

(** A pool just constructed, nothing traced yet. *)
Definition fresh (DefConn MaxConn : Z) (InitConnect_ : string) (w : World)
    : State World :=
  mkState (Pool_new "mysql_params" DefConn MaxConn InitConnect_) w [] O.

End Scripted.

(** * Vocabulary of the statements *)

(** The state with more events traced. *)
Definition traced {W} (evs : list event) (s : State W) : State W :=
  mkState (this s) (world s) (trace s ++ evs) (next_conn s).

(** What a call may end in: [Q] on return, [E] on throw. *)
Definition outcome {W A} (r : Res W A)
    (Q : A → State W → Prop) (E : exn → State W → Prop) : Prop :=
  match r with
  | Ret a s' => Q a s'
  | Throw e s' => E e s'
  | OutOfFuel | Undefined => True
  end.

(** How the state may change over any pool code: the policy is fixed, the
    two flags only go from false to true, the description is fixed once
    initialized, slots are only added and keep their session, the trace only
    grows. *)
Record evolves {W} (s s' : State W) : Prop := mkEvolves {
  ev_DefaultConnections :
    DefaultConnections (this s') = DefaultConnections (this s);
  ev_MaxConnections : MaxConnections (this s') = MaxConnections (this s);
  ev_InitConnect : InitConnect (this s') = InitConnect (this s);
  ev_config_name : config_name (this s') = config_name (this s);
  ev_Initialized : Initialized (this s) = true → Initialized (this s') = true;
  ev_description :
    Initialized (this s) = true → description (this s') = description (this s);
  ev_was_successful :
    was_successful (this s) = true → was_successful (this s') = true;
  ev_Connections :
    ∀ i c, Connections (this s) !! i = Some c →
           ∃ c', Connections (this s') !! i = Some c' ∧ conn c' = conn c;
  ev_trace : trace s `prefix_of` trace s';
  ev_next_conn : next_conn s ≤ next_conn s'
}.

(** Code all of whose outcomes are such changes. *)
Definition steady {W A} (m : M W A) : Prop :=
  ∀ s, outcome (m s) (λ _ s', evolves s s') (λ _ s', evolves s s').

(** *** Outcomes of [AllocConnection] *)

Section Outcomes.
Context {W : Type} {D : Driver W}.

(** The state once [connect] has answered [r] for the connection made in
    [s], with pool [p], world [w] and the events [more] after the call. *)
Definition after_connect (p : Pool) (s : State W) (r : option exn) (w : W)
    (more : list event) : State W :=
  mkState p w
    (trace s
     ++ [EvLogInformation ("MYSQL: Connecting to " +:+ description (this s));
         EvConnect (next_conn s) (config_name (this s)) r]
     ++ more)
    (S (next_conn s)).

(** The description that [Initialize] composes; [None] when [host], [port]
    or [user] is missing. *)
Definition composed (w : W) (cfg : string) : option string :=
  match cfg_getString w (cfg +:+ ".host"), cfg_getString w (cfg +:+ ".port"),
        cfg_getString w (cfg +:+ ".user") with
  | Some host, Some port, Some user =>
      Some (default "" (cfg_getString w (cfg +:+ ".db"))
            +:+ "@" +:+ host +:+ ":" +:+ port +:+ " as user " +:+ user)
  | _, _, _ => None
  end.

Definition described (d : string) (s : State W) : State W :=
  mkState (set_description d (this s)) (world s) (trace s) (next_conn s).

(** The state in which a new handle holds slot [i]. *)
Definition held (i : nat) (s : State W) : State W :=
  mkState (set_Connections (add_ref 1 i (Connections (this s))) (this s))
          (world s) (trace s) (next_conn s).

(** The pool with the new slot. *)
Definition grown (c : Session) (p : Pool) : Pool :=
  set_Connections (Connections p ++ [mkConnection c 0])
                  (set_was_successful true p).

Definition rethrown (b : bool) (p : Pool) (errnum : Z) : bool :=
  (negb (was_successful p) && negb b) || is_fatal errnum.

Inductive alloc_outcome (b : bool) (s : State W)
    : Res W (option nat) → Prop :=
| alloc_rethrow errnum what w :
    conn_connect (config_name (this s)) (next_conn s) (world s)
    = (Some (ConnectionFailed errnum what), w) →
    rethrown b (this s) errnum = true →
    alloc_outcome b s
      (Throw (ConnectionFailed errnum what)
         (after_connect (this s) s (Some (ConnectionFailed errnum what)) w
            [EvLogError what]))
| alloc_cancelled errnum what w :
    conn_connect (config_name (this s)) (next_conn s) (world s)
    = (Some (ConnectionFailed errnum what), w) →
    rethrown b (this s) errnum = false →
    isCancelled w = true →
    alloc_outcome b s
      (Throw (PocoException cancelled_msg)
         (after_connect (this s) s (Some (ConnectionFailed errnum what)) w
            [EvLogError what; EvDelete (next_conn s)]))
| alloc_transient errnum what w :
    conn_connect (config_name (this s)) (next_conn s) (world s)
    = (Some (ConnectionFailed errnum what), w) →
    rethrown b (this s) errnum = false →
    isCancelled w = false →
    alloc_outcome b s
      (Ret None
         (after_connect (this s) s (Some (ConnectionFailed errnum what)) w
            [EvLogError what; EvDelete (next_conn s)]))
| alloc_other e w :
    conn_connect (config_name (this s)) (next_conn s) (world s) = (Some e, w) →
    (∀ errnum what, e ≠ ConnectionFailed errnum what) →
    alloc_outcome b s (Throw e (after_connect (this s) s (Some e) w []))
| alloc_plain w :
    conn_connect (config_name (this s)) (next_conn s) (world s) = (None, w) →
    InitConnect (this s) = "" →
    alloc_outcome b s
      (Ret (Some (length (Connections (this s))))
         (after_connect (grown (next_conn s) (this s)) s None w []))
| alloc_init w w' :
    conn_connect (config_name (this s)) (next_conn s) (world s) = (None, w) →
    InitConnect (this s) ≠ "" →
    query_execute (InitConnect (this s)) (next_conn s) w = (None, w') →
    alloc_outcome b s
      (Ret (Some (length (Connections (this s))))
         (after_connect (grown (next_conn s) (this s)) s None w'
            [EvLogTrace (InitConnect (this s));
             EvExecute (next_conn s) (InitConnect (this s)) None]))
| alloc_init_failed e w w' :
    conn_connect (config_name (this s)) (next_conn s) (world s) = (None, w) →
    InitConnect (this s) ≠ "" →
    query_execute (InitConnect (this s)) (next_conn s) w = (Some e, w') →
    alloc_outcome b s
      (Throw e
         (after_connect (set_was_successful true (this s)) s None w'
            [EvLogTrace (InitConnect (this s));
             EvExecute (next_conn s) (InitConnect (this s)) (Some e)])).

End Outcomes.

(** *** Traces of [ForceConnected] *)

(** The reconnect loop when the first [failed] rounds end in a dead [ping]
    and the next one in a live one: the first round starts at once, each
    later one after [sleep(5)]. *)
Fixpoint reconnect_events (desc cfg : string) (c : Session) (failed : nat)
    : list event :=
  [EvLogInformation ("MYSQL: Reconnecting to " +:+ desc); EvConnect c cfg None]
  ++ match failed with
     | O => [EvPing c true]
     | S k => [EvPing c false; EvSleep 5] ++ reconnect_events desc cfg c k
     end.

(** One successful run of [afterConnect]. *)
Definition init_events (q : string) (c : Session) : list event :=
  if String.eqb q "" then [] else [EvLogTrace q; EvExecute c q None].

(** The answer of the last [ping] of connection [c] among the events. *)
Fixpoint last_ping (c : Session) (evs : list event) : option bool :=
  match evs with
  | [] => None
  | ev :: evs' =>
      match last_ping c evs' with
      | Some alive => Some alive
      | None =>
          match ev with
          | EvPing c' alive => if Nat.eqb c c' then Some alive else None
          | _ => None
          end
      end
  end.

(** *** Why an acquisition throws, and what initialization does *)

Section Causes.
Context {W : Type} {D : Driver W}.

(** The reasons for which [Get] throws [e], ending in state [s']; [tl] is
    what is traced after the failing call. *)
Inductive throw_cause (tl : list event) (e : exn) (s' : State W) : Prop :=
| cause_fatal errnum what pre c cfg :
    e = ConnectionFailed errnum what →
    is_fatal errnum = true →
    trace s' = pre ++ [EvConnect c cfg (Some e); EvLogError what] ++ tl →
    throw_cause tl e s'
| cause_cold_start errnum what pre c cfg :
    e = ConnectionFailed errnum what →
    was_successful (this s') = false →
    trace s' = pre ++ [EvConnect c cfg (Some e); EvLogError what] ++ tl →
    throw_cause tl e s'
| cause_cancelled :
    e = PocoException cancelled_msg →
    isCancelled (world s') = true →
    throw_cause tl e s'
| cause_connect pre c cfg :
    (∀ errnum what, e ≠ ConnectionFailed errnum what) →
    trace s' = pre ++ [EvConnect c cfg (Some e)] ++ tl →
    throw_cause tl e s'
| cause_init_statement pre c q :
    trace s' = pre ++ [EvExecute c q (Some e)] ++ tl →
    throw_cause tl e s'
| cause_config :
    e = NotFoundException →
    Initialized (this s') = false →
    throw_cause tl e s'.

End Causes.

Definition is_connect (ev : event) : bool :=
  match ev with EvConnect _ _ _ => true | _ => false end.

Definition is_connected (ev : event) : bool :=
  match ev with EvConnect _ _ None => true | _ => false end.

Definition is_sleep (seconds : Z) (ev : event) : bool :=
  match ev with EvSleep n => (n =? seconds)%Z | _ => false end.

Fixpoint count_events (f : event → bool) (evs : list event) : nat :=
  match evs with
  | [] => 0
  | ev :: evs' => (if f ev then 1 else 0) + count_events f evs'
  end.

(** The slot list is no longer than [MaxConnections]. *)
Definition within_capacity {W} (s : State W) : Prop :=
  (Z.of_nat (length (Connections (this s))) ≤ MaxConnections (this s))%Z.

(** *** Vocabulary of the further properties *)

(** Code all of whose outcomes are related to the state it starts in. *)
Definition respects {W A} (R : State W → State W → Prop) (m : M W A) : Prop :=
  ∀ s, outcome (m s) (λ _ s', R s s') (λ _ s', R s s').

(** The slots of [s] are still there in [s'], untouched, in the same
    places; [s'] may have more at the end. *)
Definition appends {W} (s s' : State W) : Prop :=
  Connections (this s) `prefix_of` Connections (this s').

(** The connection objects deleted so far, oldest first. *)
Fixpoint deleted (evs : list event) : list Session :=
  match evs with
  | [] => []
  | EvDelete c :: evs' => c :: deleted evs'
  | _ :: evs' => deleted evs'
  end.

(** The connection objects of the slots. *)
Definition sessions {W} (s : State W) : list Session :=
  conn <$> Connections (this s).

(** Connection objects are told apart: the slots hold different ones, all
    made before [next_conn]; no object was deleted twice, and none of the
    deleted ones is in a slot. *)
Record tidy {W} (s : State W) : Prop := mkTidy {
  tidy_sessions : NoDup (sessions s ++ deleted (trace s));
  tidy_made : ∀ c, c ∈ sessions s ++ deleted (trace s) → c < next_conn s
}.

(** The events of one back-off of [Get], [n] times over. *)
Fixpoint backoffs (n : nat) : list event :=
  match n with
  | O => []
  | S n' => [EvUnlock; EvYield; EvSleep 10; EvLock] ++ backoffs n'
  end.

(** The calls into the driver among the events. *)
Definition is_driver_call (ev : event) : bool :=
  match ev with
  | EvConnect _ _ _ | EvPing _ _ | EvExecute _ _ _ => true
  | _ => false
  end.

(** Only the world and the trace have changed, and nothing was deleted. *)
Definition untouched {W} (s s' : State W) : Prop :=
  this s' = this s ∧ next_conn s' = next_conn s ∧
  deleted (trace s') = deleted (trace s).

(** [tidy] is kept. *)
Definition stays_tidy {W} (s s' : State W) : Prop := tidy s → tidy s'.

(** Slot [i] was taken by a new handle between [s] and [s']: if it was there
    it was idle, it is now held once, and every other slot of [s] is as it
    was. *)
Definition acquired {W} (i : nat) (s s' : State W) : Prop :=
  (∀ c, Connections (this s) !! i = Some c → ref_count c = 0%Z) ∧
  (∃ c', Connections (this s') !! i = Some c' ∧ ref_count c' = 1%Z) ∧
  (∀ j c, j ≠ i → Connections (this s) !! j = Some c →
          Connections (this s') !! j = Some c).

(** Slots were only appended and [Initialized] is as it was. *)
Definition appends_only {W} (s s' : State W) : Prop :=
  appends s s' ∧ Initialized (this s') = Initialized (this s).

Definition is_wait (ev : event) : bool :=
  match ev with EvSleep _ | EvYield => true | _ => false end.

Definition is_ping (ev : event) : bool :=
  match ev with EvPing _ _ => true | _ => false end.

Definition is_mutex (ev : event) : bool :=
  match ev with EvLock | EvUnlock => true | _ => false end.

(** What [tryGet] may trace between taking the mutex and giving it back: no
    sleep, no yield, no mutex operation, and one [connect] or one [ping] at
    most. *)
Definition quick (evs : list event) : Prop :=
  count_events is_wait evs = 0 ∧
  count_events is_mutex evs = 0 ∧
  count_events is_connect evs + count_events is_ping evs ≤ 1.


(** The world after the driver has answered [k] rounds of the reconnect loop
    with a [connect] that returns and a [ping] that is dead; [None] when it
    answers one of them otherwise. *)
Fixpoint dead_rounds {W} {D : Driver W} (cfg : string) (c : Session)
    (k : nat) (w : W) : option W :=
  match k with
  | O => Some w
  | S k' =>
      match conn_connect cfg c w with
      | (None, w1) =>
          match conn_ping c w1 with
          | (false, w2) => dead_rounds cfg c k' w2
          | (true, _) => None
          end
      | (Some _, _) => None
      end
  end.

(** The reconnect loop when the first [failed] rounds end in a dead [ping]
    and the [connect] of the next one throws [e]. *)
Fixpoint refused_events (desc cfg : string) (c : Session) (failed : nat)
    (e : exn) : list event :=
  match failed with
  | O =>
      [EvLogInformation ("MYSQL: Reconnecting to " +:+ desc);
       EvConnect c cfg (Some e)]
  | S k =>
      [EvLogInformation ("MYSQL: Reconnecting to " +:+ desc);
       EvConnect c cfg None; EvPing c false; EvSleep 5]
      ++ refused_events desc cfg c k e
  end.

(** * Reference counts of handles *)

Section RefCounts.

Lemma to_int_is_int n : is_int (to_int n).
Proof.
  unfold is_int, to_int, INT_MIN, INT_MAX.
  pose proof (Z.mod_pos_bound (n + 2 ^ 31) (2 ^ 32)). lia.
Qed.

Lemma to_int_id n : is_int n → to_int n = n.
Proof.
  unfold is_int, to_int, INT_MIN, INT_MAX. intros Hn.
  rewrite Z.mod_small by lia. lia.
Qed.

Lemma to_int_add_l a b : to_int (to_int a + b) = to_int (a + b).
Proof.
  unfold to_int. f_equal.
  replace ((a + 2 ^ 31) mod 2 ^ 32 - 2 ^ 31 + b + 2 ^ 31)%Z
    with ((a + 2 ^ 31) mod 2 ^ 32 + b)%Z by lia.
  rewrite Zplus_mod_idemp_l. f_equal. lia.
Qed.

Lemma to_int_sub_l a b : to_int (to_int a - b) = to_int (a - b).
Proof. apply (to_int_add_l a (- b)). Qed.

Lemma is_int_0 : is_int 0.
Proof. unfold is_int, INT_MIN, INT_MAX. lia. Qed.

Lemma is_int_1 : is_int 1.
Proof. unfold is_int, INT_MIN, INT_MAX. lia. Qed.

Lemma add_ref_lookup d i cs p c' :
  add_ref d i cs !! p = Some c' →
  ∃ c, cs !! p = Some c ∧ conn c' = conn c ∧
       ref_count c'
       = if decide (i = p) then to_int (ref_count c + d) else ref_count c.
Proof.
  unfold add_ref. intros Hl. destruct (decide (i = p)) as [->|Hne].
  - rewrite list_lookup_alter_eq in Hl.
    destruct (cs !! p) as [c|]; simplify_eq/=. eauto.
  - rewrite list_lookup_alter_ne in Hl by done.
    exists c'. by split_and!.
Qed.

Lemma add_ref_lookup_eq d i cs c :
  cs !! i = Some c →
  add_ref d i cs !! i = Some (mkConnection (conn c) (to_int (ref_count c + d))).
Proof. intros Hl. unfold add_ref. by rewrite list_lookup_alter_eq, Hl. Qed.

Lemma add_ref_length d i cs : length (add_ref d i cs) = length cs.
Proof. apply length_alter. Qed.

(** A step up and the same step down give the count back, as long as it was
    an [int] to begin with. *)
Lemma add_ref_add_ref d d' i cs :
  (∀ c, cs !! i = Some c → is_int (ref_count c)) →
  (d + d' = 0)%Z →
  add_ref d' i (add_ref d i cs) = cs.
Proof.
  intros Hint Hd. unfold add_ref. rewrite list_alter_alter_eq.
  apply list_eq. intros j. destruct (decide (i = j)) as [->|Hne].
  - rewrite list_lookup_alter_eq.
    destruct (cs !! j) as [[c r]|] eqn:Hl; simpl; [|done].
    rewrite to_int_add_l.
    replace (r + d + d')%Z with r by lia.
    by rewrite (to_int_id r (Hint _ eq_refl)).
  - by rewrite list_lookup_alter_ne.
Qed.

Lemma add_ref_cancel d i cs :
  (∀ c, cs !! i = Some c → is_int (ref_count c)) →
  add_ref (- d) i (add_ref d i cs) = cs.
Proof. intros Hint. apply add_ref_add_ref; [done|lia]. Qed.

Lemma add_ref_cancel' d i cs :
  (∀ c, cs !! i = Some c → is_int (ref_count c)) →
  add_ref d i (add_ref (- d) i cs) = cs.
Proof. intros Hint. apply add_ref_add_ref; [done|lia]. Qed.

Lemma add_ref_is_int d i cs c :
  add_ref d i cs !! i = Some c → is_int (ref_count c).
Proof.
  intros Hl. apply add_ref_lookup in Hl as (c0 & _ & _ & ->).
  rewrite decide_True by done. apply to_int_is_int.
Qed.

Lemma incr_decr d cs :
  (∀ i c, d = Some i → cs !! i = Some c → is_int (ref_count c)) →
  incr_if d (decr_if d cs) = cs.
Proof.
  destruct d as [i|]; simpl; [|done].
  intros Hint. apply (add_ref_cancel' 1). eauto.
Qed.

Lemma decr_incr d cs :
  (∀ i c, d = Some i → cs !! i = Some c → is_int (ref_count c)) →
  decr_if d (incr_if d cs) = cs.
Proof.
  destruct d as [i|]; simpl; [|done].
  intros Hint. apply (add_ref_cancel 1). eauto.
Qed.

Lemma live_handles_app p hs hs' :
  live_handles p (hs ++ hs') = (live_handles p hs + live_handles p hs')%Z.
Proof. induction hs as [|h hs IH]; simpl; [done|]. rewrite IH. lia. Qed.

Lemma live_handles_insert p hs h old new :
  hs !! h = Some old →
  live_handles p (<[h := new]> hs)
  = (live_handles p hs - weight p old + weight p new)%Z.
Proof.
  revert h. induction hs as [|x hs IH]; intros [|h] Hl; simplify_eq/=.
  - unfold weight. lia.
  - rewrite (IH h) by done. lia.
Qed.

Lemma live_handles_nonneg p hs : (0 ≤ live_handles p hs)%Z.
Proof. induction hs as [|h hs IH]; simpl; [done|]. destruct (refers_to p h); lia. Qed.

Lemma live_handles_zero p hs :
  live_handles p hs = 0%Z ↔
  ∀ h e, hs !! h = Some (Some e) → data e ≠ Some p.
Proof.
  induction hs as [|x hs IH]; simpl.
  - split; [intros _ h e Hl; by destruct h|done].
  - pose proof (live_handles_nonneg p hs) as Hnn. split.
    + intros Hz [|h] e Hl; simplify_eq/=.
      * intros Hd. rewrite bool_decide_eq_true_2 in Hz by done. lia.
      * apply (proj1 IH) with h; [|done]. destruct (refers_to p x); lia.
    + intros Hall.
      assert (refers_to p x = false) as ->.
      { destruct x as [e|]; simpl; [|done].
        apply bool_decide_eq_false_2. by apply (Hall O). }
      rewrite (proj2 IH); [done|]. intros h e Hl. by apply (Hall (S h)).
Qed.

Lemma weight_Some p e :
  weight p (Some e) = if decide (data e = Some p) then 1%Z else 0%Z.
Proof. unfold weight; simpl. case_bool_decide; by case_decide. Qed.

Lemma incr_if_lookup d cs p c' :
  incr_if d cs !! p = Some c' →
  ∃ c, cs !! p = Some c ∧
       (is_int (ref_count c) →
        ref_count c'
        = to_int (ref_count c + weight p (Some (mkEntry d this_pool)))).
Proof.
  rewrite weight_Some; simpl. destruct d as [i|]; simpl; intros Hl.
  - apply add_ref_lookup in Hl as (c & ? & ? & Hr). exists c. split; [done|].
    intros Hint. rewrite Hr.
    repeat case_decide; simplify_eq; [done|].
    by rewrite Z.add_0_r, to_int_id.
  - exists c'. split; [done|]. intros Hint.
    by rewrite Z.add_0_r, to_int_id.
Qed.

Lemma decr_if_lookup d cs p c' :
  decr_if d cs !! p = Some c' →
  ∃ c, cs !! p = Some c ∧
       (is_int (ref_count c) →
        ref_count c'
        = to_int (ref_count c - weight p (Some (mkEntry d this_pool)))).
Proof.
  rewrite weight_Some; simpl. destruct d as [i|]; simpl; intros Hl.
  - apply add_ref_lookup in Hl as (c & ? & ? & Hr). exists c. split; [done|].
    intros Hint. rewrite Hr.
    repeat case_decide; simplify_eq; [done|].
    by rewrite Z.sub_0_r, to_int_id.
  - exists c'. split; [done|]. intros Hint.
    by rewrite Z.sub_0_r, to_int_id.
Qed.

Lemma weight_data p e pl :
  weight p (Some (mkEntry (data e) pl)) = weight p (Some e).
Proof. by rewrite !weight_Some. Qed.

Ltac weigh :=
  unfold weight, refers_to; simpl;
  repeat case_bool_decide; repeat case_decide; simplify_eq/=; try done; lia.

Lemma live_Some hp h e : live hp h = Some e → handles hp !! h = Some (Some e).
Proof.
  unfold live. destruct (handles hp !! h) as [[e'|]|]; naive_solver.
Qed.

Lemma conserved_is_int hp p c :
  conserved hp → slots hp !! p = Some c → is_int (ref_count c).
Proof. intros Hinv Hl. rewrite (Hinv p c Hl). apply to_int_is_int. Qed.

Lemma handle_step_conserved op hp hp' :
  conserved hp → handle_step op hp = Some hp' → conserved hp'.
Proof.
  intros Hinv Hstep p c' Hl. destruct op as [|c pl|src|dst src|h]; simpl in *.
  - simplify_eq/=. rewrite live_handles_app; simpl.
    rewrite (Hinv p c') by done. apply (f_equal to_int). lia.
  - simplify_eq/=. rewrite live_handles_app; simpl.
    apply incr_if_lookup in Hl as (c0 & Hl & Hr).
    rewrite Hr by by eapply conserved_is_int.
    rewrite (Hinv p c0), to_int_add_l by done. apply (f_equal to_int). weigh.
  - destruct (live hp src) as [s|] eqn:Hs; simplify_eq/=.
    rewrite live_handles_app; simpl.
    apply incr_if_lookup in Hl as (c0 & Hl & Hr).
    rewrite Hr by by eapply conserved_is_int.
    rewrite (Hinv p c0), to_int_add_l by done. apply (f_equal to_int). weigh.
  - unfold Entry_assign in Hstep.
    destruct (live hp dst) as [d0|] eqn:Hd; [|done].
    destruct (live hp src) as [s0|] eqn:Hs; [|done].
    apply live_Some in Hd as Hd'. apply live_Some in Hs as Hs'.
    assert (dst < length (handles hp)) as Hlt by by eapply lookup_lt_Some.
    unfold live in Hstep; simpl in Hstep.
    rewrite list_lookup_insert_eq in Hstep by done.
    destruct (decide (dst = src)) as [->|Hne].
    + rewrite list_lookup_insert_eq in Hstep by done. simplify_eq/=.
      rewrite list_insert_insert_eq.
      apply incr_if_lookup in Hl as (c1 & Hl & Hr1).
      apply decr_if_lookup in Hl as (c0 & Hl & Hr0).
      specialize (Hr0 (conserved_is_int _ _ _ Hinv Hl)).
      rewrite Hr1 by (rewrite Hr0; apply to_int_is_int).
      rewrite Hr0, (Hinv p c0), to_int_sub_l, to_int_add_l by done.
      rewrite (live_handles_insert p _ _ (Some d0)) by done.
      apply (f_equal to_int). weigh.
    + rewrite list_lookup_insert_ne in Hstep by done. rewrite Hs' in Hstep.
      simplify_eq/=. rewrite list_insert_insert_eq.
      apply incr_if_lookup in Hl as (c1 & Hl & Hr1).
      apply decr_if_lookup in Hl as (c0 & Hl & Hr0).
      specialize (Hr0 (conserved_is_int _ _ _ Hinv Hl)).
      rewrite Hr1 by (rewrite Hr0; apply to_int_is_int).
      rewrite Hr0, (Hinv p c0), to_int_sub_l, to_int_add_l by done.
      rewrite (live_handles_insert p _ _ (Some d0)) by done.
      apply (f_equal to_int). weigh.
  - destruct (live hp h) as [e|] eqn:He; simplify_eq/=.
    apply live_Some in He.
    unfold Entry_dtor in Hl. apply decr_if_lookup in Hl as (c0 & Hl & Hr).
    rewrite Hr by by eapply conserved_is_int.
    rewrite (Hinv p c0), to_int_sub_l by done.
    rewrite (live_handles_insert p _ _ (Some e)) by done.
    apply (f_equal to_int). weigh.
Qed.

Lemma handle_run_conserved ops hp hp' :
  conserved hp → handle_run ops hp = Some hp' → conserved hp'.
Proof.
  revert hp. induction ops as [|op ops IH]; intros hp Hinv Hrun; simpl in *.
  - by simplify_eq.
  - destruct (handle_step op hp) as [hp1|] eqn:Hstep; [|done].
    eapply IH; [|done]. by eapply handle_step_conserved.
Qed.

Lemma incr_if_length d cs : length (incr_if d cs) = length cs.
Proof. destruct d; simpl; [apply add_ref_length|done]. Qed.

Lemma decr_if_length d cs : length (decr_if d cs) = length cs.
Proof. destruct d; simpl; [apply add_ref_length|done]. Qed.

Lemma handle_step_length op hp hp' :
  handle_step op hp = Some hp' → length (slots hp') = length (slots hp).
Proof.
  destruct op as [|c pl|src|dst src|h]; simpl; intros Hstep.
  - by simplify_eq/=.
  - simplify_eq/=. apply incr_if_length.
  - destruct (live hp src) as [s|]; simplify_eq/=. apply incr_if_length.
  - unfold Entry_assign in Hstep.
    repeat (case_match; simplify_eq/=).
    by rewrite incr_if_length, decr_if_length.
  - destruct (live hp h) as [e|]; simplify_eq/=. apply decr_if_length.
Qed.

Lemma handle_run_length ops hp hp' :
  handle_run ops hp = Some hp' → length (slots hp') = length (slots hp).
Proof.
  revert hp. induction ops as [|op ops IH]; intros hp Hrun; simpl in *.
  - by simplify_eq.
  - destruct (handle_step op hp) as [hp1|] eqn:Hstep; [|done].
    rewrite (IH hp1) by done. by eapply handle_step_length.
Qed.

(** [n] copies of handle 0. *)
Lemma copies_run n cs hs e :
  hs !! 0 = Some (Some e) →
  ∃ cs', handle_run (repeat (OpCopy 0) n) (mkHeap cs hs)
         = Some (mkHeap cs' (hs ++ repeat (Some e) n)).
Proof.
  destruct e as [d pl].
  revert cs hs. induction n as [|n IH]; intros cs hs Hl; simpl.
  - exists cs. by rewrite app_nil_r.
  - unfold live; simpl. rewrite Hl; simpl.
    destruct (IH (incr_if d cs) (hs ++ [Some (mkEntry d pl)])) as (cs' & ->).
    { by rewrite lookup_app_l by by eapply lookup_lt_Some. }
    exists cs'. by rewrite <- app_assoc.
Qed.

Lemma live_handles_repeat p e n :
  data e = Some p → live_handles p (repeat (Some e) n) = Z.of_nat n.
Proof.
  intros Hd. induction n as [|n IH]; [done|].
  cbn [repeat live_handles refers_to]. rewrite IH.
  rewrite bool_decide_eq_true_2 by done. lia.
Qed.

(** A first handle on slot 0 and [n] copies of it. *)
Lemma copies_live n cs :
  Forall (λ c, ref_count c = 0%Z) cs →
  0 < length cs →
  ∃ hp c,
    handle_run (OpCtor (Some 0) this_pool :: repeat (OpCopy 0) n)
               (mkHeap cs []) = Some hp ∧
    slots hp !! 0 = Some c ∧
    live_handles 0 (handles hp) = (1 + Z.of_nat n)%Z ∧
    ref_count c = to_int (1 + Z.of_nat n).
Proof.
  intros Hzero Hlen.
  destruct (copies_run n (incr_if (Some 0) cs)
              [Some (mkEntry (Some 0) this_pool)]
              (mkEntry (Some 0) this_pool) eq_refl) as (cs' & Hrun).
  assert (conserved (mkHeap cs' ([Some (mkEntry (Some 0) this_pool)]
                       ++ repeat (Some (mkEntry (Some 0) this_pool)) n)))
    as Hinv.
  { eapply (handle_run_conserved
              (OpCtor (Some 0) this_pool :: repeat (OpCopy 0) n)
              (mkHeap cs [])); [|exact Hrun].
    intros q c0 Hq; simpl in *.
    rewrite Forall_lookup in Hzero. by rewrite (Hzero q c0 Hq). }
  assert (length cs' = length cs) as Hlen'.
  { apply (handle_run_length
             (OpCtor (Some 0) this_pool :: repeat (OpCopy 0) n)
             (mkHeap cs []) (mkHeap cs' _) Hrun). }
  destruct (lookup_lt_is_Some_2 cs' 0) as [c Hc]; [lia|].
  eexists _, c. split; [exact Hrun|]. split; [exact Hc|].
  assert (live_handles 0 ([Some (mkEntry (Some 0) this_pool)]
            ++ repeat (Some (mkEntry (Some 0) this_pool)) n)
          = (1 + Z.of_nat n)%Z) as Hlive.
  { rewrite live_handles_app, live_handles_repeat by done. done. }
  split; [exact Hlive|]. rewrite (Hinv 0 c Hc).
  exact (f_equal to_int Hlive).
Qed.

(** [h = h] changes nothing. *)
Lemma Entry_assign_self h hp e :
  live hp h = Some e →
  (∀ p c, slots hp !! p = Some c → is_int (ref_count c)) →
  Entry_assign h h hp = Some hp.
Proof.
  intros He Hint. unfold Entry_assign. rewrite He.
  apply live_Some in He as He'.
  assert (h < length (handles hp)) as Hlt by by eapply lookup_lt_Some.
  unfold live; simpl. rewrite list_lookup_insert_eq by done. simpl.
  rewrite list_insert_insert_eq, incr_decr by eauto.
  destruct hp as [cs hs], e as [d pl]; simpl in *.
  do 2 f_equal. by apply list_insert_id.
Qed.

End RefCounts.

(** * Pool code, step by step *)

Create HintDb pool_code.

#[global] Hint Unfold bind ret throw emit get_pool modify_pool
  catch_ConnectionFailed new_Connection delete_Connection Connection_connect
  Connection_ping Query_execute Daemon_isCancelled afterConnect
  AllocConnection after_connect grown rethrown traced : pool_code.

Ltac run := repeat (progress (autounfold with pool_code; simpl)).

Lemma bind_Ret {W A B} (m : M W A) (k : A → M W B) s a s1 :
  m s = Ret a s1 → bind m k s = k a s1.
Proof. unfold bind. by intros ->. Qed.

Lemma bind_Throw {W A B} (m : M W A) (k : A → M W B) s e s1 :
  m s = Throw e s1 → bind m k s = Throw e s1.
Proof. unfold bind. by intros ->. Qed.

Lemma bind_Ret_inv {W A B} (m : M W A) (k : A → M W B) s b s' :
  bind m k s = Ret b s' → ∃ a s1, m s = Ret a s1 ∧ k a s1 = Ret b s'.
Proof. unfold bind. destruct (m s); naive_solver. Qed.

Lemma bind_Throw_inv {W A B} (m : M W A) (k : A → M W B) s e s' :
  bind m k s = Throw e s' →
  m s = Throw e s' ∨ ∃ a s1, m s = Ret a s1 ∧ k a s1 = Throw e s'.
Proof. unfold bind. destruct (m s); naive_solver. Qed.

(** Follow a run that returned through its first [bind]. *)
Ltac step H :=
  let Hs := fresh "Hstep" in
  let Hk := fresh "Hk" in
  apply bind_Ret_inv in H; destruct H as (? & ? & Hs & Hk);
  rewrite (bind_Ret _ _ _ _ _ Hs); clear Hs; rename Hk into H.

Lemma idle_is_int cs i c :
  find_idle cs = Some i → cs !! i = Some c → is_int (ref_count c).
Proof.
  revert i. induction cs as [|c0 cs IH]; intros i Hf Hl; simpl in *; [done|].
  destruct (ref_count c0 =? 0)%Z eqn:Hz.
  - simplify_eq/=. replace (ref_count c) with 0%Z by lia. apply is_int_0.
  - destruct (find_idle cs) as [j|]; simplify_eq/=. by eapply IH.
Qed.

(** Side conditions of the cancellation lemmas. *)
Ltac ints :=
  let c := fresh "c" in
  let Hc := fresh "Hc" in
  intros c Hc;
  first [ by eapply add_ref_is_int
        | by eapply idle_is_int
        | simplify_eq/=;
          match goal with
          | H : ref_count _ = _ |- _ => rewrite H
          end;
          first [ apply is_int_0 | apply is_int_1 ] ].

Section Reasoning.
Context {W : Type} {D : Driver W}.
Implicit Types s : State W.

Lemma String_eqb_empty (q : string) :
  String.eqb q "" = true ↔ q = "".
Proof. apply String.eqb_eq. Qed.

Lemma AllocConnection_outcome b s : alloc_outcome b s (AllocConnection b s).
Proof.
  destruct (conn_connect (config_name (this s)) (next_conn s) (world s))
    as [[e|] w] eqn:Hc.
  - assert ((∃ errnum what, e = ConnectionFailed errnum what)
            ∨ (∀ errnum what, e ≠ ConnectionFailed errnum what))
      as [(errnum & what & ->)|Hother] by (destruct e; eauto).
    + destruct (rethrown b (this s) errnum) eqn:Hr.
      * replace (AllocConnection b s) with (@Throw W (option nat)
          (ConnectionFailed errnum what)
          (after_connect (this s) s (Some (ConnectionFailed errnum what)) w
             [EvLogError what])).
        { by apply alloc_rethrow. }
        run.
        rewrite Hc; simpl. unfold rethrown in Hr. rewrite Hr; run.
        by rewrite <- !app_assoc.
      * destruct (isCancelled w) eqn:Hcan.
        -- replace (AllocConnection b s) with (@Throw W (option nat)
             (PocoException cancelled_msg)
             (after_connect (this s) s (Some (ConnectionFailed errnum what)) w
                [EvLogError what; EvDelete (next_conn s)])).
           { by apply alloc_cancelled. }
           run.
           rewrite Hc; simpl. unfold rethrown in Hr. rewrite Hr; run.
           rewrite Hcan. by rewrite <- !app_assoc.
        -- replace (AllocConnection b s) with (@Ret W (option nat) None
             (after_connect (this s) s (Some (ConnectionFailed errnum what)) w
                [EvLogError what; EvDelete (next_conn s)])).
           { by apply alloc_transient. }
           run.
           rewrite Hc; simpl. unfold rethrown in Hr. rewrite Hr; run.
           rewrite Hcan. by rewrite <- !app_assoc.
    + replace (AllocConnection b s) with (@Throw W (option nat) e
        (after_connect (this s) s (Some e) w [])).
      { by apply alloc_other. }
      run.
      rewrite Hc; simpl. rewrite <- !app_assoc.
      destruct e; try done. by destruct (Hother errnum what).
  - destruct (decide (InitConnect (this s) = "")) as [Hq|Hq].
    + replace (AllocConnection b s) with (@Ret W (option nat)
        (Some (length (Connections (this s))))
        (after_connect (grown (next_conn s) (this s)) s None w [])).
      { by apply alloc_plain. }
      run.
      rewrite Hc; run. rewrite Hq; run. by rewrite <- !app_assoc.
    + assert (String.eqb (InitConnect (this s)) "" = false) as Hq'.
      { apply not_true_is_false. by rewrite String_eqb_empty. }
      destruct (query_execute (InitConnect (this s)) (next_conn s) w)
        as [[e|] w'] eqn:Hx.
      * replace (AllocConnection b s) with (@Throw W (option nat) e
          (after_connect (set_was_successful true (this s)) s None w'
             [EvLogTrace (InitConnect (this s));
              EvExecute (next_conn s) (InitConnect (this s)) (Some e)])).
        { by eapply alloc_init_failed. }
        run.
        rewrite Hc; run. rewrite Hq'; run. rewrite Hx; run.
        by rewrite <- !app_assoc.
      * replace (AllocConnection b s) with (@Ret W (option nat)
          (Some (length (Connections (this s))))
          (after_connect (grown (next_conn s) (this s)) s None w'
             [EvLogTrace (InitConnect (this s));
              EvExecute (next_conn s) (InitConnect (this s)) None])).
        { by eapply alloc_init. }
        run.
        rewrite Hc; run. rewrite Hq'; run. rewrite Hx; run.
        by rewrite <- !app_assoc.
Qed.

(** *** Every outcome is a change that [evolves] allows *)

Lemma evolves_refl s : evolves s s.
Proof. split; eauto. Qed.

Lemma evolves_trans s1 s2 s3 : evolves s1 s2 → evolves s2 s3 → evolves s1 s3.
Proof.
  intros [] []. split; try congruence; eauto.
  - intros Hi. rewrite ev_description1 by eauto. eauto.
  - intros i c Hl. destruct (ev_Connections0 i c Hl) as (c' & Hl' & Hc').
    destruct (ev_Connections1 i c' Hl') as (c'' & Hl'' & Hc'').
    exists c''. split; [done|congruence].
  - by etrans.
  - lia.
Qed.

Lemma evolves_traced evs s : evolves s (traced evs s).
Proof. split; simpl; eauto. by apply prefix_app_r. Qed.

Lemma outcome_bind {A B} (m : M W A) (k : A → M W B) s Q E :
  outcome (m s) (λ a s1, outcome (k a s1) Q E) E →
  outcome (bind m k s) Q E.
Proof. unfold bind. by destruct (m s). Qed.

Lemma outcome_weaken {A} (r : Res W A) (Q Q' : A → State W → Prop)
    (E E' : exn → State W → Prop) :
  outcome r Q E → (∀ a s', Q a s' → Q' a s') → (∀ e s', E e s' → E' e s') →
  outcome r Q' E'.
Proof. destruct r; simpl; eauto. Qed.

Lemma steady_from {A} (m : M W A) s0 s :
  steady m → evolves s0 s →
  outcome (m s) (λ _ s', evolves s0 s') (λ _ s', evolves s0 s').
Proof.
  intros Hm Hs. eapply outcome_weaken; [apply (Hm s)|..];
    simpl; eauto using evolves_trans.
Qed.

Lemma steady_ret {A} (a : A) : steady (ret a : M W A).
Proof. intros s. apply evolves_refl. Qed.

Lemma steady_throw {A} e : steady (throw e : M W A).
Proof. intros s. apply evolves_refl. Qed.

Lemma steady_emit ev : steady (emit ev : M W unit).
Proof. intros s. apply (evolves_traced [ev]). Qed.

Lemma steady_bind {A B} (m : M W A) (k : A → M W B) :
  steady m → (∀ a, steady (k a)) → steady (bind m k).
Proof.
  intros Hm Hk s. apply outcome_bind.
  eapply outcome_weaken; [apply (Hm s)|..]; simpl; [|done].
  intros a s1 Hs1. by apply steady_from.
Qed.

Lemma steady_ScopedLock {A} (m : M W A) : steady m → steady (ScopedLock m).
Proof.
  intros Hm. unfold ScopedLock. apply steady_bind; [apply steady_emit|].
  intros _ s. specialize (Hm s). destruct (m s); simpl in *; try done.
  - eapply evolves_trans; [done|]. apply (evolves_traced [EvUnlock]).
  - eapply evolves_trans; [done|]. apply (evolves_traced [EvUnlock]).
Qed.

Lemma steady_for_loop {A} n (body : M W A) :
  steady body → steady (for_loop n body).
Proof.
  intros Hb. induction n as [|n IH]; simpl.
  - apply steady_ret.
  - by apply steady_bind.
Qed.

Lemma steady_Connection_ping c : steady (Connection_ping c).
Proof.
  intros s. unfold Connection_ping.
  destruct (conn_ping c (world s)) as [alive w]; simpl.
  split; simpl; eauto. by apply prefix_app_r.
Qed.

Lemma steady_Connection_connect c cfg : steady (Connection_connect c cfg).
Proof.
  intros s. unfold Connection_connect.
  destruct (conn_connect cfg c (world s)) as [[e|] w]; simpl;
    (split; simpl; eauto; by apply prefix_app_r).
Qed.

Lemma steady_Query_execute c q : steady (Query_execute c q).
Proof.
  intros s. unfold Query_execute.
  destruct (query_execute q c (world s)) as [[e|] w]; simpl;
    (split; simpl; eauto; by apply prefix_app_r).
Qed.

Lemma steady_afterConnect c : steady (afterConnect c).
Proof.
  intros s. unfold afterConnect, bind, get_pool.
  destruct (negb (String.eqb (InitConnect (this s)) "")).
  - apply (steady_bind (emit _) (λ _, Query_execute _ _));
      auto using steady_emit, steady_Query_execute.
  - apply evolves_refl.
Qed.

Lemma steady_data_conn e : steady (data_conn e : M W Session).
Proof.
  intros s. unfold data_conn. destruct (data e) as [i|]; [|done].
  unfold bind, get_pool. destruct (Connections (this s) !! i); [|done].
  apply evolves_refl.
Qed.

Lemma add_ref_keeps d j cs i c :
  cs !! i = Some c → ∃ c', add_ref d j cs !! i = Some c' ∧ conn c' = conn c.
Proof.
  intros Hl. unfold add_ref. destruct (decide (j = i)) as [->|Hne].
  - rewrite list_lookup_alter_eq, Hl; simpl. eauto.
  - rewrite list_lookup_alter_ne by done. eauto.
Qed.

Lemma steady_on_Connections {A} (f : list Connection → A * list Connection) :
  (∀ cs i c, cs !! i = Some c →
             ∃ c', (f cs).2 !! i = Some c' ∧ conn c' = conn c) →
  steady (on_Connections f : M W A).
Proof.
  intros Hf s. unfold on_Connections, bind, get_pool, modify_pool, ret.
  specialize (Hf (Connections (this s))).
  destruct (f (Connections (this s))) as [a cs]; simpl in *.
  split; simpl; eauto.
Qed.

Lemma steady_new_Entry c p : steady (new_Entry c p : M W Entry).
Proof.
  apply steady_on_Connections. intros cs i c0 Hl; simpl.
  destruct c; simpl; eauto using add_ref_keeps.
Qed.

Lemma steady_copy_Entry e : steady (copy_Entry e : M W Entry).
Proof.
  apply steady_on_Connections. intros cs i c0 Hl; simpl.
  destruct (data e); simpl; eauto using add_ref_keeps.
Qed.

Lemma steady_drop_Entry e : steady (drop_Entry e : M W unit).
Proof.
  apply steady_on_Connections. intros cs i c0 Hl; simpl.
  unfold Entry_dtor. destruct (data e); simpl; eauto using add_ref_keeps.
Qed.

Lemma alloc_outcome_evolves b s r :
  alloc_outcome b s r →
  outcome r (λ _ s', evolves s s') (λ _ s', evolves s s').
Proof.
  destruct 1; simpl; (split; simpl; eauto; try by apply prefix_app_r);
    intros i c Hl; exists c; (split; [|done]); by apply lookup_app_l_Some.
Qed.

Lemma steady_AllocConnection b : steady (AllocConnection b).
Proof. intros s. apply (alloc_outcome_evolves b), AllocConnection_outcome. Qed.

Lemma Initialize_done s :
  Initialized (this s) = true → Initialize s = Ret tt s.
Proof. intros Hi. unfold Initialize, bind, get_pool. by rewrite Hi. Qed.

Lemma Initialize_run s :
  Initialized (this s) = false →
  Initialize s =
  match composed (world s) (config_name (this s)) with
  | Some d =>
      (for_loop (Z.to_nat (DefaultConnections (this s))) (AllocConnection false) ;;
       modify_pool (set_Initialized true)) (described d s)
  | None => Throw NotFoundException s
  end.
Proof.
  intros Hi. unfold Initialize, composed, getString, getString_default.
  unfold bind at 1, get_pool. rewrite Hi; simpl.
  unfold bind at 1. unfold bind at 1.
  destruct (cfg_getString (world s) (config_name (this s) +:+ ".host"));
    [|done].
  unfold bind at 1.
  destruct (cfg_getString (world s) (config_name (this s) +:+ ".port"));
    [|done].
  unfold bind at 1.
  destruct (cfg_getString (world s) (config_name (this s) +:+ ".user"));
    [|done].
  done.
Qed.

Lemma steady_Initialize : steady Initialize.
Proof.
  intros s. destruct (Initialized (this s)) eqn:Hi.
  { rewrite Initialize_done by done. apply evolves_refl. }
  rewrite Initialize_run by done.
  destruct (composed _ _) as [d|]; [|apply evolves_refl].
  assert (evolves s (described d s)) as Hs1.
  { split; simpl; eauto; congruence. }
  apply outcome_bind.
  eapply outcome_weaken;
    [apply (steady_from (for_loop _ (AllocConnection false)) s (described d s));
     [apply steady_for_loop, steady_AllocConnection|done]|..]; simpl; [|done].
  intros _ s2 Hs2. eapply evolves_trans; [done|]. split; simpl; eauto.
Qed.

Lemma steady_Get_backoff : steady (Get_backoff : M W unit).
Proof.
  unfold Get_backoff.
  repeat (apply steady_bind; [apply steady_emit|intros _]). apply steady_emit.
Qed.

Lemma steady_Get_loop fuel : steady (Get_loop fuel).
Proof.
  induction fuel as [|fuel IH]; simpl; [done|].
  intros s. unfold bind at 1, get_pool.
  destruct (find_idle (Connections (this s))).
  { apply steady_new_Entry. }
  case_match.
  - apply (steady_bind (AllocConnection false)); [apply steady_AllocConnection|].
    intros [c|]; [apply steady_new_Entry|].
    apply steady_bind; [apply steady_Get_backoff|done].
  - apply (steady_bind Get_backoff); [apply steady_Get_backoff|done].
Qed.

(** Across any acquisition the policy stays, and [Initialized] and
    [was_successful] never go back to false. *)
Lemma steady_Get fuel : steady (Get fuel).
Proof.
  apply steady_ScopedLock, steady_bind;
    auto using steady_Initialize, steady_Get_loop.
Qed.

Lemma steady_tryGet_scan : steady tryGet_scan.
Proof.
  intros s. unfold tryGet_scan, bind at 1, get_pool.
  destruct (find_idle (Connections (this s))).
  - apply (steady_bind (new_Entry _ _)); [apply steady_new_Entry|].
    intros res. apply steady_bind.
    { apply steady_bind; [apply steady_data_conn|].
      intros c. apply steady_Connection_ping. }
    intros alive. apply steady_bind.
    { destruct alive; [apply steady_copy_Entry|apply steady_ret]. }
    intros r. apply steady_bind; [apply steady_drop_Entry|].
    intros _. apply steady_ret.
  - case_match; [apply steady_throw|].
    apply (steady_bind (AllocConnection true)); [apply steady_AllocConnection|].
    intros [c|]; [apply steady_new_Entry|apply steady_ret].
Qed.

Lemma steady_tryGet : steady tryGet.
Proof.
  apply steady_ScopedLock, steady_bind;
    auto using steady_Initialize, steady_tryGet_scan.
Qed.

Lemma steady_reconnect_loop fuel first c : steady (reconnect_loop fuel first c).
Proof.
  revert first. induction fuel as [|fuel IH]; intros first; simpl; [done|].
  apply steady_bind.
  { destruct first; [apply steady_ret|apply steady_emit]. }
  intros _ s. unfold bind at 1, get_pool.
  apply (steady_bind (emit _)); [apply steady_emit|].
  intros _. apply steady_bind; [apply steady_Connection_connect|].
  intros _. apply steady_bind; [apply steady_Connection_ping|].
  intros [|]; [apply steady_ret|apply IH].
Qed.

Lemma steady_ForceConnected fuel e : steady (ForceConnected fuel e).
Proof.
  apply steady_bind; [apply steady_data_conn|].
  intros c. apply steady_bind; [apply steady_Connection_ping|].
  intros [|]; [apply steady_ret|].
  apply steady_bind; [apply steady_reconnect_loop|].
  intros _. apply steady_afterConnect.
Qed.

Lemma steady_Entry_access fuel e : steady (Entry_access fuel e).
Proof.
  unfold Entry_access. destruct (data e) eqn:Hd; [|apply steady_throw].
  apply steady_bind; [apply steady_ForceConnected|].
  intros _. apply steady_data_conn.
Qed.

(** *** The scan for an idle slot *)

Lemma find_idle_Some cs i :
  find_idle cs = Some i →
  ∃ c, cs !! i = Some c ∧ ref_count c = 0%Z.
Proof.
  revert i. induction cs as [|c cs IH]; intros i Hf; simpl in *; [done|].
  destruct (ref_count c =? 0)%Z eqn:Hz.
  - simplify_eq. exists c. split; [done|lia].
  - destruct (find_idle cs) as [j|]; simplify_eq/=. by apply IH.
Qed.

Lemma find_idle_None cs :
  find_idle cs = None ↔ Forall (λ c, ref_count c ≠ 0%Z) cs.
Proof.
  induction cs as [|c cs IH]; simpl; [done|].
  destruct (ref_count c =? 0)%Z eqn:Hz.
  - split; [done|]. intros Hall. apply Forall_cons in Hall as [? _]. lia.
  - destruct (find_idle cs) as [j|]; simpl.
    + split; [done|]. intros Hall. apply Forall_cons in Hall as [_ Hall].
      by apply IH in Hall.
    + split; [|done]. intros _. apply Forall_cons. split; [lia|by apply IH].
Qed.

Lemma find_idle_first cs i j c :
  find_idle cs = Some i → j < i → cs !! j = Some c → ref_count c ≠ 0%Z.
Proof.
  revert i j. induction cs as [|c0 cs IH]; intros i j Hf Hlt Hl; simpl in *;
    [done|].
  destruct (ref_count c0 =? 0)%Z eqn:Hz; [simplify_eq; lia|].
  destruct (find_idle cs) as [i'|]; simplify_eq/=.
  destruct j as [|j]; simplify_eq/=; [lia|].
  eapply (IH i' j); [done|lia|done].
Qed.

(** Taking and giving back a reference leaves the slots as they were. *)
Lemma new_then_drop_Entry i (p : PoolPtr) s :
  (∀ c, Connections (this s) !! i = Some c → is_int (ref_count c)) →
  (res <- new_Entry (Some i) p ;; drop_Entry res) s = Ret tt s.
Proof.
  intros Hint. unfold new_Entry, drop_Entry, on_Connections. run.
  unfold Entry_dtor; simpl. rewrite (add_ref_cancel 1) by done.
  by destruct s as [[] ? ? ?].
Qed.

(** *** A [connect] that fails with [ConnectionFailed] *)

Lemma AllocConnection_failed b s errnum what w :
  conn_connect (config_name (this s)) (next_conn s) (world s)
  = (Some (ConnectionFailed errnum what), w) →
  AllocConnection b s =
  let failed := after_connect (this s) s (Some (ConnectionFailed errnum what)) w in
  if is_fatal errnum
  then Throw (ConnectionFailed errnum what) (failed [EvLogError what])
  else if negb (was_successful (this s)) && negb b
  then Throw (ConnectionFailed errnum what) (failed [EvLogError what])
  else if isCancelled w
  then Throw (PocoException cancelled_msg)
             (failed [EvLogError what; EvDelete (next_conn s)])
  else Ret None (failed [EvLogError what; EvDelete (next_conn s)]).
Proof.
  intros Hc. simpl.
  pose proof (AllocConnection_outcome b s) as Ho.
  inversion Ho as [n m w' Hc' Hr Heq|n m w' Hc' Hr Hcan Heq
                  |n m w' Hc' Hr Hcan Heq|e w' Hc' Hne Heq|w' Hc' _ Heq
                  |w' w'' Hc' _ _ Heq|e w' w'' Hc' _ _ Heq];
    rewrite Hc in Hc'; simplify_eq; unfold rethrown in *.
  - destruct (is_fatal _); [done|].
    rewrite orb_false_r in Hr. by rewrite Hr.
  - apply orb_false_iff in Hr as [-> ->]. by rewrite Hcan.
  - apply orb_false_iff in Hr as [-> ->]. by rewrite Hcan.
  - by destruct (Hne errnum what).
Qed.

(** *** [tryGet] and [Get] after [Initialize] *)

Lemma ScopedLock_run {A} (m : M W A) s :
  ScopedLock m s =
  match m (traced [EvLock] s) with
  | Ret a s' => Ret a (traced [EvUnlock] s')
  | Throw e s' => Throw e (traced [EvUnlock] s')
  | OutOfFuel => OutOfFuel
  | Undefined => Undefined
  end.
Proof.
  unfold ScopedLock, bind at 1, emit at 1; simpl.
  fold (traced [EvLock] s). by destruct (m (traced [EvLock] s)).
Qed.

Lemma set_Connections_same p : set_Connections (Connections p) p = p.
Proof. by destruct p. Qed.

Lemma set_Connections_twice cs cs' p :
  set_Connections cs (set_Connections cs' p) = set_Connections cs p.
Proof. done. Qed.

Lemma tryGet_full s s1 :
  Initialize (traced [EvLock] s) = Ret tt s1 →
  find_idle (Connections (this s1)) = None →
  (Z.of_nat (length (Connections (this s1))) >=? MaxConnections (this s1))%Z
  = true →
  tryGet s = Throw (PocoException pool_full_msg) (traced [EvUnlock] s1).
Proof.
  intros Hi Hf Hm. unfold tryGet. rewrite ScopedLock_run.
  unfold bind at 1. rewrite Hi. unfold tryGet_scan, bind at 1, get_pool.
  by rewrite Hf, Hm.
Qed.

Lemma tryGet_probe s s1 it c alive w :
  Initialize (traced [EvLock] s) = Ret tt s1 →
  find_idle (Connections (this s1)) = Some it →
  Connections (this s1) !! it = Some c →
  conn_ping (conn c) (world s1) = (alive, w) →
  tryGet s =
  Ret (if alive then mkEntry (Some it) this_pool else Entry_null)
      (mkState (this (if alive then held it s1 else s1)) w
               (trace s1 ++ [EvPing (conn c) alive; EvUnlock]) (next_conn s1)).
Proof.
  intros Hi Hf Hl Hp. unfold tryGet. rewrite ScopedLock_run.
  unfold bind at 1. rewrite Hi. unfold tryGet_scan, bind at 1, get_pool.
  rewrite Hf.
  unfold new_Entry, copy_Entry, drop_Entry, on_Connections,
    tryForceConnected, data_conn.
  run. rewrite (add_ref_lookup_eq _ _ _ _ Hl); run. rewrite Hp; simpl.
  destruct alive; run; unfold Entry_dtor; simpl.
  - rewrite (add_ref_cancel 1) by ints. by rewrite <- !app_assoc.
  - rewrite (add_ref_cancel 1), set_Connections_twice, set_Connections_same
      by ints.
    by rewrite <- !app_assoc.
Qed.


(** *** [ForceConnected] *)

Lemma last_ping_app c evs evs' :
  last_ping c (evs ++ evs') =
  match last_ping c evs' with
  | Some alive => Some alive
  | None => last_ping c evs
  end.
Proof.
  induction evs as [|ev evs IH]; simpl.
  - by destruct (last_ping c evs').
  - rewrite IH. by destruct (last_ping c evs').
Qed.

Lemma last_ping_reconnect_events desc cfg c k :
  last_ping c (reconnect_events desc cfg c k) = Some true.
Proof.
  induction k as [|k IH]; simpl.
  - by rewrite Nat.eqb_refl.
  - by rewrite IH.
Qed.

Lemma last_ping_init_events q c : last_ping c (init_events q c) = None.
Proof. unfold init_events. by destruct (String.eqb q ""). Qed.

Lemma afterConnect_Ret c s s' :
  afterConnect c s = Ret tt s' →
  this s' = this s ∧ next_conn s' = next_conn s ∧
  trace s' = trace s ++ init_events (InitConnect (this s)) c.
Proof.
  unfold afterConnect, init_events. run.
  destruct (String.eqb (InitConnect (this s)) ""); run.
  - intros; simplify_eq. by rewrite app_nil_r.
  - destruct (query_execute _ _ _) as [[e|] w]; intros; simplify_eq/=.
    by rewrite <- !app_assoc.
Qed.

Lemma afterConnect_Throw c s e s' :
  afterConnect c s = Throw e s' →
  this s' = this s ∧
  ∃ pre, trace s' = pre ++ [EvExecute c (InitConnect (this s)) (Some e)].
Proof.
  unfold afterConnect. run.
  destruct (String.eqb (InitConnect (this s)) ""); run; [done|].
  destruct (query_execute _ _ _) as [[e'|] w]; intros; simplify_eq/=.
  eauto.
Qed.

Lemma reconnect_loop_Ret fuel first c s s' :
  reconnect_loop fuel first c s = Ret tt s' →
  ∃ k, k < fuel ∧ this s' = this s ∧ next_conn s' = next_conn s ∧
       trace s' = trace s ++ (if first then [] else [EvSleep 5])
                  ++ reconnect_events (description (this s))
                       (config_name (this s)) c k.
Proof.
  revert first s. induction fuel as [|fuel IH]; intros first s; simpl; [done|].
  unfold bind at 1.
  set (s0 := if first then s else traced [EvSleep 5] s).
  assert ((if first then ret () else emit (EvSleep 5)) s = Ret tt s0) as ->
    by by destruct first.
  assert (this s0 = this s ∧ next_conn s0 = next_conn s ∧ world s0 = world s
          ∧ trace s0 = trace s ++ (if first then [] else [EvSleep 5]))
    as (Hp & Hn & Hw & Ht).
  { destruct first; simpl; by rewrite ?app_nil_r. }
  clearbody s0. run. rewrite Hp.
  destruct (conn_connect _ _ _) as [[e|] w]; simpl; [done|].
  destruct (conn_ping c w) as [[|] w'] eqn:Hping; simpl.
  - intros; simplify_eq/=. exists 0. split_and!; [lia|done..|].
    rewrite Ht. by rewrite <- !app_assoc.
  - intros Hrec. apply IH in Hrec as (k & Hk & Hp' & Hn' & Ht'); simpl in *.
    exists (S k). split_and!; [lia|congruence..|].
    rewrite Ht', Ht; simpl. by rewrite <- !app_assoc.
Qed.

Lemma reconnect_loop_Throw fuel first c s e s' :
  reconnect_loop fuel first c s = Throw e s' →
  this s' = this s ∧
  ∃ pre, trace s' = pre ++ [EvConnect c (config_name (this s)) (Some e)].
Proof.
  revert first s. induction fuel as [|fuel IH]; intros first s; simpl; [done|].
  unfold bind at 1.
  set (s0 := if first then s else traced [EvSleep 5] s).
  assert ((if first then ret () else emit (EvSleep 5)) s = Ret tt s0) as ->
    by by destruct first.
  assert (this s0 = this s) as Hp by by destruct first.
  clearbody s0. run. rewrite Hp.
  destruct (conn_connect _ _ _) as [[e'|] w]; simpl.
  { intros; simplify_eq/=. eauto. }
  destruct (conn_ping c w) as [[|] w'] eqn:Hping; simpl; [done|].
  intros Hrec. apply IH in Hrec as (Hp' & pre & Ht'); simpl in *.
  eauto.
Qed.

Lemma reconnect_loop_more_fuel fuel n first c s s' :
  reconnect_loop fuel first c s = Ret tt s' →
  reconnect_loop (fuel + n) first c s = Ret tt s'.
Proof.
  revert first s. induction fuel as [|fuel IH]; intros first s; simpl; [done|].
  intros Hrun. do 5 step Hrun.
  match goal with |- (if ?alive then _ else _) _ = _ => destruct alive end;
    [done|by apply IH].
Qed.

Lemma data_conn_Ret h s c s' :
  data_conn h s = Ret c s' →
  s' = s ∧ ∃ i slot, data h = Some i ∧ Connections (this s) !! i = Some slot
                     ∧ c = conn slot.
Proof.
  unfold data_conn. destruct (data h) as [i|]; [|done]. run.
  destruct (Connections (this s) !! i) as [slot|] eqn:Hl; [|done].
  intros; simplify_eq. eauto 6.
Qed.

Lemma data_conn_Throw h s e s' : data_conn h s ≠ Throw e s'.
Proof.
  unfold data_conn. destruct (data h) as [i|]; [|done]. run.
  by destruct (Connections (this s) !! i).
Qed.

Lemma Connection_ping_Ret c s alive s' :
  Connection_ping c s = Ret alive s' →
  ∃ w, conn_ping c (world s) = (alive, w) ∧
       s' = mkState (this s) w (trace s ++ [EvPing c alive]) (next_conn s).
Proof.
  unfold Connection_ping. destruct (conn_ping c (world s)) as [a w].
  intros; simplify_eq. eauto.
Qed.

Lemma Connection_ping_Throw c s e s' : Connection_ping c s ≠ Throw e s'.
Proof. unfold Connection_ping. by destruct (conn_ping c (world s)). Qed.

Lemma ForceConnected_Ret fuel h s s' :
  ForceConnected fuel h s = Ret tt s' →
  ∃ i slot, data h = Some i ∧ Connections (this s) !! i = Some slot ∧
    this s' = this s ∧
    (trace s' = trace s ++ [EvPing (conn slot) true]
     ∨ ∃ k, k < fuel ∧
         trace s' = trace s ++ [EvPing (conn slot) false]
                    ++ reconnect_events (description (this s))
                         (config_name (this s)) (conn slot) k
                    ++ init_events (InitConnect (this s)) (conn slot)).
Proof.
  unfold ForceConnected. intros Hrun.
  apply bind_Ret_inv in Hrun as (c & s0 & Hc & Hrun).
  apply data_conn_Ret in Hc as (-> & i & slot & Hd & Hl & ->).
  apply bind_Ret_inv in Hrun as (alive & s1 & Hp & Hrun).
  apply Connection_ping_Ret in Hp as (w & Hp & ->).
  exists i, slot. split_and!; [done..| |].
  - destruct alive; [unfold ret in Hrun; by simplify_eq|].
    apply bind_Ret_inv in Hrun as ([] & s2 & Hloop & Hrun).
    apply reconnect_loop_Ret in Hloop as (k & _ & Hp2 & _).
    apply afterConnect_Ret in Hrun as (Hp3 & _). simpl in *. congruence.
  - destruct alive; [left; unfold ret in Hrun; by simplify_eq|right].
    apply bind_Ret_inv in Hrun as ([] & s2 & Hloop & Hrun).
    apply reconnect_loop_Ret in Hloop as (k & Hk & Hp2 & _ & Ht2).
    apply afterConnect_Ret in Hrun as (_ & _ & Ht3). simpl in *.
    exists k. split; [done|]. rewrite Ht3, Ht2, Hp2.
    by rewrite <- !app_assoc.
Qed.

Lemma ForceConnected_Throw fuel h s e s' :
  ForceConnected fuel h s = Throw e s' →
  this s' = this s ∧
  ∃ pre c, trace s' = pre ++ [EvConnect c (config_name (this s)) (Some e)]
           ∨ trace s' = pre ++ [EvExecute c (InitConnect (this s)) (Some e)].
Proof.
  unfold ForceConnected. intros Hrun.
  apply bind_Throw_inv in Hrun as [Hc|(c & s0 & Hc & Hrun)];
    [by apply data_conn_Throw in Hc|].
  apply data_conn_Ret in Hc as (-> & i & slot & Hd & Hl & ->).
  apply bind_Throw_inv in Hrun as [Hp|(alive & s1 & Hp & Hrun)];
    [by apply Connection_ping_Throw in Hp|].
  apply Connection_ping_Ret in Hp as (w & Hp & ->).
  destruct alive; [done|].
  apply bind_Throw_inv in Hrun as [Hloop|([] & s2 & Hloop & Hrun)].
  - apply reconnect_loop_Throw in Hloop as (Hp2 & pre & Ht). simpl in *.
    split; [done|]. exists pre, (conn slot). by left.
  - apply reconnect_loop_Ret in Hloop as (k & _ & Hp2 & _).
    apply afterConnect_Throw in Hrun as (Hp3 & pre & Ht). simpl in *.
    split; [congruence|]. exists pre, (conn slot). right. by rewrite Ht, Hp2.
Qed.

Lemma ForceConnected_more_fuel fuel n h s s' :
  ForceConnected fuel h s = Ret tt s' →
  ForceConnected (fuel + n) h s = Ret tt s'.
Proof.
  unfold ForceConnected. intros Hrun. do 2 step Hrun.
  match goal with |- (if ?alive then _ else _) _ = _ => destruct alive end;
    [done|].
  apply bind_Ret_inv in Hrun as ([] & s2 & Hloop & Hrun).
  by rewrite (bind_Ret _ _ _ _ _ (reconnect_loop_more_fuel _ n _ _ _ _ Hloop)).
Qed.

(** *** [Get] *)

Lemma throw_cause_traced tl evs e s :
  throw_cause tl e s → throw_cause (tl ++ evs) e (traced evs s).
Proof.
  destruct 1 as [n m pre c cfg ? ? Ht|n m pre c cfg ? ? Ht| |pre c cfg ? Ht
                |pre c q Ht|].
  - eapply cause_fatal; [done..|]. simpl. rewrite Ht. by rewrite <- app_assoc.
  - eapply cause_cold_start; [done..|]. simpl. rewrite Ht.
    by rewrite <- app_assoc.
  - by apply cause_cancelled.
  - eapply cause_connect; [done|]. simpl. rewrite Ht. by rewrite <- app_assoc.
  - eapply cause_init_statement. simpl. rewrite Ht. by rewrite <- app_assoc.
  - by apply cause_config.
Qed.

Lemma AllocConnection_throw_cause s e s' :
  AllocConnection false s = Throw e s' → throw_cause [] e s'.
Proof.
  intros Hrun. pose proof (AllocConnection_outcome false s) as Ho.
  rewrite Hrun in Ho.
  inversion Ho as [n m w Hc Hr|n m w Hc Hr Hcan| |e' w Hc Hne| |
                  |e' w w' Hc Hq Hx]; simplify_eq.
  - unfold rethrown in Hr. rewrite andb_true_r in Hr.
    apply orb_true_iff in Hr as [Hcold|Hfatal].
    + eapply cause_cold_start with (pre := trace s ++ [_]); [done| |].
      * simpl. by apply negb_true_iff.
      * simpl. by rewrite <- app_assoc.
    + eapply cause_fatal with (pre := trace s ++ [_]); [done..|].
      simpl. by rewrite <- app_assoc.
  - by apply cause_cancelled.
  - eapply cause_connect with (pre := trace s ++ [_]); [done|].
    simpl. by rewrite <- app_assoc.
  - eapply cause_init_statement with (pre := trace s ++ [_; _; _]).
    simpl. by rewrite <- app_assoc.
Qed.

Lemma for_loop_throw_cause n s e s' :
  for_loop n (AllocConnection false) s = Throw e s' → throw_cause [] e s'.
Proof.
  revert s. induction n as [|n IH]; intros s; simpl; [done|].
  intros Hrun. apply bind_Throw_inv in Hrun as [Hrun|(a & s1 & _ & Hrun)].
  - by apply AllocConnection_throw_cause in Hrun.
  - by apply IH in Hrun.
Qed.

Lemma Initialize_throw_cause s e s' :
  Initialize s = Throw e s' → throw_cause [] e s'.
Proof.
  destruct (Initialized (this s)) eqn:Hi.
  { by rewrite Initialize_done. }
  rewrite Initialize_run by done.
  destruct (composed _ _) as [d|].
  - intros Hrun. apply bind_Throw_inv in Hrun as [Hrun|(a & s1 & _ & Hrun)].
    + by apply for_loop_throw_cause in Hrun.
    + done.
  - intros; simplify_eq. by apply cause_config.
Qed.

Lemma new_Entry_run i (p : PoolPtr) s :
  new_Entry (Some i) p s = Ret (mkEntry (Some i) p) (held i s).
Proof. done. Qed.

Lemma Get_backoff_run s :
  Get_backoff s
  = Ret tt (traced [EvUnlock; EvYield;
                    EvSleep MYSQLXX_POOL_SLEEP_ON_CONNECT_FAIL; EvLock] s).
Proof. unfold Get_backoff. run. by rewrite <- !app_assoc. Qed.

Lemma Get_loop_throw_cause fuel s e s' :
  Get_loop fuel s = Throw e s' → throw_cause [] e s'.
Proof.
  revert s. induction fuel as [|fuel IH]; intros s; simpl; [done|].
  unfold bind at 1, get_pool.
  destruct (find_idle (Connections (this s))) as [it|]; [done|].
  case_match.
  - intros Hrun. apply bind_Throw_inv in Hrun as [Hrun|(a & s1 & _ & Hrun)].
    + by apply AllocConnection_throw_cause in Hrun.
    + destruct a as [c|]; [done|].
      rewrite (bind_Ret _ _ _ _ _ (Get_backoff_run s1)) in Hrun.
      by apply IH in Hrun.
  - rewrite (bind_Ret _ _ _ _ _ (Get_backoff_run s)). apply IH.
Qed.

Lemma Get_run fuel s :
  Get fuel s =
  match Initialize (traced [EvLock] s) with
  | Ret _ s1 =>
      match Get_loop fuel s1 with
      | Ret h s2 => Ret h (traced [EvUnlock] s2)
      | Throw e s2 => Throw e (traced [EvUnlock] s2)
      | OutOfFuel => OutOfFuel
      | Undefined => Undefined
      end
  | Throw e s1 => Throw e (traced [EvUnlock] s1)
  | OutOfFuel => OutOfFuel
  | Undefined => Undefined
  end.
Proof.
  unfold Get. rewrite ScopedLock_run. unfold bind.
  by destruct (Initialize _).
Qed.

Lemma Get_throw_cause fuel s e s' :
  Get fuel s = Throw e s' → throw_cause [EvUnlock] e s'.
Proof.
  rewrite Get_run. destruct (Initialize _) as [[] s1|e1 s1| |] eqn:Hi;
    try done.
  - destruct (Get_loop fuel s1) as [h s2|e2 s2| |] eqn:Hl; try done.
    intros; simplify_eq. apply Get_loop_throw_cause in Hl.
    by apply (throw_cause_traced [] [EvUnlock]).
  - intros; simplify_eq. apply Initialize_throw_cause in Hi.
    by apply (throw_cause_traced [] [EvUnlock]).
Qed.

Lemma AllocConnection_Ret_Some b s c s' :
  AllocConnection b s = Ret (Some c) s' →
  c = length (Connections (this s)) ∧
  Connections (this s')
  = Connections (this s) ++ [mkConnection (next_conn s) 0].
Proof.
  intros Hrun. pose proof (AllocConnection_outcome b s) as Ho.
  rewrite Hrun in Ho. by inversion Ho.
Qed.

(** [Get] returns a handle on a slot that no other handle holds. *)
Lemma Get_loop_Ret fuel s h s' :
  Get_loop fuel s = Ret h s' →
  ∃ i c, h = mkEntry (Some i) this_pool ∧
         Connections (this s') !! i = Some c ∧ ref_count c = 1%Z.
Proof.
  revert s. induction fuel as [|fuel IH]; intros s; simpl; [done|].
  unfold bind at 1, get_pool.
  destruct (find_idle (Connections (this s))) as [it|] eqn:Hf.
  { rewrite new_Entry_run. intros; simplify_eq.
    apply find_idle_Some in Hf as (c & Hl & Hz).
    exists it, (mkConnection (conn c) 1). split_and!; [done| |done].
    simpl. rewrite (add_ref_lookup_eq _ _ _ _ Hl). by rewrite Hz. }
  case_match.
  - intros Hrun. apply bind_Ret_inv in Hrun as ([c|] & s1 & Halloc & Hrun).
    + rewrite new_Entry_run in Hrun. simplify_eq.
      apply AllocConnection_Ret_Some in Halloc as (-> & Hcs).
      eexists _, (mkConnection (next_conn s) 1). split_and!; [done| |done].
      simpl. rewrite Hcs.
      rewrite (add_ref_lookup_eq _ _ _ (mkConnection (next_conn s) 0));
        [done|]. by apply list_lookup_middle.
    + rewrite (bind_Ret _ _ _ _ _ (Get_backoff_run s1)) in Hrun.
      by apply IH in Hrun.
  - rewrite (bind_Ret _ _ _ _ _ (Get_backoff_run s)). apply IH.
Qed.

Lemma Get_loop_S fuel s :
  Get_loop (S fuel) s =
  match find_idle (Connections (this s)) with
  | Some it => new_Entry (Some it) this_pool s
  | None =>
      if (Z.of_nat (length (Connections (this s))) <? MaxConnections (this s))%Z
      then (conn <- AllocConnection false ;;
            match conn with
            | Some c => new_Entry (Some c) this_pool
            | None => Get_backoff ;; Get_loop fuel
            end) s
      else (Get_backoff ;; Get_loop fuel) s
  end.
Proof.
  simpl. unfold bind at 1, get_pool.
  destruct (find_idle _); [done|]. by case_match.
Qed.

Lemma Get_loop_more_fuel fuel n s h s' :
  Get_loop fuel s = Ret h s' → Get_loop (fuel + n) s = Ret h s'.
Proof.
  revert s. induction fuel as [|fuel IH]; intros s; [done|].
  change (S fuel + n) with (S (fuel + n)). rewrite !Get_loop_S.
  destruct (find_idle (Connections (this s))) as [it|]; [done|].
  case_match.
  - intros Hrun. step Hrun.
    match goal with |- match ?a with _ => _ end _ = _ => destruct a end;
      [done|].
    step Hrun. by apply IH.
  - intros Hrun. step Hrun. by apply IH.
Qed.

(** A round of [Get] that finds the pool full, or whose [connect] fails in a
    way that [AllocConnection] swallows, backs off and goes round again. *)
Lemma Get_loop_full fuel s :
  find_idle (Connections (this s)) = None →
  (MaxConnections (this s) ≤ Z.of_nat (length (Connections (this s))))%Z →
  Get_loop (S fuel) s
  = Get_loop fuel
      (traced [EvUnlock; EvYield; EvSleep 10; EvLock] s).
Proof.
  intros Hf Hm. simpl. unfold bind at 1, get_pool. rewrite Hf.
  assert ((Z.of_nat (length (Connections (this s))) <? MaxConnections (this s))%Z
          = false) as -> by by apply Z.ltb_ge.
  by rewrite (bind_Ret _ _ _ _ _ (Get_backoff_run s)).
Qed.

Lemma Get_loop_transient fuel s errnum what w :
  find_idle (Connections (this s)) = None →
  (Z.of_nat (length (Connections (this s))) < MaxConnections (this s))%Z →
  was_successful (this s) = true →
  conn_connect (config_name (this s)) (next_conn s) (world s)
  = (Some (ConnectionFailed errnum what), w) →
  is_fatal errnum = false →
  isCancelled w = false →
  Get_loop (S fuel) s
  = Get_loop fuel
      (traced [EvUnlock; EvYield; EvSleep 10; EvLock]
         (after_connect (this s) s (Some (ConnectionFailed errnum what)) w
            [EvLogError what; EvDelete (next_conn s)])).
Proof.
  intros Hf Hm Hws Hc Hfatal Hcan. simpl. unfold bind at 1, get_pool.
  rewrite Hf.
  assert ((Z.of_nat (length (Connections (this s))) <? MaxConnections (this s))%Z
          = true) as -> by by apply Z.ltb_lt.
  unfold bind at 1. rewrite (AllocConnection_failed false s errnum what w Hc).
  simpl. rewrite Hfatal, Hws, Hcan; simpl.
  by rewrite (bind_Ret _ _ _ _ _ (Get_backoff_run _)).
Qed.

Lemma Get_Ret_inv fuel s h s' :
  Get fuel s = Ret h s' →
  ∃ s1 s2, Initialize (traced [EvLock] s) = Ret tt s1 ∧
           Get_loop fuel s1 = Ret h s2 ∧ s' = traced [EvUnlock] s2.
Proof.
  rewrite Get_run. destruct (Initialize _) as [[] s1|e1 s1| |]; try done.
  destruct (Get_loop fuel s1) as [h2 s2|e2 s2| |] eqn:Hl; try done.
  intros; simplify_eq. eauto.
Qed.

Lemma Get_more_fuel fuel n s h s' :
  Get fuel s = Ret h s' → Get (fuel + n) s = Ret h s'.
Proof.
  intros Hrun. apply Get_Ret_inv in Hrun as (s1 & s2 & Hi & Hl & ->).
  rewrite Get_run, Hi. by rewrite (Get_loop_more_fuel _ n _ _ _ Hl).
Qed.

(** *** [Initialize] *)

Lemma count_events_app f evs evs' :
  count_events f (evs ++ evs') = count_events f evs + count_events f evs'.
Proof. induction evs as [|ev evs IH]; simpl; [done|]. rewrite IH. lia. Qed.

(** A call of [AllocConnection] that returns made one [connect], and added
    one slot exactly when that [connect] succeeded. *)
Lemma AllocConnection_Ret_count b s r s' :
  AllocConnection b s = Ret r s' →
  description (this s') = description (this s) ∧
  Initialized (this s') = Initialized (this s) ∧
  ∃ evs, trace s' = trace s ++ evs ∧
         count_events is_connect evs = 1 ∧
         length (Connections (this s'))
         = length (Connections (this s)) + count_events is_connected evs.
Proof.
  intros Hrun. pose proof (AllocConnection_outcome b s) as Ho.
  rewrite Hrun in Ho.
  inversion Ho; simplify_eq; (split_and!; [done..|]);
    (eexists; split; [done|]); simpl; rewrite ?length_app; simpl; lia.
Qed.

Lemma for_loop_count n s s' :
  for_loop n (AllocConnection false) s = Ret tt s' →
  description (this s') = description (this s) ∧
  Initialized (this s') = Initialized (this s) ∧
  ∃ evs, trace s' = trace s ++ evs ∧
         count_events is_connect evs = n ∧
         length (Connections (this s'))
         = length (Connections (this s)) + count_events is_connected evs.
Proof.
  revert s. induction n as [|n IH]; intros s; simpl.
  - unfold ret. intros; simplify_eq. split_and!; [done..|].
    exists []. split_and!; [by rewrite app_nil_r|done|simpl; lia].
  - intros Hrun. apply bind_Ret_inv in Hrun as (r & s1 & Halloc & Hrun).
    apply AllocConnection_Ret_count in Halloc
      as (Hd1 & Hi1 & evs1 & Ht1 & Hc1 & Hl1).
    apply IH in Hrun as (Hd2 & Hi2 & evs2 & Ht2 & Hc2 & Hl2).
    split_and!; [congruence..|].
    exists (evs1 ++ evs2). rewrite !count_events_app.
    split_and!; [|lia..]. by rewrite Ht2, Ht1, app_assoc.
Qed.

Lemma Initialize_Ret s s' :
  Initialized (this s) = false →
  Initialize s = Ret tt s' →
  Initialized (this s') = true ∧
  composed (world s) (config_name (this s)) = Some (description (this s')) ∧
  ∃ evs, trace s' = trace s ++ evs ∧
         count_events is_connect evs = Z.to_nat (DefaultConnections (this s)) ∧
         length (Connections (this s'))
         = length (Connections (this s)) + count_events is_connected evs.
Proof.
  intros Hi. rewrite Initialize_run by done.
  destruct (composed _ _) as [d|]; [|done].
  intros Hrun. apply bind_Ret_inv in Hrun as ([] & s1 & Hloop & Hrun).
  apply for_loop_count in Hloop as (Hd & _ & evs & Ht & Hc & Hl).
  unfold modify_pool in Hrun. simplify_eq/=.
  split_and!; [done..|]. by exists evs.
Qed.

Lemma Initialize_Ret_Initialized s s' :
  Initialize s = Ret tt s' → Initialized (this s') = true.
Proof.
  destruct (Initialized (this s)) eqn:Hi.
  - rewrite Initialize_done by done. intros; by simplify_eq.
  - intros Hrun. by apply Initialize_Ret in Hrun as (? & _).
Qed.

Lemma outcome_of_steady {A} (m : M W A) s :
  steady m → outcome (m s) (λ _ s', evolves s s') (λ _ s', evolves s s').
Proof. intros Hm. apply Hm. Qed.

Lemma Get_Ret_Initialized fuel s h s' :
  Get fuel s = Ret h s' → Initialized (this s') = true.
Proof.
  intros Hrun. apply Get_Ret_inv in Hrun as (s1 & s2 & Hi & Hl & ->).
  apply Initialize_Ret_Initialized in Hi.
  pose proof (steady_Get_loop fuel s1) as Hev. rewrite Hl in Hev.
  simpl. by apply (ev_Initialized _ _ Hev).
Qed.

Lemma tryGet_Ret_Initialized s h s' :
  tryGet s = Ret h s' → Initialized (this s') = true.
Proof.
  unfold tryGet. rewrite ScopedLock_run.
  destruct ((Initialize ;; tryGet_scan) (traced [EvLock] s))
    as [h2 s2| | |] eqn:Hrun; try done.
  intros; simplify_eq.
  apply bind_Ret_inv in Hrun as ([] & s1 & Hi & Hscan).
  apply Initialize_Ret_Initialized in Hi.
  pose proof (steady_tryGet_scan s1) as Hev. rewrite Hscan in Hev.
  simpl. by apply (ev_Initialized _ _ Hev).
Qed.

(** *** Capacity

    [Get] and [tryGet] test the length of the list before they call
    [AllocConnection]; once the pool is initialized they keep it within
    [MaxConnections].  [Initialize] has no such test. *)

Lemma AllocConnection_length b s :
  outcome (AllocConnection b s)
    (λ _ s', length (Connections (this s')) ≤ S (length (Connections (this s)))
             ∧ MaxConnections (this s') = MaxConnections (this s))
    (λ _ s', length (Connections (this s')) = length (Connections (this s))
             ∧ MaxConnections (this s') = MaxConnections (this s)).
Proof.
  pose proof (AllocConnection_outcome b s) as Ho.
  inversion Ho; simpl; rewrite ?length_app; simpl; (split; [lia|done]).
Qed.

Lemma held_within_capacity i s : within_capacity s → within_capacity (held i s).
Proof. unfold within_capacity; simpl. by rewrite add_ref_length. Qed.

Lemma Get_loop_capacity fuel s :
  within_capacity s →
  outcome (Get_loop fuel s) (λ _ s', within_capacity s')
                            (λ _ s', within_capacity s').
Proof.
  revert s. induction fuel as [|fuel IH]; intros s Hcap; [done|].
  rewrite Get_loop_S.
  destruct (find_idle (Connections (this s))) as [it|].
  { rewrite new_Entry_run. by apply held_within_capacity. }
  destruct (Z.of_nat (length (Connections (this s))) <? MaxConnections (this s))%Z
    eqn:Hroom.
  - apply Z.ltb_lt in Hroom. apply outcome_bind.
    eapply outcome_weaken; [apply AllocConnection_length|..]; simpl.
    + intros [c|] s1 [Hlen Hmax].
      * rewrite new_Entry_run. apply held_within_capacity.
        unfold within_capacity. lia.
      * rewrite (bind_Ret _ _ _ _ _ (Get_backoff_run s1)). apply IH.
        unfold within_capacity in *; simpl. lia.
    + intros e s1 [Hlen Hmax]. unfold within_capacity in *. lia.
  - rewrite (bind_Ret _ _ _ _ _ (Get_backoff_run s)). by apply IH.
Qed.

Lemma tryGet_scan_capacity s :
  within_capacity s →
  outcome (tryGet_scan s) (λ _ s', within_capacity s')
                          (λ _ s', within_capacity s').
Proof.
  intros Hcap. unfold tryGet_scan, bind at 1, get_pool.
  destruct (find_idle (Connections (this s))) as [it|] eqn:Hf.
  - destruct (find_idle_Some _ _ Hf) as (c & Hl & _).
    destruct (conn_ping (conn c) (world s)) as [alive w] eqn:Hp.
    unfold new_Entry, copy_Entry, drop_Entry, on_Connections,
      tryForceConnected, data_conn.
    run. rewrite (add_ref_lookup_eq _ _ _ _ Hl); run. rewrite Hp; simpl.
    destruct alive; run; unfold within_capacity, Entry_dtor in *; simpl;
      by rewrite !add_ref_length.
  - destruct (Z.of_nat (length (Connections (this s))) >=? MaxConnections (this s))%Z
      eqn:Hroom; [done|].
    rewrite Z.geb_leb in Hroom. apply Z.leb_gt in Hroom. apply outcome_bind.
    eapply outcome_weaken; [apply AllocConnection_length|..]; simpl.
    + intros [c|] s1 [Hlen Hmax].
      * rewrite new_Entry_run. apply held_within_capacity.
        unfold within_capacity. lia.
      * unfold within_capacity in *; simpl. lia.
    + intros e s1 [Hlen Hmax]. unfold within_capacity in *. lia.
Qed.

Lemma Get_capacity fuel s :
  Initialized (this s) = true → within_capacity s →
  outcome (Get fuel s) (λ _ s', within_capacity s')
                       (λ _ s', within_capacity s').
Proof.
  intros Hi Hcap. rewrite Get_run, Initialize_done by done.
  pose proof (Get_loop_capacity fuel (traced [EvLock] s) Hcap) as Hloop.
  by destruct (Get_loop _ _).
Qed.

Lemma tryGet_capacity s :
  Initialized (this s) = true → within_capacity s →
  outcome (tryGet s) (λ _ s', within_capacity s')
                     (λ _ s', within_capacity s').
Proof.
  intros Hi Hcap. unfold tryGet. rewrite ScopedLock_run.
  unfold bind at 1. rewrite Initialize_done by done.
  pose proof (tryGet_scan_capacity (traced [EvLock] s) Hcap) as Hscan.
  by destruct (tryGet_scan _).
Qed.

(** *** Calls that finish *)





(** *** A new slot and its first handle *)





(** *** The rounds of the reconnect loop *)

Lemma reconnect_loop_S fuel first c s :
  reconnect_loop (S fuel) first c s =
  let pre := trace s ++ (if first then [] else [EvSleep 5])
             ++ [EvLogInformation
                   ("MYSQL: Reconnecting to " +:+ description (this s))] in
  match conn_connect (config_name (this s)) c (world s) with
  | (Some e, w) =>
      Throw e (mkState (this s) w
                 (pre ++ [EvConnect c (config_name (this s)) (Some e)])
                 (next_conn s))
  | (None, w) =>
      match conn_ping c w with
      | (true, w') =>
          Ret tt (mkState (this s) w'
                    (pre ++ [EvConnect c (config_name (this s)) None;
                             EvPing c true])
                    (next_conn s))
      | (false, w') =>
          reconnect_loop fuel false c
            (mkState (this s) w'
               (pre ++ [EvConnect c (config_name (this s)) None;
                        EvPing c false])
               (next_conn s))
      end
  end.
Proof.
  simpl. destruct first; run;
    (destruct (conn_connect _ _ _) as [[e|] w]; simpl;
     [by rewrite <- !app_assoc|]);
    destruct (conn_ping c w) as [[|] w']; simpl; by rewrite <- !app_assoc.
Qed.

Lemma reconnect_loop_live k fuel first c s w2 w3 w4 :
  dead_rounds (config_name (this s)) c k (world s) = Some w2 →
  conn_connect (config_name (this s)) c w2 = (None, w3) →
  conn_ping c w3 = (true, w4) →
  k < fuel →
  reconnect_loop fuel first c s
  = Ret tt (mkState (this s) w4
              (trace s ++ (if first then [] else [EvSleep 5])
               ++ reconnect_events (description (this s))
                    (config_name (this s)) c k)
              (next_conn s)).
Proof.
  revert fuel first s.
  induction k as [|k IH]; intros fuel first s Hdead Hc Hp Hk;
    (destruct fuel as [|fuel]; [lia|]); rewrite reconnect_loop_S;
    cbn [dead_rounds] in Hdead.
  - simplify_eq. rewrite Hc, Hp. cbn zeta. do 2 f_equal.
    simpl. by rewrite <- !app_assoc.
  - destruct (conn_connect _ _ _) as [[e|] w1]; [done|].
    destruct (conn_ping c w1) as [[|] w1']; [done|].
    cbn zeta.
    match goal with
    | |- reconnect_loop _ _ _ ?s1 = _ =>
        rewrite (IH fuel false s1 Hdead Hc Hp) by lia
    end.
    do 2 f_equal. simpl. by rewrite <- !app_assoc.
Qed.

Lemma reconnect_loop_refused k fuel first c s w2 e w3 :
  dead_rounds (config_name (this s)) c k (world s) = Some w2 →
  conn_connect (config_name (this s)) c w2 = (Some e, w3) →
  k < fuel →
  reconnect_loop fuel first c s
  = Throw e (mkState (this s) w3
               (trace s ++ (if first then [] else [EvSleep 5])
                ++ refused_events (description (this s))
                     (config_name (this s)) c k e)
               (next_conn s)).
Proof.
  revert fuel first s.
  induction k as [|k IH]; intros fuel first s Hdead Hc Hk;
    (destruct fuel as [|fuel]; [lia|]); rewrite reconnect_loop_S;
    cbn [dead_rounds] in Hdead.
  - simplify_eq. rewrite Hc. cbn zeta. do 2 f_equal.
    simpl. by rewrite <- !app_assoc.
  - destruct (conn_connect _ _ _) as [[e'|] w1]; [done|].
    destruct (conn_ping c w1) as [[|] w1']; [done|].
    cbn zeta.
    match goal with
    | |- reconnect_loop _ _ _ ?s1 = _ =>
        rewrite (IH fuel false s1 Hdead Hc) by lia
    end.
    do 2 f_equal. simpl. by rewrite <- !app_assoc.
Qed.

Lemma reconnect_loop_blocked fuel first c s w' :
  dead_rounds (config_name (this s)) c fuel (world s) = Some w' →
  reconnect_loop fuel first c s = OutOfFuel.
Proof.
  revert first s.
  induction fuel as [|fuel IH]; intros first s Hdead; [done|].
  rewrite reconnect_loop_S. cbn [dead_rounds] in Hdead.
  destruct (conn_connect _ _ _) as [[e'|] w1]; [done|].
  destruct (conn_ping c w1) as [[|] w1']; [done|].
  cbn zeta. by eapply IH.
Qed.

Lemma data_conn_run i (p : PoolPtr) s c :
  Connections (this s) !! i = Some c →
  data_conn (mkEntry (Some i) p) s = Ret (conn c) s.
Proof. intros Hl. unfold data_conn, bind, get_pool; simpl. by rewrite Hl. Qed.

Lemma afterConnect_run c s :
  afterConnect c s =
  let q := InitConnect (this s) in
  if String.eqb q "" then Ret tt s
  else
    let '(r, w) := query_execute q c (world s) in
    let s' := mkState (this s) w (trace s ++ [EvLogTrace q; EvExecute c q r])
                      (next_conn s) in
    match r with
    | None => Ret tt s'
    | Some e => Throw e s'
    end.
Proof.
  unfold afterConnect. run.
  destruct (String.eqb (InitConnect (this s)) ""); run; [done|].
  destruct (query_execute _ _ _) as [[e|] w]; simpl; by rewrite <- !app_assoc.
Qed.

(** Within [fuel] rounds the driver either keeps the [ping] dead, or lets a
    [connect] throw, or answers a [ping] alive. *)
Lemma dead_rounds_cases cfg c fuel (w1 : W) :
  (∃ w2, dead_rounds cfg c fuel w1 = Some w2)
  ∨ ∃ k w2, k < fuel ∧ dead_rounds cfg c k w1 = Some w2 ∧
      ((∃ e w3, conn_connect cfg c w2 = (Some e, w3))
       ∨ ∃ w3 w4, conn_connect cfg c w2 = (None, w3) ∧
                  conn_ping c w3 = (true, w4)).
Proof.
  revert w1. induction fuel as [|fuel IH]; intros w1; [left; by exists w1|].
  destruct (conn_connect cfg c w1) as [[e|] w] eqn:Hc.
  { right. exists 0, w1. split_and!; [lia|done|]. left. eauto. }
  destruct (conn_ping c w) as [[|] w'] eqn:Hp.
  { right. exists 0, w1. split_and!; [lia|done|]. right. eauto. }
  destruct (IH w') as [(w2 & Hdead)|(k & w2 & Hk & Hdead & Hend)].
  - left. exists w2. cbn [dead_rounds]. by rewrite Hc, Hp.
  - right. exists (S k), w2. split_and!; [lia| |done].
    cbn [dead_rounds]. by rewrite Hc, Hp.
Qed.

(** An access whose first [ping] is dead. *)
Lemma Entry_access_dead fuel h s i slot w1 :
  data h = Some i →
  Connections (this s) !! i = Some slot →
  conn_ping (conn slot) (world s) = (false, w1) →
  Entry_access fuel h s
  = (reconnect_loop fuel true (conn slot) ;;
     afterConnect (conn slot) ;;
     data_conn h)
      (mkState (this s) w1 (trace s ++ [EvPing (conn slot) false])
               (next_conn s)).
Proof.
  intros Hd Hl Hp. unfold Entry_access, ForceConnected. rewrite Hd.
  unfold data_conn at 1. rewrite Hd.
  run. rewrite Hl; run. rewrite Hp; run.
  by destruct (reconnect_loop _ _ _ _).
Qed.

End Reasoning.

(** * Two runs on the scripted driver

    [Initialize] sets [Initialized] last: a run that throws after a
    successful [connect] keeps the slot, and the next acquisition runs the
    whole loop again.  With [DefConn] = [MaxConn] = 2 and a second [connect]
    that fails with [ER_ACCESS_DENIED_ERROR], the first [Get] throws and the
    second leaves 3 slots. *)
Lemma Initialize_again_after_throw :
  let e := ConnectionFailed ER_ACCESS_DENIED_ERROR "Access denied" in
  let s := Scripted.fresh 2 2 "" (Scripted.world_of [None; Some e] [] [] false) in
  ∃ s1 h s2,
    Get 1 s = Throw e s1 ∧
    Initialized (this s1) = false ∧ length (Connections (this s1)) = 1 ∧
    Get 1 s1 = Ret h s2 ∧
    length (Connections (this s2)) = 3 ∧ ¬ within_capacity s2.
Proof.
  intros e s. eexists _, _, _.
  split; [vm_compute; reflexivity|].
  split_and!; [done..|vm_compute; reflexivity|done|].
  unfold within_capacity; simpl. lia.
Qed.


(** * The properties of the specification *)

(** C2 — ref-count conservation.  Start from slots that nobody holds and run
    any sequence of handle constructions, copies, copy-assignments and
    destructions that only names live handles.  Then the length of the slot
    list is unchanged; every slot's [ref_count] is the number of live handles
    whose [data] points to it, taken as an [int]; as long as that number is
    at most [INT_MAX] the count is the number itself, and it is zero exactly
    when no live handle points to the slot; and assigning any live handle to
    itself leaves slots and handles as they are. *)
Theorem ref_count_conservation (cs : list Connection) (ops : list handle_op)
    (hp : Heap) :
  Forall (λ c, ref_count c = 0%Z) cs →
  handle_run ops (mkHeap cs []) = Some hp →
  length (slots hp) = length cs ∧
  (∀ p c, slots hp !! p = Some c →
     ref_count c = to_int (live_handles p (handles hp)) ∧
     ((live_handles p (handles hp) ≤ INT_MAX)%Z →
      ref_count c = live_handles p (handles hp) ∧
      (ref_count c = 0%Z ↔ ∀ h e, live hp h = Some e → data e ≠ Some p))) ∧
  (∀ h e, live hp h = Some e → handle_step (OpAssign h h) hp = Some hp).
Proof.
  intros Hzero Hrun.
  assert (conserved hp) as Hinv.
  { eapply handle_run_conserved; [|done]. intros q c0 Hq; simpl in *.
    rewrite Forall_lookup in Hzero. by rewrite (Hzero q c0 Hq). }
  split_and!.
  - eapply (handle_run_length ops (mkHeap cs [])); done.
  - intros p c Hl. split; [by apply Hinv|]. intros Hmax.
    assert (ref_count c = live_handles p (handles hp)) as Heq.
    { rewrite (Hinv p c Hl). apply to_int_id.
      pose proof (live_handles_nonneg p (handles hp)).
      unfold is_int, INT_MIN, INT_MAX in *. lia. }
    split; [done|]. rewrite Heq, live_handles_zero. split.
    + intros Hall h e He. apply (Hall h). by apply live_Some.
    + intros Hall h e He. apply (Hall h). unfold live. by rewrite He.
  - intros h e He. simpl. eapply Entry_assign_self; [done|].
    intros p c Hl. by eapply conserved_is_int.
Qed.

Lemma ref_count_conservation_witness :
  let cs := [mkConnection 0 0; mkConnection 1 0] in
  let ops := [OpCtor (Some 0) this_pool; OpCopy 0; OpAssign 1 1; OpDefault;
              OpAssign 2 0; OpCtor (Some 1) this_pool; OpDtor 0;
              OpAssign 1 3; OpDtor 3] in
  let hp := mkHeap [mkConnection 0 1; mkConnection 1 1]
                   [None; Some (mkEntry (Some 1) this_pool);
                    Some (mkEntry (Some 0) this_pool); None] in
  Forall (λ c, ref_count c = 0%Z) cs ∧
  handle_run ops (mkHeap cs []) = Some hp ∧
  ref_count (mkConnection 0 1) = live_handles 0 (handles hp).
Proof.
  intros cs ops hp.
  assert (Forall (λ c, ref_count c = 0%Z) cs) as Hzero
    by (repeat constructor).
  assert (handle_run ops (mkHeap cs []) = Some hp) as Hrun
    by (vm_compute; reflexivity).
  split_and!; [exact Hzero|exact Hrun|].
  destruct (ref_count_conservation cs ops hp Hzero Hrun) as (_ & Hcount & _).
  destruct (Hcount 0 (mkConnection 0 1) eq_refl) as [_ Hbound].
  apply Hbound. vm_compute. discriminate.
Defined.

(** One handle on a slot and 2^31 - 1 copies of it: 2^31 live handles, and
    the [int] count has wrapped to [INT_MIN]. *)
Lemma ref_count_overflow :
  ∃ hp c,
    handle_run (OpCtor (Some 0) this_pool
                :: repeat (OpCopy 0) (Z.to_nat 2147483647))
               (mkHeap [mkConnection 0 0] []) = Some hp ∧
    slots hp !! 0 = Some c ∧
    live_handles 0 (handles hp) = 2147483648%Z ∧
    ref_count c = (-2147483648)%Z.
Proof.
  assert (Forall (λ c, ref_count c = 0%Z) [mkConnection 0 0]) as Hzero
    by (repeat constructor).
  destruct (copies_live (Z.to_nat 2147483647) [mkConnection 0 0] Hzero)
    as (hp & c & Hrun & Hl & Hlive & Hc); [simpl; lia|].
  exists hp, c. rewrite Z2Nat.id in Hlive, Hc by lia.
  split_and!; [done..|]. rewrite Hc. vm_compute. reflexivity.
Qed.

(** C3 — failure classification of [AllocConnection].  When [connect] throws
    [ConnectionFailed] with error number [errnum], then, in this order:
    (1) if [errnum] is [ER_ACCESS_DENIED_ERROR], [ER_DBACCESS_DENIED_ERROR]
    or [ER_BAD_DB_ERROR] the exception is thrown again, whatever the flags;
    (2) otherwise, if the pool was never successful and
    [dont_throw_if_failed_first_time] is false, it is thrown again;
    (3) otherwise, if the daemon is cancelled, the "Daemon is cancelled"
    exception is thrown; (4) otherwise the call returns [NULL].  In (3) and
    (4) the connection object is deleted; the pool is unchanged in all four. *)
Theorem AllocConnection_failure_classification {W} {D : Driver W}
    (dont_throw_if_failed_first_time : bool) (s : State W)
    (errnum : Z) (what : string) (w : W) :
  conn_connect (config_name (this s)) (next_conn s) (world s)
  = (Some (ConnectionFailed errnum what), w) →
  AllocConnection dont_throw_if_failed_first_time s =
  let failed := after_connect (this s) s (Some (ConnectionFailed errnum what)) w in
  if (errnum =? ER_ACCESS_DENIED_ERROR)%Z
     || (errnum =? ER_DBACCESS_DENIED_ERROR)%Z
     || (errnum =? ER_BAD_DB_ERROR)%Z
  then Throw (ConnectionFailed errnum what) (failed [EvLogError what])
  else if negb (was_successful (this s))
          && negb dont_throw_if_failed_first_time
  then Throw (ConnectionFailed errnum what) (failed [EvLogError what])
  else if isCancelled w
  then Throw (PocoException cancelled_msg)
             (failed [EvLogError what; EvDelete (next_conn s)])
  else Ret None (failed [EvLogError what; EvDelete (next_conn s)]).
Proof. apply AllocConnection_failed. Qed.

Lemma AllocConnection_failure_classification_witness :
  let s := Scripted.fresh 1 16 ""
             (Scripted.world_of [Some (ConnectionFailed 2003 "Can't connect")]
                                [] [] false) in
  let w := Scripted.world_of [] [] [] false in
  conn_connect (config_name (this s)) (next_conn s) (world s)
  = (Some (ConnectionFailed 2003 "Can't connect"), w) ∧
  AllocConnection true s
  = Ret None (after_connect (this s) s
                (Some (ConnectionFailed 2003 "Can't connect")) w
                [EvLogError "Can't connect"; EvDelete 0]).
Proof.
  intros s w. split; [reflexivity|].
  exact (AllocConnection_failure_classification (D := Scripted.driver) true s 2003 "Can't connect" w
           eq_refl).
Defined.

(** C9 — [was_successful] is set before the init statement runs and before
    the slot is appended.  If [connect] succeeds and the non-empty
    [InitConnect] statement fails with [e], [AllocConnection] throws [e], the
    list of slots is as before, and [was_successful] is true.  From then on,
    in any state [s2] that later pool code has led to, a [connect] failure
    with a non-fatal error number is no longer thrown again as a cold-start
    failure, with either value of the flag: [AllocConnection] returns [NULL]
    when the daemon is not cancelled and throws the "Daemon is cancelled"
    exception when it is. *)
Theorem was_successful_before_init_statement {W} {D : Driver W}
    (b : bool) (s : State W) (w w' : W) (e : exn) :
  conn_connect (config_name (this s)) (next_conn s) (world s) = (None, w) →
  InitConnect (this s) ≠ "" →
  query_execute (InitConnect (this s)) (next_conn s) w = (Some e, w') →
  ∃ s1,
    AllocConnection b s = Throw e s1 ∧
    Connections (this s1) = Connections (this s) ∧
    was_successful (this s1) = true ∧
    ∀ (b2 : bool) (s2 : State W) (errnum : Z) (what : string) (w2 : W),
      evolves s1 s2 →
      conn_connect (config_name (this s2)) (next_conn s2) (world s2)
      = (Some (ConnectionFailed errnum what), w2) →
      is_fatal errnum = false →
      AllocConnection b2 s2 =
      let failed :=
        after_connect (this s2) s2 (Some (ConnectionFailed errnum what)) w2
          [EvLogError what; EvDelete (next_conn s2)] in
      if isCancelled w2 then Throw (PocoException cancelled_msg) failed
      else Ret None failed.
Proof.
  intros Hc Hq Hx.
  pose proof (AllocConnection_outcome b s) as Ho.
  inversion Ho as [n m v Hc' Hr Heq|n m v Hc' Hr Hcan Heq
                  |n m v Hc' Hr Hcan Heq|e' v Hc' Hne Heq|v Hc' Hq' Heq
                  |v v' Hc' _ Hx' Heq|e' v v' Hc' _ Hx' Heq];
    rewrite Hc in Hc'; simplify_eq;
    try (rewrite Hx in Hx'; simplify_eq).
  eexists. split; [done|]. split_and!; [done..|].
  intros b2 s2 errnum what w2 Hev Hc2 Hfatal.
  rewrite (AllocConnection_failed b2 s2 errnum what w2 Hc2).
  simpl. rewrite Hfatal.
  by rewrite (ev_was_successful _ _ Hev).
Qed.

Lemma was_successful_before_init_statement_witness :
  let q := "SET NAMES cp1251" in
  let e := DriverException "Unknown character set" in
  let s := Scripted.fresh 1 16 q (Scripted.world_of [] [] [Some e] false) in
  InitConnect (this s) ≠ "" ∧
  ∃ s1, AllocConnection false s = Throw e s1 ∧
        Connections (this s1) = [] ∧
        was_successful (this s1) = true.
Proof.
  intros q e s.
  assert (InitConnect (this s) ≠ "") as Hq by discriminate.
  split; [exact Hq|].
  destruct (was_successful_before_init_statement (D := Scripted.driver) false s
              (Scripted.world_of [] [] [Some e] false)
              (Scripted.world_of [] [] [] false) e eq_refl Hq eq_refl)
    as (s1 & Hthrow & Hcs & Hws & _).
  exists s1. split_and!; [exact Hthrow|exact Hcs|exact Hws].
Defined.



(** C10 — an idle slot whose [ping] fails.  When the scan of [tryGet] finds
    the idle slot [it] and its [ping] answers false, [tryGet] returns the
    empty [Entry] and the pool is exactly as [Initialize] left it (as it was
    before the call, for a pool already initialized).  The internal [Entry]
    held the slot with [ref_count] 1 while it was probed; taking it and
    dropping it cancel out, so the slot's [ref_count] is 0 again and the scan
    finds the same slot idle in the resulting pool. *)
Theorem tryGet_dead_idle_slot_unchanged {W} {D : Driver W}
    (s s1 : State W) (it : nat) (w : W) :
  Initialize (traced [EvLock] s) = Ret tt s1 →
  find_idle (Connections (this s1)) = Some it →
  ∃ c, Connections (this s1) !! it = Some c ∧ ref_count c = 0%Z ∧
    (conn_ping (conn c) (world s1) = (false, w) →
     ∃ s',
       tryGet s = Ret Entry_null s' ∧
       this s' = this s1 ∧
       (Initialized (this s) = true → this s' = this s) ∧
       new_Entry (Some it) this_pool s1
       = Ret (mkEntry (Some it) this_pool) (held it s1) ∧
       Connections (this (held it s1)) !! it = Some (mkConnection (conn c) 1) ∧
       drop_Entry (mkEntry (Some it) this_pool) (held it s1) = Ret tt s1 ∧
       Connections (this s') !! it = Some c ∧
       find_idle (Connections (this s')) = Some it).
Proof.
  intros Hi Hf. destruct (find_idle_Some _ _ Hf) as (c & Hl & Hz).
  exists c. split_and!; [done..|]. intros Hp.
  eexists. split; [by apply (tryGet_probe s s1 it c false w)|].
  simpl. split_and!; try done.
  - intros Hinit. rewrite Initialize_done in Hi by done. by simplify_eq.
  - unfold held; simpl. rewrite (add_ref_lookup_eq _ _ _ _ Hl), Hz. done.
  - unfold drop_Entry, on_Connections. run. unfold Entry_dtor; simpl.
    rewrite (add_ref_cancel 1), set_Connections_twice, set_Connections_same
      by ints.
    by destruct s1.
Qed.

Lemma tryGet_dead_idle_slot_unchanged_witness :
  let idle := mkPool 1 2 "" true [mkConnection 0 1; mkConnection 1 0]
                     "mysql_params" "" true in
  let ok := Scripted.world_of [] [] [] false in
  let s := mkState idle (Scripted.world_of [] [false] [] false) [] 2 in
  ∃ s', tryGet s = Ret Entry_null s' ∧ this s' = idle.
Proof.
  intros idle ok s.
  destruct (tryGet_dead_idle_slot_unchanged (D := Scripted.driver) s (traced [EvLock] s) 1 ok
              eq_refl eq_refl) as (c & Hl & _ & Hprobe).
  injection Hl as <-.
  destruct (Hprobe eq_refl) as (s' & Hret & Hsame & _).
  exists s'. split; [exact Hret|exact Hsame].
Defined.

(** C6 — the access operators of [Entry] ([operator->] and the conversions
    to [mysqlxx::Connection &]).  (1) On an empty [Entry] they throw "Tried
    to access NULL database connection.".  (2) On an [Entry] for a slot: if
    the first [ping] of the slot's connection answers true, they return that
    connection at once.  If it answers false, the reconnect loop runs: when
    the driver answers [k] rounds with a dead [ping] and the next round with
    a live one, the loop makes exactly those [k] + 1 rounds (log line,
    [connect], [ping]; the first round at once, every later round after
    [sleep(5)]), then [afterConnect] runs once, and the connection is
    returned, or the exception of the init statement is thrown; when the
    [connect] of a round throws, that exception is thrown unchanged and the
    loop stops there; when the [ping] stays dead the loop does not end;
    and these are all the cases.
    (3) Whenever they return, they return the connection of the slot, the
    pool is unchanged, and the events of the call are either that one live
    [ping], or a dead [ping] followed by the reconnect loop and one run of
    [afterConnect]; in both cases the last [ping] of the connection answered
    true.  (4) Whenever they throw on a non-empty [Entry], the exception is
    the very one that [connect] or the init statement raised.  (5) More fuel
    does not change a result. *)
Theorem Entry_access_contract {W} {D : Driver W}
    (fuel : nat) (h : Entry) (s : State W) :
  (data h = None →
   Entry_access fuel h s
   = Throw (PocoRuntimeException "Tried to access NULL database connection.") s)
  ∧ (∀ i slot,
       data h = Some i → Connections (this s) !! i = Some slot →
       let c := conn slot in
       let cfg := config_name (this s) in
       let desc := description (this s) in
       let q := InitConnect (this s) in
       let after w evs := mkState (this s) w (trace s ++ evs) (next_conn s) in
       (∀ w, conn_ping c (world s) = (true, w) →
             Entry_access fuel h s = Ret c (after w [EvPing c true]))
       ∧ ∀ w1, conn_ping c (world s) = (false, w1) →
           (∀ k w2 w3 w4,
              dead_rounds cfg c k w1 = Some w2 →
              conn_connect cfg c w2 = (None, w3) →
              conn_ping c w3 = (true, w4) →
              k < fuel →
              let evs := [EvPing c false] ++ reconnect_events desc cfg c k in
              (q = "" → Entry_access fuel h s = Ret c (after w4 evs))
              ∧ (q ≠ "" → ∀ r w5,
                   query_execute q c w4 = (r, w5) →
                   Entry_access fuel h s =
                   let s' := after w5 (evs ++ [EvLogTrace q; EvExecute c q r]) in
                   match r with
                   | None => Ret c s'
                   | Some e => Throw e s'
                   end))
           ∧ (∀ k w2 e w3,
                dead_rounds cfg c k w1 = Some w2 →
                conn_connect cfg c w2 = (Some e, w3) →
                k < fuel →
                Entry_access fuel h s
                = Throw e (after w3 ([EvPing c false]
                                     ++ refused_events desc cfg c k e)))
           ∧ (∀ w2, dead_rounds cfg c fuel w1 = Some w2 →
                    Entry_access fuel h s = OutOfFuel)
           ∧ ((∃ w2, dead_rounds cfg c fuel w1 = Some w2)
              ∨ ∃ k w2, k < fuel ∧ dead_rounds cfg c k w1 = Some w2 ∧
                  ((∃ e w3, conn_connect cfg c w2 = (Some e, w3))
                   ∨ ∃ w3 w4, conn_connect cfg c w2 = (None, w3) ∧
                              conn_ping c w3 = (true, w4))))
  ∧ (∀ c s',
       Entry_access fuel h s = Ret c s' →
       ∃ i slot evs,
         data h = Some i ∧ Connections (this s) !! i = Some slot ∧
         c = conn slot ∧ this s' = this s ∧
         trace s' = trace s ++ evs ∧
         last_ping c evs = Some true ∧
         (evs = [EvPing c true]
          ∨ ∃ k, k < fuel ∧
              evs = [EvPing c false]
                    ++ reconnect_events (description (this s))
                         (config_name (this s)) c k
                    ++ init_events (InitConnect (this s)) c))
  ∧ (∀ e s',
       Entry_access fuel h s = Throw e s' →
       (data h = None ∧ e = PocoRuntimeException null_access_msg)
       ∨ ∃ pre c,
           trace s' = pre ++ [EvConnect c (config_name (this s)) (Some e)]
           ∨ trace s' = pre ++ [EvExecute c (InitConnect (this s)) (Some e)])
  ∧ (∀ n c s',
       Entry_access fuel h s = Ret c s' →
       Entry_access (fuel + n) h s = Ret c s').
Proof.
  split_and!.
  - intros Hd. unfold Entry_access. by rewrite Hd.
  - intros i slot Hd Hl c cfg desc q after. subst c cfg desc q after.
    split.
    { intros w Hp. unfold Entry_access, ForceConnected, data_conn.
      rewrite Hd. run. rewrite Hl; run. rewrite Hp; run. by rewrite Hl. }
    intros w1 Hp1.
    rewrite (Entry_access_dead fuel h s i slot w1 Hd Hl Hp1).
    set (s1 := mkState (this s) w1 (trace s ++ [EvPing (conn slot) false])
                       (next_conn s)).
    assert (∀ s2 : State W,
              this s2 = this s → data_conn h s2 = Ret (conn slot) s2)
      as Hdata.
    { intros s2 Hs2. destruct h as [d pl]; simpl in Hd; subst d.
      apply data_conn_run. by rewrite Hs2. }
    split_and!.
    + intros k w2 w3 w4 Hdead Hc Hp Hk evs. subst evs.
      rewrite (bind_Ret _ _ _ _ _
                 (reconnect_loop_live k fuel true (conn slot) s1 w2 w3 w4
                    Hdead Hc Hp Hk)).
      split.
      * intros Hq. unfold bind at 1. rewrite afterConnect_run. cbn zeta. simpl.
        rewrite (proj2 (String_eqb_empty _) Hq).
        rewrite Hdata by done. by rewrite <- app_assoc.
      * intros Hq r w5 Hx. rewrite <- String.eqb_neq in Hq.
        unfold bind at 1. rewrite afterConnect_run. cbn zeta. simpl.
        rewrite Hq, Hx.
        destruct r as [e|]; [|rewrite Hdata by done];
          by rewrite <- !app_assoc.
    + intros k w2 e w3 Hdead Hc Hk.
      rewrite (bind_Throw _ _ _ _ _
                 (reconnect_loop_refused k fuel true (conn slot) s1 w2 e w3
                    Hdead Hc Hk)).
      simpl. by rewrite <- app_assoc.
    + intros w2 Hdead. unfold bind at 1.
      by rewrite (reconnect_loop_blocked fuel true (conn slot) s1 w2 Hdead).
    + apply dead_rounds_cases.
  - intros c s' Hrun. unfold Entry_access in Hrun.
    destruct (data h) as [i|] eqn:Hd; [|done].
    apply bind_Ret_inv in Hrun as ([] & s1 & Hforce & Hc).
    apply ForceConnected_Ret in Hforce as (i' & slot & Hd' & Hl & Hp & Ht).
    apply data_conn_Ret in Hc as (-> & i'' & slot' & Hd'' & Hl' & ->).
    rewrite Hp in Hl'. rewrite Hd' in Hd''. simplify_eq.
    destruct Ht as [Ht|(k & Hk & Ht)].
    + eexists _, slot, [EvPing (conn slot) true].
      split_and!; try done; [|by left].
      simpl. by rewrite Nat.eqb_refl.
    + eexists _, slot, _. split_and!; try done; [|right; eauto].
      rewrite !last_ping_app, last_ping_init_events.
      by rewrite last_ping_reconnect_events.
  - intros e s' Hrun. unfold Entry_access in Hrun.
    destruct (data h) as [i|] eqn:Hd;
      [|left; unfold throw in Hrun; by simplify_eq].
    right. apply bind_Throw_inv in Hrun as [Hforce|([] & s1 & _ & Hc)];
      [|by apply data_conn_Throw in Hc].
    by apply ForceConnected_Throw in Hforce as (_ & Hcause).
  - intros n c s' Hrun. unfold Entry_access in *.
    destruct (data h) as [i|] eqn:Hd; [|done].
    apply bind_Ret_inv in Hrun as ([] & s1 & Hforce & Hc).
    by rewrite (bind_Ret _ _ _ _ _ (ForceConnected_more_fuel _ n _ _ _ Hforce)).
Qed.

Lemma Entry_access_contract_witness :
  let p := mkPool 1 16 "SET NAMES utf8" true [mkConnection 0 1]
                  "mysql_params" "stat@localhost:3306 as user metrika" true in
  let ok := Scripted.world_of [] [] [] false in
  let e := DriverException "Lost connection" in
  let h := mkEntry (Some 0) this_pool in
  let s := mkState p (Scripted.world_of [] [false; false; true] [] false) [] 1 in
  let s_refused :=
    mkState p (Scripted.world_of [None; Some e] [false; false] [] false) [] 1 in
  let s_dead := mkState p (Scripted.world_of [] [false; false; false] [] false)
                        [] 1 in
  let log := EvLogInformation
               "MYSQL: Reconnecting to stat@localhost:3306 as user metrika" in
  Entry_access 2 h s
  = Ret 0 (mkState p ok
             [EvPing 0 false;
              log; EvConnect 0 "mysql_params" None; EvPing 0 false; EvSleep 5;
              log; EvConnect 0 "mysql_params" None; EvPing 0 true;
              EvLogTrace "SET NAMES utf8";
              EvExecute 0 "SET NAMES utf8" None] 1)
  ∧ Entry_access 2 h s_refused
    = Throw e (mkState p ok
                 [EvPing 0 false;
                  log; EvConnect 0 "mysql_params" None; EvPing 0 false;
                  EvSleep 5;
                  log; EvConnect 0 "mysql_params" (Some e)] 1)
  ∧ Entry_access 2 h s_dead = OutOfFuel.
Proof.
  intros p ok e h s s_refused s_dead log. split_and!.
  - destruct (Entry_access_contract (D := Scripted.driver) 2 h s)
      as (_ & Hslot & _).
    destruct (Hslot 0 (mkConnection 0 1) eq_refl eq_refl) as [_ Hdead].
    destruct (Hdead (Scripted.world_of [] [false; true] [] false) eq_refl)
      as (Hlive & _).
    destruct (Hlive 1 (Scripted.world_of [] [true] [] false)
                (Scripted.world_of [] [true] [] false) ok
                eq_refl eq_refl eq_refl (le_n 2)) as [_ Hinit].
    exact (Hinit ltac:(discriminate) None ok eq_refl).
  - destruct (Entry_access_contract (D := Scripted.driver) 2 h s_refused)
      as (_ & Hslot & _).
    destruct (Hslot 0 (mkConnection 0 1) eq_refl eq_refl) as [_ Hdead].
    destruct (Hdead (Scripted.world_of [None; Some e] [false] [] false) eq_refl)
      as (_ & Hrefused & _).
    exact (Hrefused 1 (Scripted.world_of [Some e] [] [] false) e ok
             eq_refl eq_refl (le_n 2)).
  - destruct (Entry_access_contract (D := Scripted.driver) 2 h s_dead)
      as (_ & Hslot & _).
    destruct (Hslot 0 (mkConnection 0 1) eq_refl eq_refl) as [_ Hdead].
    destruct (Hdead (Scripted.world_of [] [false; false] [] false) eq_refl)
      as (_ & _ & Hblocked & _).
    exact (Hblocked ok eq_refl).
Defined.

(** C5, as amended — the blocking [Get].  (1) Whenever [Get] returns, the
    [Entry] is not empty: it points to a slot of the pool whose [ref_count]
    is 1.  (2) A round of its loop that finds no idle slot, has room, and
    whose [connect] fails with a non-fatal error number, in a pool that was
    successful before and with the daemon not cancelled, does not throw: it
    unlocks, yields, sleeps [MYSQLXX_POOL_SLEEP_ON_CONNECT_FAIL] = 10
    seconds, locks again and goes round again.  (3) Whenever [Get] throws,
    the exception is one of: the [ConnectionFailed] of [connect] with a fatal
    error number; the [ConnectionFailed] of [connect] in a pool that was
    never successful; the "Daemon is cancelled" exception, the daemon being
    cancelled; another exception raised by [connect]; the exception raised by
    the init statement in [afterConnect]; a missing configuration key during
    initialization.  (4) More fuel does not change a result.  (5) A round
    that finds an idle slot returns a handle on the first one. *)
Theorem Get_semantics {W} {D : Driver W} (fuel : nat) (s : State W) :
  (∀ h s', Get fuel s = Ret h s' →
     isNull h = false ∧
     ∃ i c, h = mkEntry (Some i) this_pool ∧
            Connections (this s') !! i = Some c ∧ ref_count c = 1%Z)
  ∧ (∀ errnum what w,
       find_idle (Connections (this s)) = None →
       (Z.of_nat (length (Connections (this s))) < MaxConnections (this s))%Z →
       was_successful (this s) = true →
       conn_connect (config_name (this s)) (next_conn s) (world s)
       = (Some (ConnectionFailed errnum what), w) →
       is_fatal errnum = false →
       isCancelled w = false →
       Get_loop (S fuel) s
       = Get_loop fuel
           (traced [EvUnlock; EvYield; EvSleep 10; EvLock]
              (after_connect (this s) s
                 (Some (ConnectionFailed errnum what)) w
                 [EvLogError what; EvDelete (next_conn s)])))
  ∧ (∀ e s', Get fuel s = Throw e s' → throw_cause [EvUnlock] e s')
  ∧ (∀ n h s', Get fuel s = Ret h s' → Get (fuel + n) s = Ret h s')
  ∧ (∀ it, find_idle (Connections (this s)) = Some it →
       Get_loop (S fuel) s = Ret (mkEntry (Some it) this_pool) (held it s)).
Proof.
  split_and!; [| | | |by intros it Hf; rewrite Get_loop_S, Hf].
  - intros h s' Hrun.
    apply Get_Ret_inv in Hrun as (s1 & s2 & _ & Hl & ->).
    apply Get_loop_Ret in Hl as (i & c & -> & Hl & Hr).
    split; [done|]. by exists i, c.
  - intros errnum what w. apply Get_loop_transient.
  - apply Get_throw_cause.
  - intros n h s'. apply Get_more_fuel.
Qed.

Lemma Get_semantics_witness :
  let e := ConnectionFailed 2003 "Can't connect" in
  let p := mkPool 1 2 "" true [mkConnection 0 1] "mysql_params" "" true in
  let s := mkState p (Scripted.world_of [Some e; Some e] [] [] false) [] 1 in
  let cold := Scripted.fresh 1 16 "" (Scripted.world_of [Some e] [] [] false) in
  (∃ s', Get 3 s = Ret (mkEntry (Some 1) this_pool) s' ∧
         count_events (is_sleep 10) (trace s') = 2)
  ∧ (∃ s', Get 0 cold = Throw e s' ∧ throw_cause [EvUnlock] e s')
  ∧ Get_loop 3 (traced [EvLock] s)
    = Get_loop 2
        (traced [EvUnlock; EvYield; EvSleep 10; EvLock]
           (after_connect p (traced [EvLock] s) (Some e)
              (Scripted.world_of [Some e] [] [] false)
              [EvLogError "Can't connect"; EvDelete 1])).
Proof.
  intros e p s cold. split_and!.
  - assert (∃ s', Get (D := Scripted.driver) 3 s
                  = Ret (mkEntry (Some 1) this_pool) s') as [s' Hrun]
      by (eexists; vm_compute; reflexivity).
    exists s'. split; [exact Hrun|].
    destruct (proj1 (Get_semantics (D := Scripted.driver) 3 s) _ s' Hrun)
      as (_ & i & c & _ & _ & _).
    vm_compute in Hrun. injection Hrun as <-. reflexivity.
  - assert (∃ s', Get (D := Scripted.driver) 0 cold = Throw e s') as [s' Hrun]
      by (eexists; vm_compute; reflexivity).
    exists s'. split; [exact Hrun|].
    exact (proj1 (proj2 (proj2 (Get_semantics (D := Scripted.driver) 0 cold)))
             e s' Hrun).
  - refine (proj1 (proj2 (Get_semantics (D := Scripted.driver) 2
                            (traced [EvLock] s)))
              2003%Z "Can't connect" (Scripted.world_of [Some e] [] [] false)
              eq_refl _ eq_refl eq_refl eq_refl eq_refl).
    simpl. lia.
Defined.

(** C5, as claimed: [Get] would throw only the [ConnectionFailed] of a fatal
    error number or of a cold start, or the "Daemon is cancelled" exception.
    It does not hold: in a pool that was successful before, with one busy
    slot and room for a second, [connect] succeeds, the init statement fails,
    and [Get] throws the exception of the init statement. *)
Lemma Get_throws_init_statement_failure :
  ¬ (∀ (W : Type) (D : Driver W) (fuel : nat) (s : State W) (e : exn)
       (s' : State W),
       Get fuel s = Throw e s' →
       (∃ errnum what,
          e = ConnectionFailed errnum what ∧
          (is_fatal errnum = true ∨ was_successful (this s') = false))
       ∨ e = PocoException cancelled_msg).
Proof.
  intros Hclaim.
  pose (e := DriverException "Unknown character set").
  pose (p := mkPool 1 2 "SET NAMES cp1251" true [mkConnection 0 1]
                    "mysql_params" "" true).
  pose (s := mkState p (Scripted.world_of [] [] [Some e] false) [] 1).
  assert (∃ s', Get (D := Scripted.driver) 1 s = Throw e s') as [s' Hrun]
    by (eexists; vm_compute; reflexivity).
  destruct (Hclaim _ _ 1 s e s' Hrun) as [(errnum & what & He & _)|He];
    discriminate He.
Qed.

(** C7, as amended — initialization.  (1) On an initialized pool
    [Initialize] does nothing at all.  (2) On a pool not yet initialized, a
    run of [Initialize] that returns has composed the description, has
    called [connect] exactly [DefaultConnections] times, has added exactly
    one slot per [connect] that succeeded, and has set [Initialized].
    (3) [Get] and [tryGet] run [Initialize] first, with the mutex held: their
    outcome is that of [Initialize] in the locked state when it throws, and
    when they return the pool is initialized.  (4) Once [Initialized] is
    true it stays true, and the description stays the same, over every
    outcome of [Get], [tryGet] and the access operators. *)
Theorem Initialize_once {W} {D : Driver W} (s : State W) :
  (Initialized (this s) = true → Initialize s = Ret tt s)
  ∧ (∀ s', Initialized (this s) = false → Initialize s = Ret tt s' →
       Initialized (this s') = true ∧
       composed (world s) (config_name (this s)) = Some (description (this s')) ∧
       ∃ evs, trace s' = trace s ++ evs ∧
              count_events is_connect evs
              = Z.to_nat (DefaultConnections (this s)) ∧
              length (Connections (this s'))
              = length (Connections (this s)) + count_events is_connected evs)
  ∧ (∀ e s1, Initialize (traced [EvLock] s) = Throw e s1 →
       (∀ fuel, Get fuel s = Throw e (traced [EvUnlock] s1)) ∧
       tryGet s = Throw e (traced [EvUnlock] s1))
  ∧ (∀ h s', (∃ fuel, Get fuel s = Ret h s') ∨ tryGet s = Ret h s' →
       Initialized (this s') = true)
  ∧ (Initialized (this s) = true →
     let kept (s' : State W) :=
       Initialized (this s') = true ∧
       description (this s') = description (this s) in
     (∀ fuel, outcome (Get fuel s) (λ _, kept) (λ _, kept)) ∧
     outcome (tryGet s) (λ _, kept) (λ _, kept) ∧
     (∀ fuel h, outcome (Entry_access fuel h s) (λ _, kept) (λ _, kept))).
Proof.
  split_and!.
  - apply Initialize_done.
  - intros s'. apply Initialize_Ret.
  - intros e s1 Hi. split.
    + intros fuel. by rewrite Get_run, Hi.
    + unfold tryGet. rewrite ScopedLock_run.
      by rewrite (bind_Throw _ _ _ _ _ Hi).
  - intros h s' [[fuel Hrun]|Hrun].
    + by eapply Get_Ret_Initialized.
    + by eapply tryGet_Ret_Initialized.
  - intros Hi kept.
    assert (∀ s', evolves s s' → kept s') as Hkept.
    { intros s' Hev. split; [by apply (ev_Initialized _ _ Hev)|].
      by apply (ev_description _ _ Hev). }
    split_and!.
    + intros fuel. eapply outcome_weaken; [apply (steady_Get fuel s)|..]; eauto.
    + eapply outcome_weaken; [apply (steady_tryGet s)|..]; eauto.
    + intros fuel h.
      eapply outcome_weaken; [apply (steady_Entry_access fuel h s)|..]; eauto.
Qed.

Lemma Initialize_once_witness :
  let e := ConnectionFailed 1045 "Access denied" in
  let s := Scripted.fresh 3 16 "" (Scripted.world_of [] [] [] false) in
  let bad := Scripted.fresh 1 16 "" (Scripted.world_of [Some e] [] [] false) in
  (∃ s', Initialize s = Ret tt s' ∧
         Initialized (this s') = true ∧
         length (Connections (this s')) = 3 ∧
         Initialize s' = Ret tt s')
  ∧ (∃ s1, Initialize (traced [EvLock] bad) = Throw e s1 ∧
           tryGet bad = Throw e (traced [EvUnlock] s1)).
Proof.
  intros e s bad. split.
  - assert (∃ s', Initialize (D := Scripted.driver) s = Ret tt s')
      as [s' Hrun] by (eexists; vm_compute; reflexivity).
    destruct (proj1 (proj2 (Initialize_once (D := Scripted.driver) s))
                s' eq_refl Hrun) as (Hi & _ & evs & _ & _ & Hlen).
    exists s'. split_and!; [exact Hrun|exact Hi| |].
    + vm_compute in Hrun. injection Hrun as <-. reflexivity.
    + exact (proj1 (Initialize_once (D := Scripted.driver) s') Hi).
  - assert (∃ s1, Initialize (D := Scripted.driver) (traced [EvLock] bad)
                  = Throw e s1) as [s1 Hrun]
      by (eexists; vm_compute; reflexivity).
    exists s1. split; [exact Hrun|].
    exact (proj2 (proj1 (proj2 (proj2 (Initialize_once (D := Scripted.driver)
                                         bad))) e s1 Hrun)).
Defined.

(** C7, as claimed: a run of [Initialize] that sets [Initialized] would have
    opened exactly [DefaultConnections] sessions.  It does not hold: with
    [DefaultConnections] = 2, a first [connect] that succeeds and a second
    one that fails with a non-fatal error number, [Initialize] returns with
    [Initialized] set and one slot. *)
Lemma Initialize_opens_fewer_sessions :
  ¬ (∀ (W : Type) (D : Driver W) (s s' : State W),
       Initialized (this s) = false →
       Connections (this s) = [] →
       Initialize s = Ret tt s' →
       Initialized (this s') = true ∧
       Z.of_nat (length (Connections (this s'))) = DefaultConnections (this s)).
Proof.
  intros Hclaim.
  pose (e := ConnectionFailed 2003 "Can't connect").
  pose (s := Scripted.fresh 2 16 ""
               (Scripted.world_of [None; Some e] [] [] false)).
  assert (∃ s', Initialize (D := Scripted.driver) s = Ret tt s' ∧
                length (Connections (this s')) = 1) as (s' & Hrun & Hlen)
    by (eexists; vm_compute; split; reflexivity).
  destruct (Hclaim _ _ s s' eq_refl eq_refl Hrun) as [_ Hopened].
  rewrite Hlen in Hopened. discriminate Hopened.
Qed.

(** C8, as amended — a fatal cold start.  Take a pool just constructed with
    [DefaultConnections] at least 1, in a world where the first [connect]
    fails with [ER_ACCESS_DENIED_ERROR].  Then [Get] throws, whatever the
    fuel; after the throw the list of slots is empty, [was_successful] is
    false and [Initialized] is false; and, the configuration being complete,
    the exception is that [ConnectionFailed]. *)
Theorem cold_start_access_denied {W} {D : Driver W}
    (config_name_ : string) (DefConn MaxConn : Z) (InitConnect_ : string)
    (w w' : W) (tr : list event) (n : Session) (what : string) (fuel : nat) :
  (1 ≤ to_unsigned DefConn)%Z →
  conn_connect config_name_ n w
  = (Some (ConnectionFailed ER_ACCESS_DENIED_ERROR what), w') →
  ∃ e s',
    Get fuel (mkState (Pool_new config_name_ DefConn MaxConn InitConnect_)
                      w tr n)
    = Throw e s' ∧
    Connections (this s') = [] ∧
    was_successful (this s') = false ∧
    Initialized (this s') = false ∧
    (is_Some (composed w config_name_) →
     e = ConnectionFailed ER_ACCESS_DENIED_ERROR what).
Proof.
  intros Hdef Hc.
  set (s := mkState (Pool_new config_name_ DefConn MaxConn InitConnect_)
                    w tr n).
  rewrite Get_run, Initialize_run by done.
  change (composed (world (traced [EvLock] s))
            (config_name (this (traced [EvLock] s))))
    with (composed w config_name_).
  destruct (composed w config_name_) as [d|].
  - change (DefaultConnections (this (traced [EvLock] s)))
      with (to_unsigned DefConn).
    destruct (Z.to_nat (to_unsigned DefConn)) as [|k] eqn:Hk; [lia|].
    pose proof (AllocConnection_failed false (described d (traced [EvLock] s))
                  ER_ACCESS_DENIED_ERROR what w' Hc) as Halloc.
    simpl in Halloc.
    cbn [for_loop].
    rewrite (bind_Throw _ _ _ _ _ (bind_Throw _ _ _ _ _ Halloc)).
    eexists _, _. split; [done|]. by split_and!.
  - eexists _, _. split; [done|]. by split_and!.
Qed.

Lemma cold_start_access_denied_witness :
  let e := ConnectionFailed ER_ACCESS_DENIED_ERROR "Access denied" in
  ∃ s', Get 5 (Scripted.fresh 1 16 ""
                 (Scripted.world_of [Some e] [] [] false))
        = Throw e s' ∧
        Connections (this s') = [] ∧
        was_successful (this s') = false ∧
        Initialized (this s') = false.
Proof.
  intros e.
  assert (1 ≤ to_unsigned 1)%Z as Hdef by (vm_compute; discriminate).
  destruct (cold_start_access_denied (D := Scripted.driver)
              "mysql_params" 1 16 ""
              (Scripted.world_of [Some e] [] [] false)
              (Scripted.world_of [] [] [] false) [] 0 "Access denied" 5
              Hdef eq_refl)
    as (e' & s' & Hrun & Hcs & Hws & Hi & He).
  assert (e' = e) as -> by exact (He (ex_intro _ _ eq_refl)).
  exists s'. split_and!; [exact Hrun|exact Hcs|exact Hws|exact Hi].
Defined.

(** C8, as claimed, for every pool just constructed: it does not hold when
    [DefaultConnections] is 0.  [Initialize] then completes without a
    [connect], the first [connect] is that of the loop of [Get], and the
    throw leaves [Initialized] true. *)
Lemma cold_start_without_initial_connections :
  ¬ (∀ (W : Type) (D : Driver W) (config_name_ : string) (DefConn MaxConn : Z)
       (InitConnect_ : string) (w w' : W) (tr : list event) (n : Session)
       (what : string),
       conn_connect config_name_ n w
       = (Some (ConnectionFailed ER_ACCESS_DENIED_ERROR what), w') →
       ∃ fuel e s',
         Get fuel (mkState (Pool_new config_name_ DefConn MaxConn InitConnect_)
                           w tr n)
         = Throw e s' ∧
         Connections (this s') = [] ∧
         was_successful (this s') = false ∧
         Initialized (this s') = false).
Proof.
  intros Hclaim.
  pose (e := ConnectionFailed ER_ACCESS_DENIED_ERROR "Access denied").
  destruct (Hclaim _ Scripted.driver "mysql_params" 0%Z 16%Z ""
              (Scripted.world_of [Some e] [] [] false)
              (Scripted.world_of [] [] [] false) [] 0 "Access denied" eq_refl)
    as (fuel & e' & s' & Hrun & _ & _ & Hi).
  destruct fuel as [|fuel]; vm_compute in Hrun; [discriminate Hrun|].
  injection Hrun as <- <-. discriminate Hi.
Qed.

(** C1 — the capacity bound fails in [Initialize].  A pool constructed with
    [DefConn] = 2 and [MaxConn] = 1, on a driver whose every [connect]
    succeeds: the first [Get] returns, and the list then has 2 slots for a
    [MaxConnections] of 1. *)
Theorem Initialize_exceeds_MaxConnections :
  ∃ h s',
    Get 1 (Scripted.fresh 2 1 "" (Scripted.world_of [] [] [] false))
    = Ret h s' ∧
    MaxConnections (this s') = 1%Z ∧
    length (Connections (this s')) = 2 ∧
    ¬ within_capacity s'.
Proof.
  eexists _, _. split; [vm_compute; reflexivity|].
  split_and!; [done..|]. unfold within_capacity; simpl. lia.
Qed.

(** * Further properties of the pool *)

Section Further.
Context {W : Type} {D : Driver W}.
Implicit Types s : State W.

Lemma respects_bind {A B} (R : State W → State W → Prop)
    (m : M W A) (k : A → M W B) :
  (∀ s1 s2 s3, R s1 s2 → R s2 s3 → R s1 s3) →
  respects R m → (∀ a, respects R (k a)) → respects R (bind m k).
Proof.
  intros Htrans Hm Hk s. apply outcome_bind.
  eapply outcome_weaken; [apply (Hm s)|..]; simpl; [|done].
  intros a s1 Hs1.
  eapply outcome_weaken; [apply (Hk a s1)|..]; simpl; eauto.
Qed.

Lemma respects_weaken {A} (R R' : State W → State W → Prop) (m : M W A) :
  (∀ s s', R s s' → R' s s') → respects R m → respects R' m.
Proof.
  intros Himp Hm s. eapply outcome_weaken; [apply (Hm s)|..]; simpl; eauto.
Qed.

Lemma deleted_app evs evs' : deleted (evs ++ evs') = deleted evs ++ deleted evs'.
Proof.
  induction evs as [|ev evs IH]; simpl; [done|].
  destruct ev; simpl; by rewrite ?IH.
Qed.

(** *** Code that leaves the pool untouched *)

Lemma untouched_refl s : untouched s s.
Proof. done. Qed.

Lemma untouched_trans s1 s2 s3 :
  untouched s1 s2 → untouched s2 s3 → untouched s1 s3.
Proof. intros (?&?&?) (?&?&?). split_and!; congruence. Qed.

Lemma untouched_traced evs s :
  deleted evs = [] → untouched s (traced evs s).
Proof.
  intros Hd. split_and!; [done..|]. simpl.
  by rewrite deleted_app, Hd, app_nil_r.
Qed.

Lemma untouched_emit ev :
  deleted [ev] = [] → respects untouched (emit ev : M W unit).
Proof. intros Hd s. by apply (untouched_traced [ev]). Qed.

Lemma untouched_ret {A} (a : A) : respects untouched (ret a : M W A).
Proof. by intros s. Qed.

Lemma untouched_Connection_ping c : respects untouched (Connection_ping c).
Proof.
  intros s. unfold Connection_ping.
  destruct (conn_ping c (world s)) as [alive w]; simpl.
  split_and!; [done..|]. simpl. by rewrite deleted_app, app_nil_r.
Qed.

Lemma untouched_Connection_connect c cfg :
  respects untouched (Connection_connect c cfg).
Proof.
  intros s. unfold Connection_connect.
  destruct (conn_connect cfg c (world s)) as [[e|] w]; simpl;
    (split_and!; [done..|]; simpl; by rewrite deleted_app, app_nil_r).
Qed.

Lemma untouched_Query_execute c q : respects untouched (Query_execute c q).
Proof.
  intros s. unfold Query_execute.
  destruct (query_execute q c (world s)) as [[e|] w]; simpl;
    (split_and!; [done..|]; simpl; by rewrite deleted_app, app_nil_r).
Qed.

Lemma untouched_afterConnect c : respects untouched (afterConnect c).
Proof.
  intros s. unfold afterConnect, bind at 1, get_pool.
  destruct (negb (String.eqb (InitConnect (this s)) "")).
  - apply (respects_bind untouched (emit _) (λ _, Query_execute _ _));
      [apply untouched_trans|by apply untouched_emit|].
    intros _. apply untouched_Query_execute.
  - done.
Qed.

Lemma untouched_data_conn e : respects untouched (data_conn e : M W Session).
Proof.
  intros s. unfold data_conn. destruct (data e) as [i|]; [|done].
  unfold bind, get_pool. by destruct (Connections (this s) !! i).
Qed.

Lemma untouched_reconnect_loop fuel first c :
  respects untouched (reconnect_loop fuel first c).
Proof.
  revert first. induction fuel as [|fuel IH]; intros first; simpl; [done|].
  apply respects_bind; [apply untouched_trans| |].
  { destruct first; [apply untouched_ret|by apply untouched_emit]. }
  intros _ s. unfold bind at 1, get_pool.
  apply (respects_bind untouched (emit _));
    [apply untouched_trans|by apply untouched_emit|].
  intros _. apply respects_bind;
    [apply untouched_trans|apply untouched_Connection_connect|].
  intros _. apply respects_bind;
    [apply untouched_trans|apply untouched_Connection_ping|].
  intros [|]; [apply untouched_ret|apply IH].
Qed.

Lemma untouched_ForceConnected fuel e :
  respects untouched (ForceConnected fuel e).
Proof.
  apply respects_bind; [apply untouched_trans|apply untouched_data_conn|].
  intros c. apply respects_bind;
    [apply untouched_trans|apply untouched_Connection_ping|].
  intros [|]; [apply untouched_ret|].
  apply respects_bind; [apply untouched_trans|apply untouched_reconnect_loop|].
  intros _. apply untouched_afterConnect.
Qed.

Lemma untouched_Entry_access fuel e : respects untouched (Entry_access fuel e).
Proof.
  unfold Entry_access. destruct (data e) eqn:Hd; [|by intros s].
  apply respects_bind; [apply untouched_trans|apply untouched_ForceConnected|].
  intros _. apply untouched_data_conn.
Qed.

Lemma untouched_Get_backoff : respects untouched (Get_backoff : M W unit).
Proof.
  intros s. rewrite Get_backoff_run. by apply untouched_traced.
Qed.

(** *** Connection objects are deleted at most once *)

Lemma stays_tidy_trans s1 s2 s3 :
  stays_tidy s1 s2 → stays_tidy s2 s3 → stays_tidy s1 s3.
Proof. unfold stays_tidy. eauto. Qed.

Lemma untouched_stays_tidy s s' : untouched s s' → stays_tidy s s'.
Proof.
  intros (Hp & Hn & Hd) [Hnd Hlt].
  split; unfold sessions in *; rewrite Hp, Hd, ?Hn; done.
Qed.

Lemma tidy_of_untouched {A} (m : M W A) :
  respects untouched m → respects stays_tidy m.
Proof. apply respects_weaken, untouched_stays_tidy. Qed.

Lemma conn_add_ref d i cs : conn <$> add_ref d i cs = conn <$> cs.
Proof.
  unfold add_ref. revert i.
  induction cs as [|c cs IH]; intros [|i]; f_equal/=; auto.
Qed.

Lemma tidy_on_Connections {A} (f : list Connection → A * list Connection) :
  (∀ cs, conn <$> (f cs).2 = conn <$> cs) →
  respects stays_tidy (on_Connections f : M W A).
Proof.
  intros Hf s. unfold on_Connections, bind, get_pool, modify_pool, ret.
  specialize (Hf (Connections (this s))).
  destruct (f (Connections (this s))) as [a cs]; simpl in *.
  intros [Hnd Hlt]. split; unfold sessions in *; simpl; by rewrite Hf.
Qed.

Lemma tidy_new_Entry c p : respects stays_tidy (new_Entry c p : M W Entry).
Proof.
  apply tidy_on_Connections. intros cs; simpl.
  destruct c; simpl; [apply conn_add_ref|done].
Qed.

Lemma tidy_copy_Entry e : respects stays_tidy (copy_Entry e : M W Entry).
Proof.
  apply tidy_on_Connections. intros cs; simpl.
  destruct (data e); simpl; [apply conn_add_ref|done].
Qed.

Lemma tidy_drop_Entry e : respects stays_tidy (drop_Entry e : M W unit).
Proof.
  apply tidy_on_Connections. intros cs; simpl. unfold Entry_dtor.
  destruct (data e); simpl; [apply conn_add_ref|done].
Qed.

Lemma NoDup_fresh (l k : list nat) n :
  NoDup (l ++ k) → (∀ c, c ∈ l ++ k → c < n) →
  NoDup (l ++ k ++ [n]) ∧ NoDup ((l ++ [n]) ++ k).
Proof.
  intros Hnd Hlt.
  assert (n ∉ l ++ k) as Hn by (intros Hin; apply Hlt in Hin; lia).
  assert (NoDup (n :: l ++ k)) as Hcons by by apply NoDup_cons.
  split.
  - assert (l ++ k ++ [n] ≡ₚ n :: (l ++ k)) as Hp.
    { rewrite app_assoc. symmetry. apply Permutation_cons_append. }
    by rewrite Hp.
  - assert ((l ++ [n]) ++ k ≡ₚ n :: (l ++ k)) as Hp.
    { rewrite <- app_assoc. simpl. symmetry. apply Permutation_middle. }
    by rewrite Hp.
Qed.

Lemma alloc_outcome_tidy b s r :
  alloc_outcome b s r →
  outcome r (λ _ s', stays_tidy s s') (λ _ s', stays_tidy s s').
Proof.
  assert (∀ p w evs,
            Connections p = Connections (this s) → deleted evs = [] →
            stays_tidy s
              (mkState p w (trace s ++ evs) (S (next_conn s)))) as Hsame.
  { intros p w evs Hp Hd [Hnd Hlt].
    split; unfold sessions in *; simpl; rewrite Hp, deleted_app, Hd, app_nil_r;
      [done|]. intros c Hc. apply Hlt in Hc. lia. }
  assert (∀ p w evs,
            Connections p = Connections (this s) →
            deleted evs = [next_conn s] →
            stays_tidy s
              (mkState p w (trace s ++ evs) (S (next_conn s)))) as Hdel.
  { intros p w evs Hp Hd [Hnd Hlt].
    destruct (NoDup_fresh _ _ _ Hnd Hlt) as [Hnd' _].
    split; unfold sessions in *; simpl; rewrite Hp, deleted_app, Hd; [done|].
    intros c Hc. rewrite app_assoc in Hc.
    apply elem_of_app in Hc as [Hc|Hc]; [apply Hlt in Hc; lia|].
    apply list_elem_of_singleton in Hc. lia. }
  assert (∀ w evs,
            deleted evs = [] →
            stays_tidy s
              (mkState (grown (next_conn s) (this s)) w (trace s ++ evs)
                       (S (next_conn s)))) as Hnew.
  { intros w evs Hd [Hnd Hlt].
    destruct (NoDup_fresh _ _ _ Hnd Hlt) as [_ Hnd'].
    split; unfold sessions in *; simpl;
      rewrite fmap_app, deleted_app, Hd, app_nil_r; [done|].
    simpl. intros c Hc. rewrite <- app_assoc in Hc.
    apply elem_of_app in Hc as [Hc|Hc];
      [assert (c < next_conn s); [|lia]; apply Hlt, elem_of_app; by left|].
    apply elem_of_cons in Hc as [->|Hc]; [lia|].
    assert (c < next_conn s); [|lia]. apply Hlt, elem_of_app. by right. }
  destruct 1; simpl; unfold after_connect;
    first [by apply Hsame|by apply Hdel|by apply Hnew].
Qed.

Lemma tidy_AllocConnection b : respects stays_tidy (AllocConnection b).
Proof. intros s. apply (alloc_outcome_tidy b), AllocConnection_outcome. Qed.

Lemma tidy_ret {A} (a : A) : respects stays_tidy (ret a : M W A).
Proof. by intros s Ht. Qed.

Lemma tidy_throw {A} e : respects stays_tidy (throw e : M W A).
Proof. by intros s Ht. Qed.

Lemma tidy_for_loop n b :
  respects stays_tidy (for_loop n (AllocConnection b)).
Proof.
  induction n as [|n IH]; simpl; [apply tidy_ret|].
  apply respects_bind; [apply stays_tidy_trans|apply tidy_AllocConnection|done].
Qed.

Lemma tidy_Initialize : respects stays_tidy Initialize.
Proof.
  intros s. destruct (Initialized (this s)) eqn:Hi.
  { rewrite Initialize_done by done. by intros Ht. }
  rewrite Initialize_run by done.
  destruct (composed _ _) as [d|]; [|by intros Ht].
  assert (stays_tidy s (described d s)) as Hs1 by (by intros []).
  apply outcome_bind.
  eapply outcome_weaken; [apply (tidy_for_loop _ false (described d s))|..];
    simpl.
  - intros _ s2 Hs2 Ht. apply Hs1, Hs2 in Ht. by destruct Ht.
  - intros _ s2 Hs2 Ht. by apply Hs2, Hs1.
Qed.

Lemma tidy_Get_loop fuel : respects stays_tidy (Get_loop fuel).
Proof.
  induction fuel as [|fuel IH]; [done|].
  intros s. rewrite Get_loop_S.
  destruct (find_idle (Connections (this s))).
  { apply tidy_new_Entry. }
  case_match.
  - apply (respects_bind stays_tidy (AllocConnection false));
      [apply stays_tidy_trans|apply tidy_AllocConnection|].
    intros [c|]; [apply tidy_new_Entry|].
    apply respects_bind; [apply stays_tidy_trans| |done].
    apply tidy_of_untouched, untouched_Get_backoff.
  - apply (respects_bind stays_tidy Get_backoff);
      [apply stays_tidy_trans| |done].
    apply tidy_of_untouched, untouched_Get_backoff.
Qed.

Lemma tidy_ScopedLock {A} (m : M W A) :
  respects stays_tidy m → respects stays_tidy (ScopedLock m).
Proof.
  intros Hm s. rewrite ScopedLock_run.
  pose proof (untouched_stays_tidy _ _ (untouched_traced [EvLock] s eq_refl))
    as Hlock.
  specialize (Hm (traced [EvLock] s)).
  destruct (m (traced [EvLock] s)) as [a s'|e s'| |]; simpl in *; try done.
  - intros Ht. apply Hlock, Hm in Ht.
    by apply (untouched_stays_tidy _ _ (untouched_traced [EvUnlock] s' eq_refl)).
  - intros Ht. apply Hlock, Hm in Ht.
    by apply (untouched_stays_tidy _ _ (untouched_traced [EvUnlock] s' eq_refl)).
Qed.

Lemma tidy_Get fuel : respects stays_tidy (Get fuel).
Proof.
  apply tidy_ScopedLock, respects_bind;
    [apply stays_tidy_trans|apply tidy_Initialize|].
  intros _. apply tidy_Get_loop.
Qed.

Lemma tidy_tryGet_scan : respects stays_tidy tryGet_scan.
Proof.
  intros s. unfold tryGet_scan, bind at 1, get_pool.
  destruct (find_idle (Connections (this s))).
  - apply (respects_bind stays_tidy (new_Entry _ _));
      [apply stays_tidy_trans|apply tidy_new_Entry|].
    intros res. apply respects_bind; [apply stays_tidy_trans| |].
    { apply tidy_of_untouched, respects_bind;
        [apply untouched_trans|apply untouched_data_conn|].
      intros c. apply untouched_Connection_ping. }
    intros alive. apply respects_bind; [apply stays_tidy_trans| |].
    { destruct alive; [apply tidy_copy_Entry|apply tidy_ret]. }
    intros r. apply respects_bind;
      [apply stays_tidy_trans|apply tidy_drop_Entry|].
    intros _. apply tidy_ret.
  - case_match; [apply tidy_throw|].
    apply (respects_bind stays_tidy (AllocConnection true));
      [apply stays_tidy_trans|apply tidy_AllocConnection|].
    intros [c|]; [apply tidy_new_Entry|apply tidy_ret].
Qed.

Lemma tidy_tryGet : respects stays_tidy tryGet.
Proof.
  apply tidy_ScopedLock, respects_bind;
    [apply stays_tidy_trans|apply tidy_Initialize|].
  intros _. apply tidy_tryGet_scan.
Qed.

Lemma delete_each_run cs s :
  delete_each cs s = Ret tt (traced (EvDelete <$> (conn <$> cs)) s).
Proof.
  revert s. induction cs as [|c cs IH]; intros s; simpl.
  - unfold ret, traced. rewrite app_nil_r. by destruct s.
  - unfold bind, delete_Connection, emit. rewrite IH.
    unfold traced; simpl. by rewrite <- app_assoc.
Qed.

Lemma deleted_EvDelete cs : deleted (EvDelete <$> cs) = cs.
Proof. induction cs as [|c cs IH]; [done|]. simpl. by f_equal. Qed.

(** *** Slots are only appended; a handle takes an idle slot *)

Lemma appends_refl s : appends s s.
Proof. unfold appends. reflexivity. Qed.

Lemma appends_trans s1 s2 s3 : appends s1 s2 → appends s2 s3 → appends s1 s3.
Proof. unfold appends. intros. by etrans. Qed.

Lemma appends_only_refl s : appends_only s s.
Proof. split; [apply appends_refl|done]. Qed.

Lemma appends_only_trans s1 s2 s3 :
  appends_only s1 s2 → appends_only s2 s3 → appends_only s1 s3.
Proof.
  unfold appends_only, appends. intros [? ?] [? ?].
  split; [by etrans|congruence].
Qed.

Lemma alloc_outcome_appends b s r :
  alloc_outcome b s r →
  outcome r (λ _ s', appends_only s s') (λ _ s', appends_only s s').
Proof.
  destruct 1; simpl; (split; [|done]); unfold appends; simpl;
    first [reflexivity|by apply prefix_app_r].
Qed.

Lemma appends_AllocConnection b : respects appends_only (AllocConnection b).
Proof. intros s. apply (alloc_outcome_appends b), AllocConnection_outcome. Qed.

Lemma appends_for_loop n b :
  respects appends_only (for_loop n (AllocConnection b)).
Proof.
  induction n as [|n IH]; simpl; [intros s; apply appends_only_refl|].
  apply respects_bind;
    [apply appends_only_trans|apply appends_AllocConnection|done].
Qed.

Lemma appends_Initialize : respects appends Initialize.
Proof.
  intros s. destruct (Initialized (this s)) eqn:Hi.
  { rewrite Initialize_done by done. apply appends_refl. }
  rewrite Initialize_run by done.
  destruct (composed _ _) as [d|]; [|apply appends_refl].
  apply outcome_bind.
  eapply outcome_weaken; [apply (appends_for_loop _ false (described d s))|..];
    simpl; by intros ? ? [? ?].
Qed.

Lemma acquired_held i s0 s c0 :
  appends s0 s → Connections (this s) !! i = Some c0 → ref_count c0 = 0%Z →
  acquired i s0 (held i s).
Proof.
  unfold appends. intros Hpre Hl Hz. split_and!.
  - intros c Hc. eapply prefix_lookup_Some in Hc; [|done]. congruence.
  - eexists. split; [by apply (add_ref_lookup_eq 1)|]. simpl.
    by rewrite Hz.
  - intros j c Hne Hc. eapply prefix_lookup_Some in Hc; [|done].
    simpl. unfold add_ref. by rewrite list_lookup_alter_ne.
Qed.

Lemma acquired_traced evs i s0 s :
  acquired i s0 s → acquired i s0 (traced evs s).
Proof. done. Qed.

Lemma Get_loop_acquires fuel s0 s :
  appends s0 s →
  outcome (Get_loop fuel s)
    (λ h s', ∃ i, h = mkEntry (Some i) this_pool ∧ acquired i s0 s')
    (λ _ s', appends s0 s').
Proof.
  revert s. induction fuel as [|fuel IH]; intros s Hpre; [done|].
  rewrite Get_loop_S.
  destruct (find_idle (Connections (this s))) as [it|] eqn:Hf.
  { rewrite new_Entry_run. simpl.
    destruct (find_idle_Some _ _ Hf) as (c & Hl & Hz).
    exists it. split; [done|]. by eapply acquired_held. }
  case_match.
  - apply outcome_bind.
    pose proof (AllocConnection_outcome false s) as Ho.
    pose proof (alloc_outcome_appends _ _ _ Ho) as Happ.
    destruct (AllocConnection false s) as [[c|] s1|e s1| |] eqn:Halloc;
      cbn [outcome] in *; try done.
    + rewrite new_Entry_run. cbn [outcome].
      apply AllocConnection_Ret_Some in Halloc as (-> & Hcs).
      exists (length (Connections (this s))). split; [done|].
      eapply (acquired_held _ s0 s1 (mkConnection (next_conn s) 0));
        [exact (appends_trans _ _ _ Hpre (proj1 Happ))| |done].
      rewrite Hcs. by apply list_lookup_middle.
    + rewrite (bind_Ret _ _ _ _ _ (Get_backoff_run s1)). apply IH.
      exact (appends_trans _ _ _ Hpre (proj1 Happ)).
    + exact (appends_trans _ _ _ Hpre (proj1 Happ)).
  - rewrite (bind_Ret _ _ _ _ _ (Get_backoff_run s)). by apply IH.
Qed.

Lemma tryGet_scan_probe s it c alive w :
  find_idle (Connections (this s)) = Some it →
  Connections (this s) !! it = Some c →
  conn_ping (conn c) (world s) = (alive, w) →
  tryGet_scan s =
  Ret (if alive then mkEntry (Some it) this_pool else Entry_null)
      (mkState (this (if alive then held it s else s)) w
               (trace s ++ [EvPing (conn c) alive]) (next_conn s)).
Proof.
  intros Hf Hl Hp. unfold tryGet_scan, bind at 1, get_pool. rewrite Hf.
  unfold new_Entry, copy_Entry, drop_Entry, on_Connections,
    tryForceConnected, data_conn.
  run. rewrite (add_ref_lookup_eq _ _ _ _ Hl); run. rewrite Hp; simpl.
  destruct alive; run; unfold Entry_dtor; simpl.
  - by rewrite (add_ref_cancel 1) by ints.
  - by rewrite (add_ref_cancel 1), set_Connections_twice, set_Connections_same
      by ints.
Qed.

Lemma tryGet_scan_acquires s0 s :
  appends s0 s →
  outcome (tryGet_scan s)
    (λ h s', (h = Entry_null ∧ appends s0 s')
             ∨ ∃ i, h = mkEntry (Some i) this_pool ∧ acquired i s0 s')
    (λ _ s', appends s0 s').
Proof.
  intros Hpre. destruct (find_idle (Connections (this s))) as [it|] eqn:Hf.
  - destruct (find_idle_Some _ _ Hf) as (c & Hl & Hz).
    destruct (conn_ping (conn c) (world s)) as [alive w] eqn:Hp.
    rewrite (tryGet_scan_probe s it c alive w) by done.
    destruct alive; simpl; [right|by left].
    exists it. split; [done|].
    by apply (acquired_held it s0 s c).
  - unfold tryGet_scan, bind at 1, get_pool. rewrite Hf.
    case_match; [done|]. apply outcome_bind.
    pose proof (AllocConnection_outcome true s) as Ho.
    pose proof (alloc_outcome_appends _ _ _ Ho) as Happ.
    destruct (AllocConnection true s) as [[c|] s1|e s1| |] eqn:Halloc;
      cbn [outcome] in *; try done.
    + rewrite new_Entry_run. cbn [outcome]. right.
      apply AllocConnection_Ret_Some in Halloc as (-> & Hcs).
      exists (length (Connections (this s))). split; [done|].
      eapply (acquired_held _ s0 s1 (mkConnection (next_conn s) 0));
        [exact (appends_trans _ _ _ Hpre (proj1 Happ))| |done].
      rewrite Hcs. by apply list_lookup_middle.
    + left. split; [done|]. exact (appends_trans _ _ _ Hpre (proj1 Happ)).
    + exact (appends_trans _ _ _ Hpre (proj1 Happ)).
Qed.

(** *** Acquisitions, seen from the caller *)

Lemma traced_traced evs evs' s :
  traced evs' (traced evs s) = traced (evs ++ evs') s.
Proof. unfold traced; simpl. by rewrite <- app_assoc. Qed.

Lemma tryGet_run s :
  tryGet s =
  match Initialize (traced [EvLock] s) with
  | Ret _ s1 =>
      match tryGet_scan s1 with
      | Ret h s2 => Ret h (traced [EvUnlock] s2)
      | Throw e s2 => Throw e (traced [EvUnlock] s2)
      | OutOfFuel => OutOfFuel
      | Undefined => Undefined
      end
  | Throw e s1 => Throw e (traced [EvUnlock] s1)
  | OutOfFuel => OutOfFuel
  | Undefined => Undefined
  end.
Proof.
  unfold tryGet. rewrite ScopedLock_run. unfold bind.
  by destruct (Initialize _).
Qed.

Lemma tryGet_Ret_inv s h s' :
  tryGet s = Ret h s' →
  ∃ s1 s2, Initialize (traced [EvLock] s) = Ret tt s1 ∧
           tryGet_scan s1 = Ret h s2 ∧ s' = traced [EvUnlock] s2.
Proof.
  rewrite tryGet_run. destruct (Initialize _) as [[] s1|e1 s1| |]; try done.
  destruct (tryGet_scan s1) as [h2 s2|e2 s2| |] eqn:Hl; try done.
  intros; simplify_eq. eauto.
Qed.

Lemma composed_Some w cfg d :
  composed w cfg = Some d →
  ∃ host port user,
    cfg_getString w (cfg +:+ ".host") = Some host ∧
    cfg_getString w (cfg +:+ ".port") = Some port ∧
    cfg_getString w (cfg +:+ ".user") = Some user ∧
    d = default "" (cfg_getString w (cfg +:+ ".db"))
        +:+ "@" +:+ host +:+ ":" +:+ port +:+ " as user " +:+ user.
Proof.
  unfold composed. intros Hd.
  destruct (cfg_getString w (cfg +:+ ".host")) as [host|]; [|done].
  destruct (cfg_getString w (cfg +:+ ".port")) as [port|]; [|done].
  destruct (cfg_getString w (cfg +:+ ".user")) as [user|]; [|done].
  simplify_eq. by exists host, port, user.
Qed.

Lemma composed_None w cfg key :
  key ∈ [".host"; ".port"; ".user"] →
  cfg_getString w (cfg +:+ key) = None →
  composed w cfg = None.
Proof.
  unfold composed. intros Hkey Hnone.
  destruct (cfg_getString w (cfg +:+ ".host")) as [host|] eqn:Hh; [|done].
  destruct (cfg_getString w (cfg +:+ ".port")) as [port|] eqn:Hp; [|done].
  destruct (cfg_getString w (cfg +:+ ".user")) as [user|] eqn:Hu; [|done].
  repeat (apply elem_of_cons in Hkey as [->|Hkey]; [congruence|]).
  by apply elem_of_nil in Hkey.
Qed.

Lemma for_loop_length n s :
  outcome (for_loop n (AllocConnection false) s)
    (λ _ s', length (Connections (this s')) ≤ length (Connections (this s)) + n
             ∧ MaxConnections (this s') = MaxConnections (this s))
    (λ _ s', length (Connections (this s')) ≤ length (Connections (this s)) + n
             ∧ MaxConnections (this s') = MaxConnections (this s)).
Proof.
  revert s. induction n as [|n IH]; intros s; simpl; [split; [lia|done]|].
  apply outcome_bind.
  eapply outcome_weaken; [apply AllocConnection_length|..]; simpl.
  - intros _ s1 [Hlen Hmax].
    eapply outcome_weaken; [apply IH|..]; simpl;
      intros ? ? [? ?]; (split; [lia|congruence]).
  - intros e s1 [Hlen Hmax]. split; [lia|done].
Qed.

Lemma Initialize_capacity s :
  (Z.of_nat (length (Connections (this s))
             + (if Initialized (this s) then 0
                else Z.to_nat (DefaultConnections (this s))))
   ≤ MaxConnections (this s))%Z →
  outcome (Initialize s) (λ _ s', within_capacity s')
                         (λ _ s', within_capacity s').
Proof.
  intros Hroom. destruct (Initialized (this s)) eqn:Hi.
  { rewrite Initialize_done by done. unfold within_capacity; simpl. lia. }
  rewrite Initialize_run by done.
  destruct (composed _ _) as [d|];
    [|unfold within_capacity; simpl; lia].
  apply outcome_bind.
  eapply outcome_weaken; [apply for_loop_length|..]; simpl;
    intros ? ? [? ?]; unfold within_capacity in *; simpl in *; lia.
Qed.

Lemma find_idle_intro cs i c :
  cs !! i = Some c → ref_count c = 0%Z →
  (∀ j c', j < i → cs !! j = Some c' → ref_count c' ≠ 0%Z) →
  find_idle cs = Some i.
Proof.
  revert i. induction cs as [|c0 cs IH]; intros i Hl Hz Hbusy; [done|].
  simpl. destruct i as [|i]; simplify_eq/=.
  - by rewrite (proj2 (Z.eqb_eq _ _) Hz).
  - assert (ref_count c0 ≠ 0%Z) as Hc0 by (apply (Hbusy 0); [lia|done]).
    rewrite (proj2 (Z.eqb_neq _ _) Hc0).
    rewrite (IH i); [done..|].
    intros j c' Hj Hl'. apply (Hbusy (S j)); [lia|done].
Qed.

Lemma Get_loop_waits n fuel s :
  find_idle (Connections (this s)) = None →
  (MaxConnections (this s) ≤ Z.of_nat (length (Connections (this s))))%Z →
  Get_loop (n + fuel) s = Get_loop fuel (traced (backoffs n) s).
Proof.
  revert s. induction n as [|n IH]; intros s Hf Hm.
  - change (Get_loop fuel s = Get_loop fuel (traced [] s)).
    unfold traced. rewrite app_nil_r. by destruct s.
  - change (S n + fuel) with (S (n + fuel)).
    rewrite Get_loop_full by done. rewrite IH by done.
    by rewrite traced_traced.
Qed.

Lemma Get_loop_starves fuel s :
  find_idle (Connections (this s)) = None →
  (MaxConnections (this s) ≤ Z.of_nat (length (Connections (this s))))%Z →
  Get_loop fuel s = OutOfFuel.
Proof.
  intros Hf Hm. replace fuel with (fuel + 0) by lia.
  by rewrite Get_loop_waits.
Qed.

Lemma count_driver_calls_backoffs n :
  count_events is_driver_call (backoffs n) = 0.
Proof. induction n as [|n IH]; simpl; [done|]. by rewrite IH. Qed.

Lemma held_traced evs i s : held i (traced evs s) = traced evs (held i s).
Proof. done. Qed.

Lemma Get_idle fuel s it :
  Initialized (this s) = true →
  find_idle (Connections (this s)) = Some it →
  Get (S fuel) s
  = Ret (mkEntry (Some it) this_pool) (traced [EvLock; EvUnlock] (held it s)).
Proof.
  intros Hi Hf. rewrite Get_run, Initialize_done by done.
  rewrite Get_loop_S. simpl. rewrite Hf, new_Entry_run.
  by rewrite held_traced, traced_traced.
Qed.

Lemma drop_Entry_run i (p : PoolPtr) s :
  drop_Entry (mkEntry (Some i) p) s
  = Ret tt (mkState (set_Connections (add_ref (-1) i (Connections (this s)))
                                     (this s))
                    (world s) (trace s) (next_conn s)).
Proof. done. Qed.

Lemma drop_held i (p : PoolPtr) s :
  (∀ c, Connections (this s) !! i = Some c → is_int (ref_count c)) →
  drop_Entry (mkEntry (Some i) p) (held i s) = Ret tt s.
Proof.
  intros Hint. rewrite drop_Entry_run. simpl.
  rewrite (add_ref_cancel 1), set_Connections_twice, set_Connections_same
    by done.
  by destruct s.
Qed.

Lemma for_loop_Throw_length n s e s' :
  for_loop n (AllocConnection false) s = Throw e s' →
  length (Connections (this s')) < length (Connections (this s)) + n.
Proof.
  revert s. induction n as [|n IH]; intros s; simpl; [done|].
  intros Hrun. pose proof (AllocConnection_length false s) as Hlen.
  apply bind_Throw_inv in Hrun as [Hrun|(a & s1 & Halloc & Hrun)].
  - rewrite Hrun in Hlen. simpl in Hlen. lia.
  - rewrite Halloc in Hlen. simpl in Hlen. apply IH in Hrun. lia.
Qed.

Lemma Pool_dtor_run s :
  Pool_dtor s
  = Ret tt (traced ([EvLock] ++ (EvDelete <$> sessions s) ++ [EvUnlock]) s).
Proof.
  unfold Pool_dtor. rewrite ScopedLock_run. unfold bind at 1, get_pool.
  rewrite delete_each_run. by rewrite !traced_traced.
Qed.

(** *** Handles stay valid; [tryGet] does not wait *)

Lemma Get_acquires fuel s :
  outcome (Get fuel s)
    (λ h s', ∃ i, h = mkEntry (Some i) this_pool ∧ acquired i s s')
    (λ _ s', appends s s').
Proof.
  pose proof (appends_Initialize (traced [EvLock] s)) as Hinit.
  rewrite Get_run.
  destruct (Initialize _) as [[] s1|e s1| |]; simpl in *; try done.
  pose proof (Get_loop_acquires fuel s s1 Hinit) as Hloop.
  by destruct (Get_loop fuel s1).
Qed.

Lemma tryGet_acquires s :
  outcome (tryGet s)
    (λ h s', (h = Entry_null ∧ appends s s')
             ∨ ∃ i, h = mkEntry (Some i) this_pool ∧ acquired i s s')
    (λ _ s', appends s s').
Proof.
  pose proof (appends_Initialize (traced [EvLock] s)) as Hinit.
  rewrite tryGet_run.
  destruct (Initialize _) as [[] s1|e s1| |]; simpl in *; try done.
  pose proof (tryGet_scan_acquires s s1 Hinit) as Hscan.
  by destruct (tryGet_scan s1).
Qed.

Lemma bind_Undefined_inv {A B} (m : M W A) (k : A → M W B) s :
  bind m k s = Undefined →
  m s = Undefined ∨ ∃ a s1, m s = Ret a s1 ∧ k a s1 = Undefined.
Proof. unfold bind. destruct (m s); naive_solver. Qed.

Lemma Connection_ping_defined c s : Connection_ping c s ≠ Undefined.
Proof. unfold Connection_ping. by destruct (conn_ping c (world s)). Qed.

Lemma Connection_connect_defined c cfg s : Connection_connect c cfg s ≠ Undefined.
Proof.
  unfold Connection_connect. by destruct (conn_connect cfg c (world s)) as [[|] ?].
Qed.

Lemma afterConnect_defined c s : afterConnect c s ≠ Undefined.
Proof.
  unfold afterConnect. run.
  destruct (String.eqb (InitConnect (this s)) ""); run; [done|].
  by destruct (query_execute _ _ _) as [[|] ?].
Qed.

Lemma reconnect_loop_defined fuel first c s :
  reconnect_loop fuel first c s ≠ Undefined.
Proof.
  revert first s. induction fuel as [|fuel IH]; intros first s; simpl; [done|].
  intros Hu.
  apply bind_Undefined_inv in Hu as [Hu|(? & s0 & _ & Hu)];
    [by destruct first|].
  apply bind_Undefined_inv in Hu as [Hu|(p & s1 & Hp & Hu)]; [done|].
  apply bind_Undefined_inv in Hu as [Hu|(? & s2 & _ & Hu)]; [done|].
  apply bind_Undefined_inv in Hu as [Hu|(? & s3 & _ & Hu)];
    [by apply Connection_connect_defined in Hu|].
  apply bind_Undefined_inv in Hu as [Hu|(alive & s4 & _ & Hu)];
    [by apply Connection_ping_defined in Hu|].
  destruct alive; [done|]. by apply IH in Hu.
Qed.

Lemma Entry_access_valid fuel i (p : PoolPtr) s c :
  Connections (this s) !! i = Some c →
  Entry_access fuel (mkEntry (Some i) p) s ≠ Undefined
  ∧ ∀ r s', Entry_access fuel (mkEntry (Some i) p) s = Ret r s' → r = conn c.
Proof.
  intros Hl. unfold Entry_access; simpl. split.
  - intros Hu.
    apply bind_Undefined_inv in Hu as [Hu|([] & s1 & Hforce & Hu)].
    + unfold ForceConnected in Hu.
      rewrite (bind_Ret _ _ _ _ _ (data_conn_run i p s c Hl)) in Hu.
      apply bind_Undefined_inv in Hu as [Hu|(alive & s1 & _ & Hu)];
        [by apply Connection_ping_defined in Hu|].
      destruct alive; [done|].
      apply bind_Undefined_inv in Hu as [Hu|([] & s2 & _ & Hu)];
        [by apply reconnect_loop_defined in Hu|].
      by apply afterConnect_defined in Hu.
    + apply ForceConnected_Ret in Hforce as (i' & slot & _ & _ & Hp & _).
      rewrite (data_conn_run i p s1 c) in Hu; [done|]. by rewrite Hp.
  - intros r s' Hrun.
    apply bind_Ret_inv in Hrun as ([] & s1 & Hforce & Hc).
    apply ForceConnected_Ret in Hforce as (i' & slot & _ & _ & Hp & _).
    rewrite (data_conn_run i p s1 c) in Hc; [|by rewrite Hp].
    by simplify_eq.
Qed.

Lemma count_events_nil f : count_events f [] = 0.
Proof. done. Qed.

Lemma alloc_outcome_quick b s r :
  alloc_outcome b s r →
  outcome r (λ _ s', ∃ evs, trace s' = trace s ++ evs ∧ quick evs)
            (λ _ s', ∃ evs, trace s' = trace s ++ evs ∧ quick evs).
Proof.
  destruct 1; simpl; (eexists; split; [reflexivity|]);
    unfold quick; simpl; lia.
Qed.

Lemma tryGet_scan_quick s :
  outcome (tryGet_scan s)
    (λ _ s', ∃ evs, trace s' = trace s ++ evs ∧ quick evs)
    (λ _ s', ∃ evs, trace s' = trace s ++ evs ∧ quick evs).
Proof.
  destruct (find_idle (Connections (this s))) as [it|] eqn:Hf.
  - destruct (find_idle_Some _ _ Hf) as (c & Hl & Hz).
    destruct (conn_ping (conn c) (world s)) as [alive w] eqn:Hp.
    rewrite (tryGet_scan_probe s it c alive w) by done. simpl.
    eexists. split; [reflexivity|]. unfold quick; simpl. lia.
  - unfold tryGet_scan, bind at 1, get_pool. rewrite Hf.
    case_match.
    { simpl. exists []. split; [by rewrite app_nil_r|]. unfold quick; simpl. lia. }
    apply outcome_bind.
    pose proof (alloc_outcome_quick _ _ _ (AllocConnection_outcome true s))
      as Hq.
    destruct (AllocConnection true s) as [[c|] s1|e s1| |];
      cbn [outcome] in *; try done.
Qed.

End Further.

(** X1 — [getDescription] after the first acquisition.  When [Get] or
    [tryGet] returns on a pool that was not initialized, the keys [host],
    [port] and [user] of the configuration section were present, and
    [getDescription] now gives "<db>@<host>:<port> as user <user>", with the
    empty string for a missing [db]. *)
Theorem getDescription_after_acquisition {W} {D : Driver W}
    (s s' : State W) (h : Entry) :
  Initialized (this s) = false →
  (∃ fuel, Get fuel s = Ret h s') ∨ tryGet s = Ret h s' →
  ∃ host port user,
    cfg_getString (world s) (config_name (this s) +:+ ".host") = Some host ∧
    cfg_getString (world s) (config_name (this s) +:+ ".port") = Some port ∧
    cfg_getString (world s) (config_name (this s) +:+ ".user") = Some user ∧
    getDescription s'
    = Ret (default "" (cfg_getString (world s) (config_name (this s) +:+ ".db"))
           +:+ "@" +:+ host +:+ ":" +:+ port +:+ " as user " +:+ user) s'.
Proof.
  intros Hi Hrun.
  assert (∃ s1 s2, Initialize (traced [EvLock] s) = Ret tt s1 ∧
                   evolves s1 s2 ∧ s' = traced [EvUnlock] s2)
    as (s1 & s2 & Hinit & Hev & ->).
  { destruct Hrun as [[fuel Hrun]|Hrun].
    - apply Get_Ret_inv in Hrun as (s1 & s2 & Hinit & Hloop & ->).
      exists s1, s2. split_and!; [done| |done].
      pose proof (steady_Get_loop fuel s1) as Hev. by rewrite Hloop in Hev.
    - apply tryGet_Ret_inv in Hrun as (s1 & s2 & Hinit & Hscan & ->).
      exists s1, s2. split_and!; [done| |done].
      pose proof (steady_tryGet_scan s1) as Hev. by rewrite Hscan in Hev. }
  apply Initialize_Ret in Hinit as (Hi1 & Hd & _); [|done]. simpl in Hd.
  apply composed_Some in Hd as (host & port & user & Hh & Hp & Hu & Hd).
  exists host, port, user. split_and!; [done..|].
  unfold getDescription, bind, get_pool, ret; simpl.
  by rewrite (ev_description _ _ Hev Hi1), Hd.
Qed.

Lemma getDescription_after_acquisition_witness :
  let cfg := [("mysql_params.host", "localhost"); ("mysql_params.port", "3306");
              ("mysql_params.user", "metrika")] in
  let s := mkState (Pool_new "mysql_params" 1 16 "")
                   (Scripted.mkWorld [] [] [] false cfg) [] 0 in
  ∃ h s', tryGet s = Ret h s' ∧
          getDescription s' = Ret "@localhost:3306 as user metrika" s'.
Proof.
  intros cfg s.
  assert (∃ h s', tryGet (D := Scripted.driver) s = Ret h s')
    as (h & s' & Hrun) by (eexists _, _; vm_compute; reflexivity).
  exists h, s'. split; [exact Hrun|].
  destruct (getDescription_after_acquisition (D := Scripted.driver) s s' h
              eq_refl (or_intror Hrun))
    as (host & port & user & Hh & Hp & Hu & Hd).
  injection Hh as <-. injection Hp as <-. injection Hu as <-. exact Hd.
Defined.

(** X2 — a missing configuration key.  On a pool that is not initialized,
    if [host], [port] or [user] is missing from the configuration section,
    [Get] and [tryGet] throw Poco's [NotFoundException] at once: the pool is
    as it was (still not initialized, so the next acquisition reads the
    configuration again), no driver call was made, and the only events are
    the mutex taken and given back. *)
Theorem missing_configuration_key {W} {D : Driver W} (s : State W) (key : string) :
  Initialized (this s) = false →
  key ∈ [".host"; ".port"; ".user"] →
  cfg_getString (world s) (config_name (this s) +:+ key) = None →
  (∀ fuel, Get fuel s = Throw NotFoundException (traced [EvLock; EvUnlock] s))
  ∧ tryGet s = Throw NotFoundException (traced [EvLock; EvUnlock] s).
Proof.
  intros Hi Hkey Hnone.
  assert (Initialize (traced [EvLock] s)
          = Throw NotFoundException (traced [EvLock] s)) as Hinit.
  { rewrite Initialize_run by done. simpl.
    by rewrite (composed_None _ _ key Hkey Hnone). }
  split.
  - intros fuel. by rewrite Get_run, Hinit, traced_traced.
  - by rewrite tryGet_run, Hinit, traced_traced.
Qed.

Lemma missing_configuration_key_witness :
  let cfg := [("mysql_params.db", "stat"); ("mysql_params.host", "localhost");
              ("mysql_params.user", "metrika")] in
  let s := mkState (Pool_new "mysql_params" 1 16 "")
                   (Scripted.mkWorld [] [] [] false cfg) [] 0 in
  Get 3 s = Throw NotFoundException (traced [EvLock; EvUnlock] s).
Proof.
  intros cfg s.
  assert (".port" ∈ [".host"; ".port"; ".user"]) as Hkey
    by (apply elem_of_cons; right; apply elem_of_cons; left; reflexivity).
  exact (proj1 (missing_configuration_key (D := Scripted.driver) s ".port"
                  eq_refl Hkey eq_refl) 3).
Defined.

(** X3 — the capacity bound, where it holds.  If the pool is initialized
    and its list is within [MaxConnections], or if it is not initialized and
    the list has room for [DefaultConnections] more slots, then after every
    outcome of [Get] and of [tryGet], return or throw, the list is within
    [MaxConnections]. *)
Theorem acquisitions_within_capacity {W} {D : Driver W} (s : State W) :
  (Z.of_nat (length (Connections (this s))
             + (if Initialized (this s) then 0
                else Z.to_nat (DefaultConnections (this s))))
   ≤ MaxConnections (this s))%Z →
  (∀ fuel, outcome (Get fuel s) (λ _ s', within_capacity s')
                                (λ _ s', within_capacity s'))
  ∧ outcome (tryGet s) (λ _ s', within_capacity s')
                       (λ _ s', within_capacity s').
Proof.
  intros Hroom.
  pose proof (Initialize_capacity (traced [EvLock] s) Hroom) as Hinit.
  split.
  - intros fuel. rewrite Get_run.
    destruct (Initialize _) as [[] s1|e s1| |]; simpl in *; try done.
    pose proof (Get_loop_capacity fuel s1 Hinit) as Hloop.
    by destruct (Get_loop fuel s1).
  - rewrite tryGet_run.
    destruct (Initialize _) as [[] s1|e s1| |]; simpl in *; try done.
    pose proof (tryGet_scan_capacity s1 Hinit) as Hscan.
    by destruct (tryGet_scan s1).
Qed.

Lemma acquisitions_within_capacity_witness :
  let s := Scripted.fresh 2 2 "" (Scripted.world_of [] [] [] false) in
  outcome (Get 1 s) (λ _ s', within_capacity s') (λ _ s', within_capacity s').
Proof.
  intros s.
  assert (Z.of_nat (length (Connections (this s))
                    + (if Initialized (this s) then 0
                       else Z.to_nat (DefaultConnections (this s))))
          ≤ MaxConnections (this s))%Z as Hroom by (vm_compute; discriminate).
  exact (proj1 (acquisitions_within_capacity (D := Scripted.driver) s Hroom) 1).
Defined.

(** X4 — what no operation changes.  Over every outcome of [Get], [tryGet]
    and the access operators: [DefaultConnections], [MaxConnections],
    [InitConnect] and [config_name] are as they were; [was_successful] and
    [Initialized] do not go back to false; every slot is still at its
    position with the same connection object; the trace and the count of
    connection objects made only grow. *)
Theorem operations_keep_policy_and_slots {W} {D : Driver W} (s : State W) :
  (∀ fuel, outcome (Get fuel s) (λ _ s', evolves s s') (λ _ s', evolves s s'))
  ∧ outcome (tryGet s) (λ _ s', evolves s s') (λ _ s', evolves s s')
  ∧ (∀ fuel h, outcome (Entry_access fuel h s)
                 (λ _ s', evolves s s') (λ _ s', evolves s s')).
Proof.
  split_and!.
  - intros fuel. apply steady_Get.
  - apply steady_tryGet.
  - intros fuel h. apply steady_Entry_access.
Qed.

(** X5 — a handle takes an idle slot and nothing else.  Over [Get] and
    [tryGet]: when a handle on slot [i] is returned, slot [i] was idle at the
    call or was not there yet, it is now held exactly once, and every other
    slot that was there is exactly as it was, reference count included; when
    the call throws, or [tryGet] returns the empty handle, every slot that
    was there is exactly as it was.  [Get] never returns the empty handle. *)
Theorem acquisition_takes_an_idle_slot {W} {D : Driver W} (s : State W) :
  (∀ fuel, outcome (Get fuel s)
             (λ h s', ∃ i, h = mkEntry (Some i) this_pool ∧ acquired i s s')
             (λ _ s', appends s s'))
  ∧ outcome (tryGet s)
      (λ h s', (h = Entry_null ∧ appends s s')
               ∨ ∃ i, h = mkEntry (Some i) this_pool ∧ acquired i s s')
      (λ _ s', appends s s').
Proof. split; [intros fuel; apply Get_acquires|apply tryGet_acquires]. Qed.

(** X6 — the access operators leave the pool alone.  Over every outcome of
    an access, a reconnect included: the pool is exactly as it was (slots,
    reference counts and flags; [was_successful] is not set by a reconnect),
    no connection object was made and none was deleted. *)
Theorem access_leaves_pool_untouched {W} {D : Driver W}
    (fuel : nat) (h : Entry) (s : State W) :
  outcome (Entry_access fuel h s)
    (λ _ s', this s' = this s ∧ next_conn s' = next_conn s
             ∧ deleted (trace s') = deleted (trace s))
    (λ _ s', this s' = this s ∧ next_conn s' = next_conn s
             ∧ deleted (trace s') = deleted (trace s)).
Proof. apply untouched_Entry_access. Qed.

(** X7 — [Get] waits while the pool is full.  On an initialized pool whose
    slots are all held and whose list is at least [MaxConnections] long, no
    number of rounds makes [Get] return or throw as long as no handle is
    given back: each round only unlocks, yields, sleeps 10 seconds and locks
    again, with no call into the driver, and finds the pool as it was. *)
Theorem Get_waits_while_full {W} {D : Driver W} (s : State W) :
  Initialized (this s) = true →
  Forall (λ c, ref_count c ≠ 0%Z) (Connections (this s)) →
  (MaxConnections (this s) ≤ Z.of_nat (length (Connections (this s))))%Z →
  (∀ fuel, Get fuel s = OutOfFuel)
  ∧ (∀ n fuel, Get_loop (n + fuel) (traced [EvLock] s)
               = Get_loop fuel (traced ([EvLock] ++ backoffs n) s))
  ∧ (∀ n, count_events is_driver_call (backoffs n) = 0
          ∧ count_events (is_sleep 10) (backoffs n) = n).
Proof.
  intros Hi Hbusy Hmax. apply find_idle_None in Hbusy. split_and!.
  - intros fuel. rewrite Get_run, Initialize_done by done.
    by rewrite Get_loop_starves.
  - intros n fuel. rewrite Get_loop_waits by done. by rewrite traced_traced.
  - intros n. split; [apply count_driver_calls_backoffs|].
    induction n as [|n IH]; simpl; [done|]. by rewrite IH.
Qed.

Lemma Get_waits_while_full_witness :
  let p := mkPool 1 1 "" true [mkConnection 0 1] "mysql_params" "" true in
  let s := mkState p (Scripted.world_of [] [] [] false) [] 1 in
  Get 7 s = OutOfFuel.
Proof.
  intros p s.
  assert (Forall (λ c, ref_count c ≠ 0%Z) (Connections (this s))) as Hbusy
    by (repeat constructor; simpl; lia).
  assert (MaxConnections (this s) ≤ Z.of_nat (length (Connections (this s))))%Z
    as Hmax by (simpl; lia).
  exact (proj1 (Get_waits_while_full (D := Scripted.driver) s eq_refl
                  Hbusy Hmax) 7).
Defined.

(** X8 — [Get], give back, [Get] again.  On an initialized pool with an idle
    slot, [Get] returns a handle on the first idle slot of the list without
    any call into the driver; destroying that handle puts the pool back
    exactly as it was before the [Get]; and the next [Get] returns the same
    slot again. *)
Theorem Get_release_round_trip {W} {D : Driver W}
    (fuel : nat) (s : State W) (it : nat) :
  Initialized (this s) = true →
  find_idle (Connections (this s)) = Some it →
  let h := mkEntry (Some it) this_pool in
  let lock_unlock := [EvLock; EvUnlock] in
  (∃ c, Connections (this s) !! it = Some c ∧ ref_count c = 0%Z)
  ∧ (∀ j c, j < it → Connections (this s) !! j = Some c → ref_count c ≠ 0%Z)
  ∧ Get (S fuel) s = Ret h (traced lock_unlock (held it s))
  ∧ drop_Entry h (traced lock_unlock (held it s)) = Ret tt (traced lock_unlock s)
  ∧ Get (S fuel) (traced lock_unlock s)
    = Ret h (traced (lock_unlock ++ lock_unlock) (held it s)).
Proof.
  intros Hi Hf h lock_unlock. split_and!.
  - by apply find_idle_Some.
  - intros j c Hj Hl. by eapply find_idle_first.
  - by apply Get_idle.
  - rewrite <- held_traced. apply drop_held. simpl. ints.
  - rewrite (Get_idle fuel (traced lock_unlock s) it) by done.
    by rewrite held_traced, traced_traced.
Qed.

Lemma Get_release_round_trip_witness :
  let p := mkPool 1 4 "" true
             [mkConnection 0 2; mkConnection 1 0; mkConnection 2 0]
             "mysql_params" "" true in
  let s := mkState p (Scripted.world_of [] [] [] false) [] 3 in
  Get 1 s = Ret (mkEntry (Some 1) this_pool) (traced [EvLock; EvUnlock] (held 1 s))
  ∧ drop_Entry (mkEntry (Some 1) this_pool) (traced [EvLock; EvUnlock] (held 1 s))
    = Ret tt (traced [EvLock; EvUnlock] s).
Proof.
  intros p s.
  destruct (Get_release_round_trip (D := Scripted.driver) 0 s 1
              eq_refl eq_refl) as (_ & _ & Hget & Hdrop & _).
  split; [exact Hget|exact Hdrop].
Defined.

(** X9 — a full pool, then a handle given back.  On an initialized pool at
    [MaxConnections] whose slots are all held, slot [i] by one handle only,
    [tryGet] throws "mysqlxx::Pool is full" and leaves the pool as it was.
    Once that handle is destroyed, [tryGet] probes slot [i] and, its [ping]
    being alive, returns a handle on it: the pool is then again as it was
    before the handle was given back. *)
Theorem tryGet_full_then_released {W} {D : Driver W}
    (s : State W) (i : nat) (c : Connection) :
  Initialized (this s) = true →
  Connections (this s) !! i = Some c →
  ref_count c = 1%Z →
  (∀ j c', j ≠ i → Connections (this s) !! j = Some c' → ref_count c' ≠ 0%Z) →
  (MaxConnections (this s) ≤ Z.of_nat (length (Connections (this s))))%Z →
  let h := mkEntry (Some i) this_pool in
  tryGet s = Throw (PocoException "mysqlxx::Pool is full")
                   (traced [EvLock; EvUnlock] s)
  ∧ ∃ s1,
      drop_Entry h s = Ret tt s1 ∧
      find_idle (Connections (this s1)) = Some i ∧
      ∀ w, conn_ping (conn c) (world s) = (true, w) →
           tryGet s1
           = Ret h (mkState (this s) w
                      (trace s ++ [EvLock; EvPing (conn c) true; EvUnlock])
                      (next_conn s)).
Proof.
  intros Hi Hl Hone Hothers Hmax h.
  assert (Initialize (traced [EvLock] s) = Ret tt (traced [EvLock] s)) as Hinit
    by by apply Initialize_done.
  split.
  - rewrite (tryGet_full s _ Hinit), traced_traced; [done| |].
    + apply find_idle_None, Forall_lookup. intros j c' Hj.
      destruct (decide (j = i)) as [->|Hne]; [|by eapply Hothers].
      simpl in Hj. rewrite Hl in Hj. simplify_eq. lia.
    + apply Z.geb_le. simpl. lia.
  - eexists. split; [apply drop_Entry_run|]. simpl.
    assert (find_idle (add_ref (-1) i (Connections (this s))) = Some i) as Hf.
    { eapply find_idle_intro;
        [by apply add_ref_lookup_eq|simpl; by rewrite Hone|].
      intros j c' Hj Hl'. unfold add_ref in Hl'.
      rewrite list_lookup_alter_ne in Hl' by lia.
      eapply Hothers; [|done]. lia. }
    split; [done|]. intros w Hping.
    set (s1 := mkState _ _ _ _).
    assert (Initialize (traced [EvLock] s1) = Ret tt (traced [EvLock] s1))
      as Hinit1 by by apply Initialize_done.
    rewrite (tryGet_probe s1 _ i
               (mkConnection (conn c) (to_int (ref_count c + -1)))
               true w Hinit1 Hf); [|by apply add_ref_lookup_eq|done].
    simpl. rewrite (add_ref_cancel' 1), set_Connections_twice,
      set_Connections_same by ints.
    by rewrite <- app_assoc.
Qed.

Lemma tryGet_full_then_released_witness :
  let p := mkPool 1 2 "" true [mkConnection 0 2; mkConnection 1 1]
                  "mysql_params" "" true in
  let s := mkState p (Scripted.world_of [] [] [] false) [] 2 in
  tryGet s = Throw (PocoException "mysqlxx::Pool is full")
                   (traced [EvLock; EvUnlock] s)
  ∧ ∃ s1, drop_Entry (mkEntry (Some 1) this_pool) s = Ret tt s1 ∧
          tryGet s1
          = Ret (mkEntry (Some 1) this_pool)
                (mkState p (Scripted.world_of [] [] [] false)
                   [EvLock; EvPing 1 true; EvUnlock] 2).
Proof.
  intros p s.
  assert (∀ j c', j ≠ 1 → Connections (this s) !! j = Some c' →
                  ref_count c' ≠ 0%Z) as Hothers.
  { intros [|[|j]] c' Hne Hl; simplify_eq/=. lia. }
  assert (MaxConnections (this s) ≤ Z.of_nat (length (Connections (this s))))%Z
    as Hmax by (simpl; lia).
  destruct (tryGet_full_then_released (D := Scripted.driver) s 1
              (mkConnection 1 1) eq_refl eq_refl eq_refl Hothers Hmax)
    as (Hfull & s1 & Hdrop & _ & Hagain).
  split; [exact Hfull|].
  exists s1. split; [exact Hdrop|].
  exact (Hagain (Scripted.world_of [] [] [] false) eq_refl).
Defined.

(** X10 — what [operator=] does.  For live handles [dst] and [src], after
    [dst = src] both hold the [data] and [pool] that [src] held, every other
    handle is as it was, and in the slots the count of the slot [dst] pointed
    to went down by one and then the count of the slot [src] points to up by
    one (nothing at all for an empty handle). *)
Theorem Entry_assign_result (dst src : nat) (hp : Heap) (d sr : Entry) :
  live hp dst = Some d →
  live hp src = Some sr →
  ∃ hp',
    handle_step (OpAssign dst src) hp = Some hp' ∧
    live hp' dst = Some sr ∧
    live hp' src = Some sr ∧
    (∀ h, h ≠ dst → handles hp' !! h = handles hp !! h) ∧
    slots hp' = incr_if (data sr) (decr_if (data d) (slots hp)).
Proof.
  intros Hd Hs. simpl. unfold Entry_assign. rewrite Hd, Hs.
  apply live_Some in Hd as Hd'. apply live_Some in Hs as Hs'.
  assert (dst < length (handles hp)) as Hlt by by eapply lookup_lt_Some.
  unfold live; simpl. rewrite list_lookup_insert_eq by done.
  destruct (decide (dst = src)) as [->|Hne].
  - rewrite list_lookup_insert_eq by done. simplify_eq.
    eexists. split; [done|]. simpl.
    rewrite list_insert_insert_eq, list_lookup_insert_eq by done.
    destruct d as [ds ps]. split_and!; [done..| |done].
    intros h Hh. by rewrite list_lookup_insert_ne.
  - rewrite list_lookup_insert_ne, Hs' by done.
    eexists. split; [done|]. simpl.
    rewrite list_insert_insert_eq, list_lookup_insert_eq by done.
    rewrite list_lookup_insert_ne, Hs' by done.
    destruct sr as [ds ps]. split_and!; [done..| |done].
    intros h Hh. by rewrite list_lookup_insert_ne.
Qed.

Lemma Entry_assign_result_witness :
  let a := mkEntry (Some 0) this_pool in
  let b := mkEntry (Some 1) this_pool in
  let hp := mkHeap [mkConnection 0 1; mkConnection 1 1] [Some a; Some b] in
  ∃ hp', handle_step (OpAssign 0 1) hp = Some hp' ∧
         live hp' 0 = Some b ∧
         slots hp' = [mkConnection 0 0; mkConnection 1 2].
Proof.
  intros a b hp.
  destruct (Entry_assign_result 0 1 hp a b eq_refl eq_refl)
    as (hp' & Hstep & Hdst & _ & _ & Hslots).
  exists hp'. split_and!; [exact Hstep|exact Hdst|exact Hslots].
Defined.

(** X11 — no connection object is deleted twice.  Call a state tidy when
    the slots hold different connection objects, none of them deleted, and no
    object was deleted twice.  A pool just constructed is tidy; [Get],
    [tryGet] and the access operators keep a tidy state tidy over every
    outcome; and on a tidy state the destructor deletes the connection
    object of every slot, once each, first to last, held or not, so that
    still no object was deleted twice. *)
Theorem connection_objects_deleted_once {W} {D : Driver W} (s : State W) :
  (∀ cfg DefConn MaxConn InitConnect_ w n,
     tidy (mkState (Pool_new cfg DefConn MaxConn InitConnect_) w [] n
           : State W))
  ∧ (tidy s →
     (∀ fuel, outcome (Get fuel s) (λ _ s', tidy s') (λ _ s', tidy s'))
     ∧ outcome (tryGet s) (λ _ s', tidy s') (λ _ s', tidy s')
     ∧ (∀ fuel h, outcome (Entry_access fuel h s)
                    (λ _ s', tidy s') (λ _ s', tidy s'))
     ∧ ∃ s', Pool_dtor s = Ret tt s' ∧
             deleted (trace s') = deleted (trace s) ++ sessions s ∧
             NoDup (deleted (trace s'))).
Proof.
  split.
  - intros cfg DefConn MaxConn InitConnect_ w n. split; simpl.
    + apply NoDup_nil_2.
    + intros c Hc. by apply elem_of_nil in Hc.
  - intros Htidy. split_and!.
    + intros fuel.
      eapply outcome_weaken; [apply (tidy_Get fuel s)|..]; simpl; eauto.
    + eapply outcome_weaken; [apply (tidy_tryGet s)|..]; simpl; eauto.
    + intros fuel h.
      eapply outcome_weaken;
        [apply (tidy_of_untouched _ (untouched_Entry_access fuel h) s)|..];
        simpl; eauto.
    + eexists. split; [apply Pool_dtor_run|].
      assert (deleted (trace (traced ([EvLock] ++ (EvDelete <$> sessions s)
                                      ++ [EvUnlock]) s))
              = deleted (trace s) ++ sessions s) as Hdel.
      { unfold traced; cbn [trace].
        rewrite !deleted_app, deleted_EvDelete. simpl. by rewrite app_nil_r. }
      split; [exact Hdel|]. rewrite Hdel.
      destruct Htidy as [Hnd _].
      by rewrite (Permutation_app_comm (deleted (trace s)) (sessions s)).
Qed.

Lemma connection_objects_deleted_once_witness :
  let e := ConnectionFailed 2003 "Can't connect" in
  let p := mkPool 1 3 "" true [mkConnection 0 1; mkConnection 2 1]
                  "mysql_params" "" true in
  let s := mkState p (Scripted.world_of [] [] [] false)
                   [EvDelete 1] 3 in
  tidy s ∧ ∃ s', Pool_dtor s = Ret tt s' ∧ deleted (trace s') = [1; 0; 2].
Proof.
  intros e p s.
  assert (tidy s) as Htidy.
  { split.
    - repeat (apply NoDup_cons; split;
              [intros Hin; repeat (apply elem_of_cons in Hin as [Hin|Hin];
                                   [discriminate Hin|]);
               by apply elem_of_nil in Hin|]).
      apply NoDup_nil_2.
    - intros c Hc.
      repeat (apply elem_of_cons in Hc as [->|Hc]; [simpl; lia|]).
      by apply elem_of_nil in Hc. }
  split; [exact Htidy|].
  destruct (proj2 (connection_objects_deleted_once (D := Scripted.driver) s)
              Htidy) as (_ & _ & _ & s' & Hrun & Hdel & _).
  exists s'. split; [exact Hrun|exact Hdel].
Defined.

(** X12 — an initialization that throws.  When [Initialize] throws on a
    pool that was not initialized, [Initialized] is still false, the slots
    that were there are untouched, and the slots appended before the failure
    stay in the list: at most [DefaultConnections] - 1 of them.  The next
    initialization that returns makes [DefaultConnections] calls of [connect]
    again, on top of them. *)
Theorem failed_initialization_keeps_slots {W} {D : Driver W}
    (s s' : State W) (e : exn) :
  Initialized (this s) = false →
  Initialize s = Throw e s' →
  Initialized (this s') = false
  ∧ Connections (this s) `prefix_of` Connections (this s')
  ∧ length (Connections (this s'))
    ≤ length (Connections (this s))
      + (Z.to_nat (DefaultConnections (this s)) - 1)
  ∧ (∀ s'', Initialize s' = Ret tt s'' →
       ∃ evs, trace s'' = trace s' ++ evs ∧
              count_events is_connect evs
              = Z.to_nat (DefaultConnections (this s))).
Proof.
  intros Hi Hrun. rewrite Initialize_run in Hrun by done.
  assert (Initialized (this s') = false
          ∧ Connections (this s) `prefix_of` Connections (this s')
          ∧ length (Connections (this s'))
            ≤ length (Connections (this s))
              + (Z.to_nat (DefaultConnections (this s)) - 1))
    as (Hi' & Hpre & Hlen).
  { destruct (composed _ _) as [d|].
    - apply bind_Throw_inv in Hrun as [Hrun|(a & s1 & _ & Hrun)]; [|done].
      pose proof (appends_for_loop (Z.to_nat (DefaultConnections (this s)))
                    false (described d s)) as Happ.
      rewrite Hrun in Happ. destruct Happ as [Happ Hinit]. simpl in *.
      apply for_loop_Throw_length in Hrun. simpl in Hrun.
      split_and!; [congruence|done|lia].
    - simplify_eq. split_and!; [done|reflexivity|lia]. }
  split_and!; [done..|]. intros s'' Hagain.
  apply Initialize_Ret in Hagain as (_ & _ & evs & Ht & Hc & _); [|done].
  exists evs. split; [done|].
  pose proof (steady_Initialize s) as Hev.
  rewrite Initialize_run in Hev by done. rewrite Hrun in Hev.
  by rewrite <- (ev_DefaultConnections _ _ Hev).
Qed.

Lemma failed_initialization_keeps_slots_witness :
  let e := ConnectionFailed ER_ACCESS_DENIED_ERROR "Access denied" in
  let s := Scripted.fresh 3 8 "" (Scripted.world_of [None; Some e] [] [] false) in
  ∃ s', Initialize s = Throw e s' ∧
        Initialized (this s') = false ∧
        length (Connections (this s')) ≤ 2.
Proof.
  intros e s.
  assert (∃ s', Initialize (D := Scripted.driver) s = Throw e s')
    as [s' Hrun] by (eexists; vm_compute; reflexivity).
  destruct (failed_initialization_keeps_slots (D := Scripted.driver) s s' e
              eq_refl Hrun) as (Hi & _ & Hlen & _).
  exists s'. split_and!; [exact Hrun|exact Hi|exact Hlen].
Defined.

(** X13 — a handle stays valid.  A handle returned by [Get], or a non-empty
    one returned by [tryGet], points to a slot of the list; and in any state
    that later pool code leads to, an access through it never reads a slot
    that is not there, and whenever the access returns it returns the
    connection object that the slot had when the handle was made. *)
Theorem handle_stays_valid {W} {D : Driver W} (s s1 : State W) (h : Entry) :
  (∃ fuel, Get fuel s = Ret h s1) ∨ (tryGet s = Ret h s1 ∧ isNull h = false) →
  ∃ i c,
    h = mkEntry (Some i) this_pool ∧
    Connections (this s1) !! i = Some c ∧
    ∀ s2 fuel,
      evolves s1 s2 →
      Entry_access fuel h s2 ≠ Undefined ∧
      ∀ r s3, Entry_access fuel h s2 = Ret r s3 → r = conn c.
Proof.
  intros Hrun.
  assert (∃ i, h = mkEntry (Some i) this_pool ∧ acquired i s s1)
    as (i & -> & _ & (c & Hl & _) & _).
  { destruct Hrun as [[fuel Hrun]|[Hrun Hnull]].
    - pose proof (Get_acquires fuel s) as Hacq. by rewrite Hrun in Hacq.
    - pose proof (tryGet_acquires s) as Hacq. rewrite Hrun in Hacq.
      by destruct Hacq as [[-> _]|Hacq]. }
  exists i, c. split_and!; [done..|]. intros s2 fuel Hev.
  destruct (ev_Connections _ _ Hev i c Hl) as (c2 & Hl2 & <-).
  by apply Entry_access_valid.
Qed.

Lemma handle_stays_valid_witness :
  let s := Scripted.fresh 1 16 "" (Scripted.world_of [] [false; true] [] false) in
  ∃ h s1,
    Get 1 s = Ret h s1 ∧
    ∃ i c,
      h = mkEntry (Some i) this_pool ∧
      Connections (this s1) !! i = Some c ∧
      ∀ s2 fuel,
        evolves s1 s2 →
        Entry_access fuel h s2 ≠ Undefined ∧
        ∀ r s3, Entry_access fuel h s2 = Ret r s3 → r = conn c.
Proof.
  intros s. eexists _, _. split; [vm_compute; reflexivity|].
  apply (handle_stays_valid (D := Scripted.driver) s).
  left. exists 1. vm_compute. reflexivity.
Defined.

(** X14 — [tryGet] does not wait.  On an initialized pool, over every
    outcome, [tryGet] takes the mutex once and gives it back at the end, and
    in between it never sleeps or yields and makes at most one [connect] or
    one [ping] (never both, and no reconnect of a dead slot). *)
Theorem tryGet_does_not_wait {W} {D : Driver W} (s : State W) :
  Initialized (this s) = true →
  let quickly (s' : State W) :=
    ∃ evs, trace s' = trace s ++ [EvLock] ++ evs ++ [EvUnlock] ∧ quick evs in
  outcome (tryGet s) (λ _ s', quickly s') (λ _ s', quickly s').
Proof.
  intros Hi quickly. rewrite tryGet_run, Initialize_done by done.
  pose proof (tryGet_scan_quick (traced [EvLock] s)) as Hq.
  destruct (tryGet_scan _) as [h s2|e s2| |]; simpl in *; try done;
    destruct Hq as (evs & Ht & Hq); exists evs; (split; [|done]);
    unfold traced in *; simpl in *; rewrite Ht;
    by rewrite <- (app_assoc (trace s)), <- (app_assoc (trace s)).
Qed.

Lemma tryGet_does_not_wait_witness :
  let p := mkPool 1 2 "" true [mkConnection 0 0] "mysql_params" "" true in
  let s := mkState p (Scripted.world_of [] [false] [] false) [] 1 in
  outcome (tryGet s)
    (λ _ s', ∃ evs, trace s' = trace s ++ [EvLock] ++ evs ++ [EvUnlock]
                    ∧ quick evs)
    (λ _ s', ∃ evs, trace s' = trace s ++ [EvLock] ++ evs ++ [EvUnlock]
                    ∧ quick evs).
Proof.
  intros p s. exact (tryGet_does_not_wait (D := Scripted.driver) s eq_refl).
Defined.
